(** * Circle physics: a shallow embedding of [src/physics.js]

    The engine moves circular items on a plane one tick at a time, detects
    swept collisions between them and resolves them.

    Number model.  A JavaScript number is modelled by a real number of the
    Standard Library: rounding, [NaN] and the infinities are outside the
    model.  Where a result would depend on the value of a division by zero the
    theorem carries a hypothesis that excludes it.  [Math.pow(a, 2)] is
    [a ^ 2], [Math.pow(d, 0.5)] is [sqrt d] (the source only calls it on
    non-negative numbers), [Math.pow(friction, e)] is [Rpower friction e]
    (they agree for a positive base), [Math.log] is [ln], [Math.atan2] is
    [atan2] below.  A number used as a condition is true when it is not [0].

    Object model.  The items of a world are JavaScript objects held in the
    array [this.items]; an item is identified here by its position in that
    array, and a mutation of an item is an update of the array at that
    position.  A copy of the array ([this.items.slice(0)]) is a list of
    positions.  The functions that add and remove items are about the
    identity of the objects, which this leaves out: they are modelled apart,
    on references kept in a store of arrays. *)

From Stdlib Require Import Reals Lra Lia.
From stdpp Require Import base list sorting gmap.

Open Scope R_scope.

(** ** Deciding comparisons of numbers *)

#[global] Instance R_eq_dec : EqDecision R := Req_dec_T.
#[global] Instance Rlt_decision (a b : R) : Decision (a < b) := Rlt_dec a b.
#[global] Instance Rle_decision (a b : R) : Decision (a <= b) := Rle_dec a b.
#[global] Instance Rgt_decision (a b : R) : Decision (a > b) := Rgt_dec a b.
#[global] Instance Rge_decision (a b : R) : Decision (a >= b) := Rge_dec a b.

(** A number in a condition: [if (v) ...]. *)
Definition truthy (v : R) : bool := bool_decide (v <> 0).

(** ** Configuration (the closure variable [config], never reassigned) *)

Record Config := mkConfig {
  stepCollisions : bool;
  maxSpeed : R;
  record_shots : bool;
  drawCourse : bool;
  drawCollisionAngles : bool;
  drawCurveCourse : bool;
  drawPositionDots : bool;
  stopSpeed : R;
  curveAmplifier : R
}.

Definition config : Config :=
  {| stepCollisions := false;
     maxSpeed := 40;
     record_shots := false;
     drawCourse := false;
     drawCollisionAngles := false;
     drawCurveCourse := false;
     drawPositionDots := false;
     stopSpeed := 1 / 100;
     curveAmplifier := 1 |}.

(** ** Items *)

(** [item.cache]: an absent key is [None]. *)
Record Cache := mkCache {
  stepDistance : option R;
  nextPos : option (R * R);
  nextCurvePos : option (R * R)
}.

Definition emptyCache : Cache := mkCache None None None.

(** [Item].  [shotCurve] is [false] ([None]) or a number; [pos] is flattened
    into [pos_x] and [pos_y].  The fields [bs], [bearing], [rotation] and
    [ghost] are never read by the engine and are left out. *)
Record Item := mkItem {
  shotCourse : R;
  shotCurve : option R;
  shotOriginX : R;
  shotOriginY : R;
  shotDistance : R;
  shotTraveled : R;
  pos_x : R;
  pos_y : R;
  speed : R;
  course : R;
  radius : R;
  power : R;
  disabled : bool;
  unused : R;
  friction : R;
  cache : Cache
}.

(** [new Item(bs, x, y, radius, power)] with the defaults of the prototype. *)
Definition newItem (x y r p : R) : Item :=
  {| shotCourse := 0; shotCurve := None; shotOriginX := 0; shotOriginY := 0;
     shotDistance := 0; shotTraveled := 0;
     pos_x := x; pos_y := y; speed := 0; course := 0; radius := r; power := p;
     disabled := false; unused := -1; friction := 9 / 10; cache := emptyCache |}.

#[global] Instance Item_inhabited : Inhabited Item := populate (newItem 0 0 0 0).

(** Field assignments. *)
Definition set_cache (c : Cache) (i : Item) : Item :=
  mkItem (shotCourse i) (shotCurve i) (shotOriginX i) (shotOriginY i)
    (shotDistance i) (shotTraveled i) (pos_x i) (pos_y i) (speed i) (course i)
    (radius i) (power i) (disabled i) (unused i) (friction i) c.

Definition set_shotCurve (v : option R) (i : Item) : Item :=
  mkItem (shotCourse i) v (shotOriginX i) (shotOriginY i)
    (shotDistance i) (shotTraveled i) (pos_x i) (pos_y i) (speed i) (course i)
    (radius i) (power i) (disabled i) (unused i) (friction i) (cache i).

Definition set_shotTraveled (v : R) (i : Item) : Item :=
  mkItem (shotCourse i) (shotCurve i) (shotOriginX i) (shotOriginY i)
    (shotDistance i) v (pos_x i) (pos_y i) (speed i) (course i)
    (radius i) (power i) (disabled i) (unused i) (friction i) (cache i).

Definition set_speed (v : R) (i : Item) : Item :=
  mkItem (shotCourse i) (shotCurve i) (shotOriginX i) (shotOriginY i)
    (shotDistance i) (shotTraveled i) (pos_x i) (pos_y i) v (course i)
    (radius i) (power i) (disabled i) (unused i) (friction i) (cache i).

Definition set_course (v : R) (i : Item) : Item :=
  mkItem (shotCourse i) (shotCurve i) (shotOriginX i) (shotOriginY i)
    (shotDistance i) (shotTraveled i) (pos_x i) (pos_y i) (speed i) v
    (radius i) (power i) (disabled i) (unused i) (friction i) (cache i).

Definition set_unused (v : R) (i : Item) : Item :=
  mkItem (shotCourse i) (shotCurve i) (shotOriginX i) (shotOriginY i)
    (shotDistance i) (shotTraveled i) (pos_x i) (pos_y i) (speed i) (course i)
    (radius i) (power i) (disabled i) v (friction i) (cache i).

(** The shot fields written by [push]. *)
Definition set_shot (sc : R) (cv : option R) (ox oy tr ds : R) (i : Item) : Item :=
  mkItem sc cv ox oy ds tr (pos_x i) (pos_y i) (speed i) (course i)
    (radius i) (power i) (disabled i) (unused i) (friction i) (cache i).

(** [Item.prototype.setPos]: writes the position and empties the cache. *)
Definition setPos (x y : R) (i : Item) : Item :=
  mkItem (shotCourse i) (shotCurve i) (shotOriginX i) (shotOriginY i)
    (shotDistance i) (shotTraveled i) x y (speed i) (course i)
    (radius i) (power i) (disabled i) (unused i) (friction i) emptyCache.

(** ** Util math *)

(** [abcSquare]: [Math.abs(Math.pow(Math.pow(a,2) + Math.pow(b,2), 0.5))]. *)
Definition abcSquare (a b : R) : R := Rabs (sqrt (a ^ 2 + b ^ 2)).

(** [distanceBetween]: distance between the centres of two items. *)
Definition distanceBetween (a b : Item) : R :=
  abcSquare ((pos_x a + radius a) - (pos_x b + radius b))
            ((pos_y a + radius a) - (pos_y b + radius b)).

(** [Math.atan2(y, x)] on the reals (signed zeros are not modelled). *)
Definition atan2 (y x : R) : R :=
  if decide (0 < x) then atan (y / x)
  else if decide (x < 0) then
    (if decide (0 <= y) then atan (y / x) + PI else atan (y / x) - PI)
  else if decide (0 < y) then PI / 2
  else if decide (y < 0) then - (PI / 2)
  else 0.

(** [getCourse]: [Math.atan2(y2 - y1, x2 - x1)]. *)
Definition getCourse (x1 y1 x2 y2 : R) : R := atan2 (y2 - y1) (x2 - x1).

(** [angleBetween]: [Math.cos((A - B) + Math.PI/2)]. *)
Definition angleBetween (A B : R) : R := cos ((A - B) + PI / 2).

(** [distanceToTravel]. *)
Definition distanceToTravel (speed0 friction0 : R) : R :=
  if decide (speed0 = 0) then 0
  else
    let x := ln (stopSpeed config / speed0) / ln friction0 in
    (speed0 * (1 - Rpower friction0 (x + 1))) / (1 - friction0).

(** ** Item math *)

(** [getShotProgressToPi]. *)
Definition getShotProgressToPi (item : Item) : R :=
  ((shotTraveled item + speed item) / shotDistance item) * PI.

(** [item.shotCurve] read as a number ([false] converts to [0]). *)
Definition curveNumber (item : Item) : R :=
  match shotCurve item with Some c => c | None => 0 end.

(** The locals [y], [alpha], [realY] and [curveStepDistance] of
    [getNextCurvePos]. *)
Definition curveY (item : Item) : R :=
  sin (getShotProgressToPi item) * curveNumber item * curveAmplifier config.

Definition curveAlpha (item : Item) : R :=
  atan (curveY item / getShotProgressToPi item).

Definition curveRealY (item : Item) : R :=
  (curveY item / PI) * shotDistance item.

Definition curveStepDistance (item : Item) : R :=
  abcSquare (shotTraveled item + speed item) (curveRealY item).

(** The position [getNextCurvePos] computes when the cache has none. *)
Definition computeNextCurvePos (item : Item) : R * R :=
  (shotOriginX item + cos (shotCourse item - curveAlpha item) * curveStepDistance item,
   shotOriginY item + sin (shotCourse item - curveAlpha item) * curveStepDistance item).

(** [getNextCurvePos]: the result and the item with its cache written. *)
Definition getNextCurvePos (item : Item) : (R * R) * Item :=
  match nextCurvePos (cache item) with
  | Some p => (p, item)
  | None =>
      let p := computeNextCurvePos item in
      (p, set_cache (mkCache (stepDistance (cache item)) (nextPos (cache item)) (Some p)) item)
  end.

(** [getNextPos]. *)
Definition getNextPos (item : Item) : (R * R) * Item :=
  match nextPos (cache item) with
  | Some p => (p, item)
  | None =>
      match shotCurve item with
      | None =>
          let p := (pos_x item + cos (course item) * speed item,
                    pos_y item + sin (course item) * speed item) in
          (p, set_cache (mkCache (stepDistance (cache item)) (Some p) (nextCurvePos (cache item))) item)
      | Some _ =>
          let '(p, item1) := getNextCurvePos item in
          (p, set_cache (mkCache (stepDistance (cache item1)) (Some p) (nextCurvePos (cache item1))) item1)
      end
  end.

(** [getCourseToNextPositionOnCurve]. *)
Definition getCourseToNextPositionOnCurve (item : Item) : R * Item :=
  let '(pos, item1) := getNextPos item in
  (getCourse (pos_x item1 + radius item1) (pos_y item1 + radius item1)
             (fst pos + radius item1) (snd pos + radius item1), item1).

(** The part of [getStepDistance] after the cache test. *)
Definition computeStepDistance (item : Item) : R * Item :=
  let '(stepDistance0, item1) :=
    match shotCurve item with
    | None => (speed item, item)
    | Some _ =>
        let '(newpos, item1) := getNextCurvePos item in
        (abcSquare (fst newpos - pos_x item1) (snd newpos - pos_y item1), item1)
    end in
  let v := stepDistance0 * unused item1 in
  (v, set_cache (mkCache (Some v) (nextPos (cache item1)) (nextCurvePos (cache item1))) item1).

(** [getStepDistance]: a cached value is used when it is not [0]. *)
Definition getStepDistance (item : Item) : R * Item :=
  match stepDistance (cache item) with
  | Some v => if truthy v then (v, item) else computeStepDistance item
  | None => computeStepDistance item
  end.

(** ** The world: [this.items] *)

(** Apply a function that returns a result and the mutated item to the item
    at position [i]. *)
Definition withItem {T : Type} (f : Item -> T * Item) (i : nat) (w : list Item)
  : T * list Item :=
  let '(r, item) := f (w !!! i) in (r, <[i := item]> w).

(** Mutate the item at position [i]. *)
Definition modify (f : Item -> Item) (i : nat) (w : list Item) : list Item :=
  <[i := f (w !!! i)]> w.

(** The coefficients [a], [b], [c] of [getDistanceToIntersection]. *)
Definition sweepQuadratic (A B : Item) (stepDistanceA stepDistanceB : R) : R * R * R :=
  let combinedRadius := radius A + radius B in
  let acx := pos_x A + radius A in
  let acy := pos_y A + radius A in
  let bcx := pos_x B + radius B in
  let bcy := pos_y B + radius B in
  let aacx := acx + cos (course A) * stepDistanceA in
  let aacy := acy + sin (course A) * stepDistanceA in
  let bbcx := bcx + cos (course B) * stepDistanceB in
  let bbcy := bcy + sin (course B) * stepDistanceB in
  let dx := (aacx - acx) - (bbcx - bcx) in
  let dy := (aacy - acy) - (bbcy - bcy) in
  let fx := acx - bcx in
  let fy := acy - bcy in
  let a := dx * dx + dy * dy in
  let b := 2 * (fx * dx + fy * dy) in
  let c := (fx * fx + fy * fy) - combinedRadius * combinedRadius in
  (a, b, c).

(** The locals [discriminant], [t1] and [t2] of [getDistanceToIntersection]. *)
Definition sweepDiscriminant (a b c : R) : R := b * b - 4 * a * c.

Definition sweepT1 (a b c : R) : R := (- b + sqrt (sweepDiscriminant a b c)) / (2 * a).

Definition sweepT2 (a b c : R) : R := (- b - sqrt (sweepDiscriminant a b c)) / (2 * a).

(** The end of [getDistanceToIntersection], from the discriminant on. *)
Definition sweepDistance (a b c stepDistanceA : R) : R :=
  if decide (sweepDiscriminant a b c <= 0) then -1
  else
    let t1 := sweepT1 a b c in
    let t2 := sweepT2 a b c in
    if decide ((t1 < 0 \/ t1 > 1) /\ (t2 < 0 \/ t2 > 1)) then -1
    else
      let t := if decide (t1 < t2 /\ t1 >= 0) then t1 else t2 in
      t * stepDistanceA.

(** [getDistanceToIntersection]: the two calls of [getStepDistance] may write
    the caches of [A] and [B]. *)
Definition getDistanceToIntersection (w : list Item) (A B : nat) : R * list Item :=
  let '(stepDistanceA, w1) := withItem getStepDistance A w in
  let '(stepDistanceB, w2) := withItem getStepDistance B w1 in
  let '(a, b, c) := sweepQuadratic (w2 !!! A) (w2 !!! B) stepDistanceA stepDistanceB in
  (sweepDistance a b c stepDistanceA, w2).

(** [getClosestItemAfterMove]: the first item of the array, other than [A]
    and [B], nearer to the warped centre of [A] than the combined radius of
    [A] and [B]; [B] when there is none. *)
Definition getClosestItemAfterMove (w : list Item) (A B : nat) (distance : R) : nat :=
  let warpAx := pos_x (w !!! A) + radius (w !!! A) + cos (course (w !!! A)) * distance in
  let warpAy := pos_y (w !!! A) + radius (w !!! A) + sin (course (w !!! A)) * distance in
  let distanceToB := radius (w !!! A) + radius (w !!! B) in
  let nearer (i : nat) : bool :=
    negb (i =? A)%nat && negb (i =? B)%nat &&
    bool_decide (abcSquare (warpAx - (pos_x (w !!! i) + radius (w !!! i)))
                           (warpAy - (pos_y (w !!! i) + radius (w !!! i))) < distanceToB) in
  match find nearer (seq 0 (length w)) with
  | Some item => item
  | None => B
  end.

(** [updateForCollision], first part: the curves are switched off and the
    two items are moved to the contact; [A] is put back to 95% of its way when
    the centres are then nearer than the combined radius. *)
Definition moveToContact (w : list Item) (A B : nat)
    (distanceToCollisionA distanceToCollisionB : R) : list Item :=
  let w := modify (set_shotCurve None) A w in
  let w := modify (set_shotCurve None) B w in
  let x := pos_x (w !!! A) in
  let y := pos_y (w !!! A) in
  let w := modify (fun a => setPos (pos_x a + cos (course a) * distanceToCollisionA)
                                   (pos_y a + sin (course a) * distanceToCollisionA) a) A w in
  let w := modify (fun b => setPos (pos_x b + cos (course b) * distanceToCollisionB)
                                   (pos_y b + sin (course b) * distanceToCollisionB) b) B w in
  if decide (distanceBetween (w !!! A) (w !!! B) < radius (w !!! A) + radius (w !!! B))
  then modify (fun a => setPos (x + cos (course a) * distanceToCollisionA * (95 / 100))
                               (y + sin (course a) * distanceToCollisionA * (95 / 100)) a) A w
  else w.

(** [updateForCollision], second part: the two assignments to [unused]. *)
Definition consumeStep (w : list Item) (A B : nat)
    (distanceToCollisionA stepDistanceA distanceToCollisionB stepDistanceB : R)
  : list Item :=
  let w := modify (fun a => set_unused (unused a * (distanceToCollisionA / stepDistanceA)) a) A w in
  if truthy stepDistanceB
  then modify (fun b => set_unused (unused b * (distanceToCollisionB / stepDistanceB)) b) B w
  else w.

(** [updateForCollision], last part: the new courses and speeds. *)
Definition deflect (w : list Item) (A B : nat) : list Item :=
  let abCourse := getCourse (pos_x (w !!! A)) (pos_y (w !!! A))
                            (pos_x (w !!! B)) (pos_y (w !!! B)) in
  let tangentCourse := abCourse - PI / 2 in
  let relAngle := angleBetween (course (w !!! A)) abCourse in
  let w :=
    if decide (relAngle > 0) then modify (set_course tangentCourse) A w
    else modify (set_course (tangentCourse - PI)) A w in
  let w := modify (set_course abCourse) B w in
  let F := (speed (w !!! A) * power (w !!! A)) / power (w !!! B) in
  let w := modify (fun a => set_speed (speed a * Rabs relAngle) a) A w in
  modify (set_speed (F * (1 - Rabs relAngle))) B w.

(** [updateForCollision]. *)
Definition updateForCollision (w : list Item) (A B : nat) (distanceToCollisionA : R)
  : list Item :=
  let '(stepDistanceA, w) := withItem getStepDistance A w in
  let '(stepDistanceB, w) := withItem getStepDistance B w in
  let '(distanceToCollisionB, w) := getDistanceToIntersection w B A in
  let w := moveToContact w A B distanceToCollisionA distanceToCollisionB in
  let w := consumeStep w A B distanceToCollisionA stepDistanceA
                       distanceToCollisionB stepDistanceB in
  deflect w A B.

(** [updateIfColliding].  [_attempt] is [0] when the caller leaves it out.
    The recursion of the source is bounded here by [fuel]; [None] means the
    fuel ran out. *)
Fixpoint updateIfColliding (fuel : nat) (w : list Item) (item1 item2 _attempt : nat)
  : option (bool * list Item) :=
  match fuel with
  | O => None
  | S fuel' =>
      let _attempt := if (_attempt =? 0)%nat then 1%nat else _attempt in
      let A := if decide (speed (w !!! item1) >= speed (w !!! item2)) then item1 else item2 in
      let B := if (A =? item1)%nat then item2 else item1 in
      let '(distanceToCollision, w1) := getDistanceToIntersection w A B in
      if decide (distanceToCollision > 0) then
        let item := getClosestItemAfterMove w1 A B distanceToCollision in
        if negb (item =? B)%nat && (_attempt <? 20)%nat then
          match updateIfColliding fuel' w1 A item (_attempt + 1) with
          | Some (_, w2) => Some (true, w2)
          | None => None
          end
        else Some (true, updateForCollision w1 A B distanceToCollision)
      else Some (false, w1)
  end.

(** The comparator of [orderByDistance]. *)
Definition compareDistance (w : list Item) (source a b : nat) : Z :=
  let pa := distanceBetween (w !!! source) (w !!! a) in
  let pb := distanceBetween (w !!! source) (w !!! b) in
  if decide (pa < pb) then (-1)%Z
  else if decide (pa > pb) then 1%Z
  else 0%Z.

(** [Array.prototype.sort] with a comparator, as a stable insertion sort:
    an element moves past the elements the comparator puts before it. *)
Fixpoint insertBy (cmp : nat -> nat -> Z) (x : nat) (l : list nat) : list nat :=
  match l with
  | [] => [x]
  | y :: l' => if (0 <? cmp x y)%Z then y :: insertBy cmp x l' else x :: l
  end.

Fixpoint sortBy (cmp : nat -> nat -> Z) (l : list nat) : list nat :=
  match l with
  | [] => []
  | x :: l' => insertBy cmp x (sortBy cmp l')
  end.

(** [orderByDistance]. *)
Definition orderByDistance (w : list Item) (arr : list nat) (source : nat) : list nat :=
  sortBy (compareDistance w source) arr.

(** The [for] loop of [collisionStep] over [ordered[1]], [ordered[2]], ... *)
Fixpoint testOrdered (w : list Item) (item : nat) (rest : list nat)
  : option (bool * list Item) :=
  match rest with
  | [] => Some (false, w)
  | other :: rest' =>
      match updateIfColliding 20 w item other 0 with
      | None => None
      | Some (true, w1) => Some (true, w1)
      | Some (false, w1) => testOrdered w1 item rest'
      end
  end.

(** The [some] loop of [collisionStep] over the positions [todo]. *)
Fixpoint collisionStepFrom (w : list Item) (todo : list nat) : option (bool * list Item) :=
  match todo with
  | [] => Some (false, w)
  | item :: todo' =>
      if truthy (speed (w !!! item)) && truthy (unused (w !!! item)) then
        let ordered := orderByDistance w (seq 0 (length w)) item in
        match testOrdered w item (drop 1 ordered) with
        | None => None
        | Some (true, w1) => Some (true, w1)
        | Some (false, w1) => collisionStepFrom w1 todo'
        end
      else collisionStepFrom w todo'
  end.

(** [collisionStep]. *)
Definition collisionStep (w : list Item) : option (bool * list Item) :=
  collisionStepFrom w (seq 0 (length w)).

(** [resetItems]. *)
Definition resetItems (w : list Item) : list Item := map (set_unused 1) w.

(** The body of the [forEach] of [applyPhysics] for one item. *)
Definition applyPhysicsItem (item : Item) : Item :=
  if truthy (speed item) && truthy (unused item) then
    let item1 :=
      match shotCurve item with
      | Some _ =>
          let '(obj, item1) := getNextCurvePos item in
          setPos (fst obj) (snd obj) item1
      | None =>
          setPos (pos_x item + cos (course item) * speed item * unused item)
                 (pos_y item + sin (course item) * speed item * unused item) item
      end in
    let item2 := set_shotTraveled (shotTraveled item1 + speed item1) item1 in
    let item3 :=
      match shotCurve item2 with
      | Some _ =>
          let '(newCourse, item3) := getCourseToNextPositionOnCurve item2 in
          set_course newCourse item3
      | None => item2
      end in
    let item4 := set_speed (speed item3 * friction item3) item3 in
    let item5 := if decide (speed item4 < stopSpeed config) then set_speed 0 item4 else item4 in
    set_unused 0 item5
  else item.

(** [applyPhysics]: the items after the [forEach] and [movingStones]. *)
Fixpoint applyPhysics (w : list Item) : bool * list Item :=
  match w with
  | [] => (false, [])
  | item :: rest =>
      let item' := applyPhysicsItem item in
      let '(movingStones, rest') := applyPhysics rest in
      (truthy (speed item') || movingStones, item' :: rest')
  end.

(** The engine object. *)
Record Physics := mkPhysics { items : list Item; lastFinished : bool }.

(** How the [do ... while] loop of [tick] ends: by the early [return true]
    of the step mode, or by leaving the loop with the counters
    [loopBreaker] and [collisions]. *)
Inductive LoopEnd :=
| Paused (w : list Item)
| Finished (w : list Item) (loopBreaker collisions : nat).

(** The [do ... while] loop of [tick]; [fuel] bounds the number of passes
    and [None] means it ran out. *)
Fixpoint collisionPasses (fuel : nat) (w : list Item) (loopBreaker collisions : nat)
  : option LoopEnd :=
  match fuel with
  | O => None
  | S fuel' =>
      match collisionStep w with
      | None => None
      | Some (thisTime, w1) =>
          if stepCollisions config && thisTime then Some (Paused w1)
          else
            let collisions := (collisions + (if thisTime then 1 else 0))%nat in
            if thisTime then
              let loopBreaker := S loopBreaker in
              if (loopBreaker <? 10)%nat then collisionPasses fuel' w1 loopBreaker collisions
              else Some (Finished w1 loopBreaker collisions)
            else Some (Finished w1 loopBreaker collisions)
      end
  end.

(** [tick]. *)
Definition tick (p : Physics) : option (bool * Physics) :=
  let w := if negb (stepCollisions config) || lastFinished p
           then resetItems (items p) else items p in
  match collisionPasses 10 w 0 0 with
  | None => None
  | Some (Paused w1) => Some (true, mkPhysics w1 false)
  | Some (Finished w1 _ _) =>
      let '(movingStones, w2) := applyPhysics w1 in
      Some (movingStones, mkPhysics w2 true)
  end.

(** [push]; the recording and drawing branches are off in [config]. *)
Definition push (w : list Item) (item : nat) (course0 speed0 curve : R) : list Item :=
  if decide (speed0 = 0) then w
  else
    let speed1 := Rmin speed0 (maxSpeed config) in
    let distance := distanceToTravel speed1 (friction (w !!! item)) in
    let w := modify (set_speed speed1) item w in
    let w := modify (fun i => set_shot (course0 + curve * (PI / 2)) (Some curve)
                                       (pos_x i) (pos_y i) 0 distance i) item w in
    let '(newCourse, w) := withItem getCourseToNextPositionOnCurve item w in
    modify (set_course newCourse) item w.

(** The test of [collisionCheck] on a pair. *)
Definition phased (A B : Item) : bool :=
  bool_decide (abcSquare (pos_x A - pos_x B) (pos_y A - pos_y B) < radius A + radius B).

(** The inner [for] loop of [collisionCheck] for the item [A]. *)
Fixpoint collisionCheckInner (w : list Item) (A : nat) (js : list nat)
  : bool * list Item :=
  match js with
  | [] => (false, w)
  | B :: js' =>
      if phased (w !!! A) (w !!! B) then
        let abCourse := getCourse (pos_x (w !!! A)) (pos_y (w !!! A))
                                  (pos_x (w !!! B)) (pos_y (w !!! B)) in
        let tangentCourse := abCourse - PI / 2 in
        let relAngle := angleBetween (course (w !!! A)) abCourse in
        let w :=
          if decide (relAngle > 0) then modify (set_course tangentCourse) A w
          else modify (set_course (tangentCourse - PI)) A w in
        (true, modify (set_course abCourse) B w)
      else collisionCheckInner w A js'
  end.

(** The [some] loop of [collisionCheck]. *)
Fixpoint collisionCheckFrom (w : list Item) (todo : list nat) : list Item :=
  match todo with
  | [] => w
  | i :: todo' =>
      if disabled (w !!! i) then collisionCheckFrom w todo'
      else
        let '(found, w1) :=
          collisionCheckInner w i (seq (S i) (length w - S i)) in
        if found then w1 else collisionCheckFrom w1 todo'
  end.

(** [collisionCheck]. *)
Definition collisionCheck (w : list Item) : list Item :=
  collisionCheckFrom w (seq 0 (length w)).

(** ** Util math: two segments *)

(** [lineIntersection]: [None] is [null].  [by'] is the parameter [by] of
    the source. *)
Definition lineIntersection (ax ay aax aay bx by' bbx bby : R) : option (R * R) :=
  let sax := aax - ax in
  let say := aay - ay in
  let sbx := bbx - bx in
  let sby := bby - by' in
  let s := (- say * (ax - bx) + sax * (ay - by')) / (- sbx * say + sax * sby) in
  let t := (sbx * (ay - by') - sby * (ax - bx)) / (- sbx * say + sax * sby) in
  if decide (s >= 0 /\ s <= 1 /\ t >= 0 /\ t <= 1) then
    let x := ax + t * sax in
    let y := ay + t * say in
    Some (x, y)
  else None.

(** ** The registry of items *)

(** [addItem], [removeItem], [replaceItems] and [destroy] are about the
    identity of the items and of the array that holds them.  An item is
    known to them by its reference and an array by its address in a store
    of arrays.  The array [items] of [Physics.prototype] is at the address
    [protoItems]; an engine reads it as long as no assignment has given it a
    property [items] of its own. *)
Definition Ref := nat.
Definition Addr := nat.

Definition protoItems : Addr := 0%nat.

(** An engine object: its own property [items] when it has one; [null] is
    [None]. *)
Record Engine := mkEngine { ownItems : option (option Addr) }.

(** [new Physics()]: the constructor assigns nothing. *)
Definition newEngine : Engine := mkEngine None.

(** [this.items]. *)
Definition itemsOf (e : Engine) : option Addr :=
  match ownItems e with
  | Some v => v
  | None => Some protoItems
  end.

(** [this.items] with the elements of the array; [None] when there is no
    array to read: [this.items] is [null] and reading one of its properties
    throws. *)
Definition itemsArray (s : gmap Addr (list Ref)) (e : Engine)
  : option (Addr * list Ref) :=
  match itemsOf e with
  | Some a => match s !! a with Some l => Some (a, l) | None => None end
  | None => None
  end.

(** [Array.prototype.indexOf]. *)
Fixpoint indexOf (l : list Ref) (item : Ref) : Z :=
  match l with
  | [] => (-1)%Z
  | x :: l' =>
      if decide (x = item) then 0%Z
      else let i := indexOf l' item in
           if decide (i < 0)%Z then (-1)%Z else (i + 1)%Z
  end.

(** [addItem]; the warning is not modelled. *)
Definition addItem (s : gmap Addr (list Ref)) (e : Engine) (item : Ref)
  : option (gmap Addr (list Ref)) :=
  match itemsArray s e with
  | Some (a, l) =>
      Some (if decide (indexOf l item >= 0)%Z then s else <[a := l ++ [item]]> s)
  | None => None
  end.

(** [removeItem]: [splice(pos, 1)]. *)
Definition removeItem (s : gmap Addr (list Ref)) (e : Engine) (item : Ref)
  : option (gmap Addr (list Ref)) :=
  match itemsArray s e with
  | Some (a, l) =>
      let pos := indexOf l item in
      Some (if decide (pos < 0)%Z then s else <[a := delete (Z.to_nat pos) l]> s)
  | None => None
  end.

(** [replaceItems]: the array the engine held is emptied, then the engine
    gets [arr] as its own [items]. *)
Definition replaceItems (s : gmap Addr (list Ref)) (e : Engine) (arr : Addr)
  : option (gmap Addr (list Ref) * Engine) :=
  match itemsArray s e with
  | Some (a, _) => Some (<[a := []]> s, mkEngine (Some (Some arr)))
  | None => None
  end.

(** [destroy]. *)
Definition destroy (s : gmap Addr (list Ref)) (e : Engine)
  : option (gmap Addr (list Ref) * Engine) :=
  match itemsArray s e with
  | Some (a, _) => Some (<[a := []]> s, mkEngine (Some None))
  | None => None
  end.

(** ** Definitions used to state and prove the properties *)

(** The squared distance between the centres of [A] and [B], less the square
    of the combined radius, after the fraction [t] of their steps. *)
Definition sweepGap (A B : Item) (stepDistanceA stepDistanceB t : R) : R :=
  ((pos_x A + radius A + t * (cos (course A) * stepDistanceA))
   - (pos_x B + radius B + t * (cos (course B) * stepDistanceB))) ^ 2
  + ((pos_y A + radius A + t * (sin (course A) * stepDistanceA))
     - (pos_y B + radius B + t * (sin (course B) * stepDistanceB))) ^ 2
  - (radius A + radius B) ^ 2.

(** The world [w] with [a] written at position [A] and [b] at [B]. *)
Definition put2 (w : list Item) (A : nat) (a : Item) (B : nat) (b : Item) : list Item :=
  <[B := b]> (<[A := a]> w).

(** [getDistanceToIntersection] on a pair of items. *)
Definition intersectPair (a b : Item) : R * Item * Item :=
  let '(stepDistanceA, a1) := getStepDistance a in
  let '(stepDistanceB, b1) := getStepDistance b in
  let '(qa, qb, qc) := sweepQuadratic a1 b1 stepDistanceA stepDistanceB in
  (sweepDistance qa qb qc stepDistanceA, a1, b1).

(** The parts of [updateForCollision] on a pair of items. *)
Definition moveToContactPair (a b : Item) (dA dB : R) : Item * Item :=
  let a := set_shotCurve None a in
  let b := set_shotCurve None b in
  let x := pos_x a in
  let y := pos_y a in
  let a := setPos (pos_x a + cos (course a) * dA) (pos_y a + sin (course a) * dA) a in
  let b := setPos (pos_x b + cos (course b) * dB) (pos_y b + sin (course b) * dB) b in
  if decide (distanceBetween a b < radius a + radius b)
  then (setPos (x + cos (course a) * dA * (95 / 100))
               (y + sin (course a) * dA * (95 / 100)) a, b)
  else (a, b).

Definition consumeStepPair (a b : Item) (dA sA dB sB : R) : Item * Item :=
  (set_unused (unused a * (dA / sA)) a,
   if truthy sB then set_unused (unused b * (dB / sB)) b else b).

Definition deflectPair (a b : Item) : Item * Item :=
  let abCourse := getCourse (pos_x a) (pos_y a) (pos_x b) (pos_y b) in
  let relAngle := angleBetween (course a) abCourse in
  let F := (speed a * power a) / power b in
  (set_speed (speed a * Rabs relAngle)
     (set_course (if decide (relAngle > 0) then abCourse - PI / 2
                  else abCourse - PI / 2 - PI) a),
   set_speed (F * (1 - Rabs relAngle)) (set_course abCourse b)).

Definition collidePair (a b : Item) (dA : R) : Item * Item :=
  let '(sA, a1) := getStepDistance a in
  let '(sB, b1) := getStepDistance b in
  let '(dB, b2, a2) := intersectPair b1 a1 in
  let '(a3, b3) := moveToContactPair a2 b2 dA dB in
  let '(a4, b4) := consumeStepPair a3 b3 dA sA dB sB in
  deflectPair a4 b4.

(** ** Example worlds *)

(** An item of power [1] at [(x, y)] gliding on a straight course, as it is
    in the middle of a tick. *)
Definition gliding (x y r sp co : R) : Item :=
  set_unused 1 (set_course co (set_speed sp (newItem x y r 1))).

(** A fast item that crosses the whole of a resting one within its step. *)
Definition crossingWorld : list Item :=
  [gliding (-1) (-1) 1 40 0; gliding 9 (-1) 1 0 0].

(** A shot pushed straight ([curve = 0]) from the origin, before its first
    tick. *)
Definition straightShot : Item :=
  set_shot 0 (Some 0) 0 0 0 100 (gliding 0 0 20 10 0).

(** The iterative simulation the closed form of [distanceToTravel] is
    compared with: as long as the speed is not under [stopSpeed], add it to
    the sum (the item moves by it), then multiply it by the friction.
    [fuel] bounds the number of steps; [None] means it ran out. *)
Fixpoint simulateDistance (fuel : nat) (speed0 friction0 : R) : option R :=
  match fuel with
  | O => None
  | S fuel' =>
      if decide (speed0 < stopSpeed config) then Some 0
      else
        match simulateDistance fuel' (speed0 * friction0) friction0 with
        | Some d => Some (speed0 + d)
        | None => None
        end
  end.

(** The same simulation in the other order: multiply the speed by the
    friction, add it, and stop once it is under [stopSpeed]. *)
Fixpoint simulateDecayFirst (fuel : nat) (speed0 friction0 : R) : option R :=
  match fuel with
  | O => None
  | S fuel' =>
      let speed1 := speed0 * friction0 in
      if decide (speed1 < stopSpeed config) then Some speed1
      else
        match simulateDecayFirst fuel' speed1 friction0 with
        | Some d => Some (speed1 + d)
        | None => None
        end
  end.

(** Two numbers agree within the relative error [eps]. *)
Definition withinRelativeError (eps value reference : R) : Prop :=
  Rabs (value - reference) <= eps * Rabs reference.

(** Two resting items. *)
Definition restingWorld : Physics :=
  mkPhysics [newItem 0 0 20 1; newItem 100 0 20 1] true.

(** [a] is not farther from [source] than [b]. *)
Definition notFarther (w : list Item) (source a b : nat) : Prop :=
  distanceBetween (w !!! source) (w !!! a) <= distanceBetween (w !!! source) (w !!! b).

(** [misses w item tested w']: the collision tests of [item] against the
    items of [tested], made one after the other from the world [w], all find
    no collision and leave the world [w']. *)
Inductive misses : list Item -> nat -> list nat -> list Item -> Prop :=
| misses_nil (w : list Item) (item : nat) : misses w item [] w
| misses_cons (w w1 w2 : list Item) (item other : nat) (tested : list nat) :
    updateIfColliding 20 w item other 0 = Some (false, w1) ->
    misses w1 item tested w2 ->
    misses w item (other :: tested) w2.

(** A moving item registered second, with three resting items at the
    distances 15, 5 and 10 from it. *)
Definition scatteredWorld : list Item :=
  [gliding (-16) (-1) 1 0 0; gliding (-1) (-1) 1 10 0;
   gliding 4 (-1) 1 0 0; gliding (-1) 9 1 0 0].

(** The assumptions on an item: its speed is not negative, its power is
    positive, and a step distance kept in its cache is not negative. *)
Definition sound (it : Item) : Prop :=
  0 <= speed it /\ 0 < power it /\
  (forall v, stepDistance (cache it) = Some v -> 0 <= v).

(** The remaining budget [unused] of an item is in [0, 1]. *)
Definition budgeted (it : Item) : Prop := 0 <= unused it <= 1.

(** The invariant of an item during a tick. *)
Definition itemOK (it : Item) : Prop := sound it /\ budgeted it.

(** A cache that holds at most a step distance. *)
Definition cached (filled : bool) (s : R) : Cache :=
  mkCache (if filled then Some s else None) None None.

(** Three items of radius 1.  [A] glides at the speed 8 towards the
    resting item [B] and would touch it after 6 units; [C] lies beside the
    place of that contact and glides away from the path of [A] at the speed
    8.  No two of them overlap.  The three flags tell whose cache holds its
    step distance. *)
Definition tunnelWorld (kA kB kC : bool) : list Item :=
  [set_cache (cached kA (8 * 1)) (gliding (-1) (-1) 1 8 0);
   set_cache (cached kB (0 * 1)) (gliding 7 (-1) 1 0 0);
   set_cache (cached kC (8 * 1)) (gliding 5 (3 / 4) 1 8 (PI / 2))].

(** The centres of two items are nearer than the sum of their radii. *)
Definition overlapping (a b : Item) : Prop :=
  distanceBetween a b < radius a + radius b.

(** The items [A] and [C] of [tunnelWorld] after a tick that moved them by
    their whole steps. *)
Definition tunnelA_after : Item :=
  {| shotCourse := 0; shotCurve := None; shotOriginX := 0; shotOriginY := 0;
     shotDistance := 0; shotTraveled := 8;
     pos_x := 7; pos_y := -1; speed := 36 / 5; course := 0; radius := 1; power := 1;
     disabled := false; unused := 0; friction := 9 / 10; cache := emptyCache |}.

Definition tunnelC_after : Item :=
  {| shotCourse := 0; shotCurve := None; shotOriginX := 0; shotOriginY := 0;
     shotDistance := 0; shotTraveled := 8;
     pos_x := 5; pos_y := 35 / 4; speed := 36 / 5; course := PI / 2; radius := 1;
     power := 1; disabled := false; unused := 0; friction := 9 / 10;
     cache := emptyCache |}.

(** A small item glides into a larger resting one whose centre is off its
    path; their positions (the corners of their bounding boxes) are level. *)
Definition offCentreWorld (kA kB : bool) : list Item :=
  [set_cache (cached kA (10 * 1)) (gliding 0 0 4 10 0);
   set_cache (cached kB (0 * 1)) (gliding 12 0 9 0 0)].

(** The bearing of the line from the centre of [a] to the centre of [b]. *)
Definition centreLineCourse (a b : Item) : R :=
  getCourse (pos_x a + radius a) (pos_y a + radius a)
            (pos_x b + radius b) (pos_y b + radius b).

(** The items of [w'] are where the items of [w] are, with the same radii. *)
Definition samePlace (w' w : list Item) : Prop :=
  forall k, pos_x (w' !!! k) = pos_x (w !!! k) /\
            pos_y (w' !!! k) = pos_y (w !!! k) /\
            radius (w' !!! k) = radius (w !!! k).

(** The centre of an item. *)
Definition centre (a : Item) : R * R := (pos_x a + radius a, pos_y a + radius a).

(** The point at the fraction [t] of the way from [(px, py)] to [(qx, qy)]. *)
Definition along (px py qx qy t : R) : R * R :=
  (px + t * (qx - px), py + t * (qy - py)).

(** The two segments are not parallel. *)
Definition crossing (ax ay aax aay bx by' bbx bby : R) : Prop :=
  - (bbx - bx) * (aay - ay) + (aax - ax) * (bby - by') <> 0.

(** [w'] holds the items of [w] with other caches. *)
Definition sameBodies (w w' : list Item) : Prop :=
  Forall2 (fun it it' => exists c, it' = set_cache c it) w w'.

(** Two overlapping items, the first one moving. *)
Definition overlapWorld : list Item :=
  [gliding 0 0 1 5 0; gliding 1 0 1 0 0].

(** An item that glides away from a resting one. *)
Definition recedingWorld : list Item :=
  [gliding 10 0 1 5 0; gliding 0 0 1 0 0].

(** The speed of an item after its friction is applied. *)
Definition slowDown (v f : R) : R :=
  if decide (v * f < stopSpeed config) then 0 else v * f.

(** A single item that glides on a straight course. *)
Definition loneGlider : Physics := mkPhysics [gliding 0 0 1 5 0] true.

(** [n] ticks in a row; the values [tick] returns are dropped. *)
Fixpoint ticks (n : nat) (p : Physics) : option Physics :=
  match n with
  | O => Some p
  | S n' =>
      match tick p with
      | Some (_, p') => ticks n' p'
      | None => None
      end
  end.

(** What [push] does to the item it is given. *)
Definition pushed (it : Item) (course0 speed0 curve : R) : Item :=
  let speed1 := Rmin speed0 (maxSpeed config) in
  let it1 := set_shot (course0 + curve * (PI / 2)) (Some curve) (pos_x it) (pos_y it) 0
               (distanceToTravel speed1 (friction it)) (set_speed speed1 it) in
  let r := getCourseToNextPositionOnCurve it1 in
  set_course r.1 r.2.

(** A shot curved to the left, half way. *)
Definition curvedShot : Item :=
  set_shot 0 (Some 1) 0 0 40 100 (gliding 0 0 20 10 0).

(** The courses [collisionCheck] gives to a pair it finds overlapping. *)
Definition turnApart (w : list Item) (A B : nat) : list Item :=
  let abCourse := getCourse (pos_x (w !!! A)) (pos_y (w !!! A))
                            (pos_x (w !!! B)) (pos_y (w !!! B)) in
  let relAngle := angleBetween (course (w !!! A)) abCourse in
  modify (set_course abCourse) B
    (modify (set_course (if decide (relAngle > 0) then abCourse - PI / 2
                         else abCourse - PI / 2 - PI)) A w).


(** A step distance kept in the cache of the item is [0] or the one its
    speed and [unused] give on a straight course. *)
Definition coherent (it : Item) : Prop :=
  forall v, stepDistance (cache it) = Some v -> v = 0 \/ v = speed it * unused it.

(** An item on a straight course, with a cache that can be relied on. *)
Definition straightItem (it : Item) : Prop :=
  itemOK it /\ shotCurve it = None /\ coherent it.

(** The attributes of an item that a tick has no business to change. *)
Definition static (it : Item) : R * R * R * bool * (R * R * R * R) :=
  (radius it, power it, friction it, disabled it,
   (shotCourse it, shotOriginX it, shotOriginY it, shotDistance it)).

(** A store with the array of the prototype, empty as in the source. *)
Definition freshStore : gmap Addr (list Ref) := {[ protoItems := [] ]}.

(** * Properties *)

(** ** Numbers *)

Lemma sqrt_eq (x y : R) : 0 <= y -> y * y = x -> sqrt x = y.
Proof. intros Hy <-. by apply sqrt_square. Qed.

Lemma abcSquare_sqrt (a b : R) : abcSquare a b = sqrt (a ^ 2 + b ^ 2).
Proof. unfold abcSquare. apply Rabs_pos_eq, sqrt_pos. Qed.

Lemma abcSquare_nonneg (a b : R) : 0 <= abcSquare a b.
Proof. unfold abcSquare. apply Rabs_pos. Qed.

Lemma abcSquare_eq (a b r : R) : 0 <= r -> a ^ 2 + b ^ 2 = r * r -> abcSquare a b = r.
Proof. intros Hr H. rewrite abcSquare_sqrt. by apply sqrt_eq. Qed.

Lemma abcSquare_lt (a b r : R) : 0 <= r -> a ^ 2 + b ^ 2 < r * r -> abcSquare a b < r.
Proof.
  intros Hr H. rewrite abcSquare_sqrt.
  rewrite <- (sqrt_square r) by done.
  apply sqrt_lt_1_alt. split; [nra | done].
Qed.

Lemma abcSquare_ge (a b r : R) : 0 <= r -> r * r <= a ^ 2 + b ^ 2 -> r <= abcSquare a b.
Proof.
  intros Hr H. rewrite abcSquare_sqrt.
  rewrite <- (sqrt_square r) at 1 by done.
  by apply sqrt_le_1_alt.
Qed.

Lemma truthy_true (v : R) : v <> 0 -> truthy v = true.
Proof. intros H. unfold truthy. by apply bool_decide_eq_true. Qed.

Lemma truthy_false (v : R) : v = 0 -> truthy v = false.
Proof. intros H. unfold truthy. apply bool_decide_eq_false. tauto. Qed.

(** ** The sweep test: [getDistanceToIntersection] *)

Lemma sweepQuadratic_gap (A B : Item) (sA sB t : R) :
  let q := sweepQuadratic A B sA sB in
  q.1.1 * t ^ 2 + q.1.2 * t + q.2 = sweepGap A B sA sB t.
Proof. unfold sweepQuadratic, sweepGap. simpl. ring. Qed.

(** The coefficients do not depend on which of the two items is called [A]. *)
Lemma sweepQuadratic_sym (A B : Item) (sA sB : R) :
  sweepQuadratic B A sB sA = sweepQuadratic A B sA sB.
Proof. unfold sweepQuadratic. f_equal; [f_equal|]; ring. Qed.

(** The coefficients do not read the caches. *)
Lemma sweepQuadratic_cache (A B : Item) (cA cB : Cache) (sA sB : R) :
  sweepQuadratic (set_cache cA A) (set_cache cB B) sA sB = sweepQuadratic A B sA sB.
Proof. done. Qed.

(** A positive discriminant needs a relative displacement. *)
Lemma discriminant_pos_leading (dx dy fx fy c : R) :
  0 < sweepDiscriminant (dx * dx + dy * dy) (2 * (fx * dx + fy * dy)) c ->
  0 < dx * dx + dy * dy.
Proof.
  unfold sweepDiscriminant. intros H.
  destruct (Rle_lt_dec (dx * dx + dy * dy) 0) as [Hle|]; [|done].
  assert (dx = 0) by nra. assert (dy = 0) by nra. subst dx dy.
  exfalso. nra.
Qed.

Lemma sweepQuadratic_a_pos (A B : Item) (sA sB : R) :
  let q := sweepQuadratic A B sA sB in
  0 < sweepDiscriminant q.1.1 q.1.2 q.2 -> 0 < q.1.1.
Proof. unfold sweepQuadratic. simpl. apply discriminant_pos_leading. Qed.

Lemma sweepQuadratic_a_nonneg (A B : Item) (sA sB : R) :
  0 <= (sweepQuadratic A B sA sB).1.1.
Proof. unfold sweepQuadratic. simpl. apply Rplus_le_le_0_compat; apply Rle_0_sqr. Qed.

Lemma sweepT_order (a b c : R) : 0 < a -> sweepT2 a b c <= sweepT1 a b c.
Proof.
  intros Ha. unfold sweepT1, sweepT2.
  pose proof (sqrt_pos (sweepDiscriminant a b c)).
  apply Rmult_le_compat_r; [|lra].
  apply Rlt_le, Rinv_0_lt_compat. lra.
Qed.

Lemma quadratic_root (a b c s t : R) :
  a <> 0 -> s * s = b * b - 4 * a * c -> 2 * a * t = - b + s ->
  a * t ^ 2 + b * t + c = 0.
Proof.
  intros Ha Hs Ht.
  apply (Rmult_eq_reg_l (4 * a)); [|lra].
  replace (4 * a * (a * t ^ 2 + b * t + c))
    with ((2 * a * t) ^ 2 + 2 * b * (2 * a * t) + 4 * a * c) by ring.
  rewrite Ht. nra.
Qed.

Lemma sweepT1_root (a b c : R) :
  a <> 0 -> 0 <= sweepDiscriminant a b c ->
  a * sweepT1 a b c ^ 2 + b * sweepT1 a b c + c = 0.
Proof.
  intros Ha Hd.
  apply (quadratic_root a b c (sqrt (sweepDiscriminant a b c))); [done| |].
  - by rewrite sqrt_sqrt.
  - unfold sweepT1. by field.
Qed.

Lemma sweepT2_root (a b c : R) :
  a <> 0 -> 0 <= sweepDiscriminant a b c ->
  a * sweepT2 a b c ^ 2 + b * sweepT2 a b c + c = 0.
Proof.
  intros Ha Hd.
  apply (quadratic_root a b c (- sqrt (sweepDiscriminant a b c))); [done| |].
  - rewrite Rmult_opp_opp. by rewrite sqrt_sqrt.
  - unfold sweepT2. by field.
Qed.

Lemma sweepDistance_no_root (a b c s : R) :
  sweepDiscriminant a b c <= 0 -> sweepDistance a b c s = -1.
Proof. intros H. unfold sweepDistance. by rewrite decide_True. Qed.

Lemma sweepDistance_out_of_range (a b c s : R) :
  (sweepT1 a b c < 0 \/ sweepT1 a b c > 1) ->
  (sweepT2 a b c < 0 \/ sweepT2 a b c > 1) ->
  sweepDistance a b c s = -1.
Proof.
  intros H1 H2. unfold sweepDistance.
  case_decide; [done|]. by rewrite decide_True.
Qed.

Lemma sweepDistance_in_range (a b c s : R) :
  0 < sweepDiscriminant a b c ->
  0 <= sweepT1 a b c <= 1 -> 0 <= sweepT2 a b c <= 1 ->
  sweepDistance a b c s = Rmin (sweepT1 a b c) (sweepT2 a b c) * s.
Proof.
  intros Hd H1 H2. unfold sweepDistance.
  rewrite decide_False by lra.
  rewrite decide_False by lra.
  unfold Rmin. case_decide; destruct (Rle_dec _ _); try lra.
  f_equal. lra.
Qed.

(** ** The cache *)

Lemma set_cache_id (i : Item) : set_cache (cache i) i = i.
Proof. by destruct i. Qed.

(** The functions that fill the cache leave every other field alone. *)
Lemma getNextCurvePos_body (i : Item) : exists c, (getNextCurvePos i).2 = set_cache c i.
Proof.
  unfold getNextCurvePos. destruct (nextCurvePos (cache i)); simpl; [|by eexists].
  exists (cache i). by rewrite set_cache_id.
Qed.

Lemma getNextPos_body (i : Item) : exists c, (getNextPos i).2 = set_cache c i.
Proof.
  unfold getNextPos. destruct (nextPos (cache i)); simpl.
  { exists (cache i). by rewrite set_cache_id. }
  destruct (shotCurve i); simpl; [|by eexists].
  destruct (getNextCurvePos_body i) as [c Hc].
  destruct (getNextCurvePos i) as [p i1]. simpl in *. subst i1. by eexists.
Qed.

Lemma computeStepDistance_body (i : Item) :
  exists c, (computeStepDistance i).2 = set_cache c i /\
            stepDistance c = Some (computeStepDistance i).1.
Proof.
  unfold computeStepDistance. destruct (shotCurve i); simpl; [|by eexists].
  destruct (getNextCurvePos_body i) as [c Hc].
  destruct (getNextCurvePos i) as [p i1]. simpl in *. subst i1. by eexists.
Qed.

Lemma getStepDistance_body (i : Item) : exists c, (getStepDistance i).2 = set_cache c i.
Proof.
  unfold getStepDistance.
  destruct (computeStepDistance_body i) as (c & Hc & _).
  destruct (stepDistance (cache i)) as [v|]; [destruct (truthy v)|]; simpl; eauto.
  exists (cache i). by rewrite set_cache_id.
Qed.

(** A second call of [getStepDistance] returns the same number and writes
    nothing new. *)
Lemma getStepDistance_again (i : Item) :
  getStepDistance (getStepDistance i).2 = getStepDistance i.
Proof.
  destruct i as [sc cv ox oy ds tr px py sp co ra pw di un fr [sd np ncp]].
  unfold getStepDistance, computeStepDistance, getNextCurvePos. simpl.
  destruct sd as [v|]; [destruct (truthy v) eqn:Hv|]; simpl.
  - by rewrite Hv.
  - destruct cv; [destruct ncp|]; unfold set_cache; simpl;
      match goal with |- context [truthy ?x] => destruct (truthy x) end; done.
  - destruct cv; [destruct ncp|]; unfold set_cache; simpl;
      match goal with |- context [truthy ?x] => destruct (truthy x) end; done.
Qed.

(** ** Two distinct items of the world seen as a pair *)

Section Pair.
Context (w : list Item) (A B : nat).
Hypothesis (HAB : A <> B) (HA : (A < length w)%nat) (HB : (B < length w)%nat).

Lemma put2_id : put2 w A (w !!! A) B (w !!! B) = w.
Proof.
  unfold put2.
  rewrite (list_insert_id w A) by by apply list_lookup_lookup_total_lt.
  by apply list_insert_id, list_lookup_lookup_total_lt.
Qed.

Lemma put2_swap (a b : Item) : put2 w B b A a = put2 w A a B b.
Proof. unfold put2. by apply list_insert_insert_ne. Qed.

Lemma length_put2 (a b : Item) : length (put2 w A a B b) = length w.
Proof. unfold put2. by rewrite !length_insert. Qed.

Lemma lookup_put2_A (a b : Item) : put2 w A a B b !!! A = a.
Proof.
  unfold put2. rewrite list_lookup_total_insert_ne by done.
  by apply list_lookup_total_insert_eq.
Qed.

Lemma lookup_put2_B (a b : Item) : put2 w A a B b !!! B = b.
Proof. unfold put2. apply list_lookup_total_insert_eq. by rewrite length_insert. Qed.

Lemma lookup_put2_other (a b : Item) (k : nat) :
  k <> A -> k <> B -> put2 w A a B b !!! k = w !!! k.
Proof. intros. unfold put2. by rewrite !list_lookup_total_insert_ne. Qed.

Lemma modify_put2_A (f : Item -> Item) (a b : Item) :
  modify f A (put2 w A a B b) = put2 w A (f a) B b.
Proof.
  unfold modify. rewrite lookup_put2_A. unfold put2.
  rewrite list_insert_insert_ne by done. by rewrite list_insert_insert_eq.
Qed.

Lemma modify_put2_B (f : Item -> Item) (a b : Item) :
  modify f B (put2 w A a B b) = put2 w A a B (f b).
Proof.
  unfold modify. rewrite lookup_put2_B. unfold put2.
  by rewrite list_insert_insert_eq.
Qed.

Lemma withItem_put2_A {T : Type} (f : Item -> T * Item) (a b : Item) :
  withItem f A (put2 w A a B b) = ((f a).1, put2 w A (f a).2 B b).
Proof.
  unfold withItem. rewrite lookup_put2_A. destruct (f a) as [r a1]. simpl.
  f_equal. unfold put2.
  rewrite list_insert_insert_ne by done. by rewrite list_insert_insert_eq.
Qed.

Lemma withItem_put2_B {T : Type} (f : Item -> T * Item) (a b : Item) :
  withItem f B (put2 w A a B b) = ((f b).1, put2 w A a B (f b).2).
Proof.
  unfold withItem. rewrite lookup_put2_B. destruct (f b) as [r b1]. simpl.
  f_equal. unfold put2. by rewrite list_insert_insert_eq.
Qed.
End Pair.

Section PairOps.
Context (w : list Item) (A B : nat).
Hypothesis (HAB : A <> B) (HA : (A < length w)%nat) (HB : (B < length w)%nat).

Lemma getDistanceToIntersection_put2 (a b : Item) :
  getDistanceToIntersection (put2 w A a B b) A B =
  ((intersectPair a b).1.1, put2 w A (intersectPair a b).1.2 B (intersectPair a b).2).
Proof.
  unfold getDistanceToIntersection, intersectPair.
  rewrite withItem_put2_A by done. destruct (getStepDistance a) as [sA a1]. simpl.
  rewrite withItem_put2_B by done. destruct (getStepDistance b) as [sB b1]. simpl.
  rewrite lookup_put2_A, lookup_put2_B by done.
  by destruct (sweepQuadratic a1 b1 sA sB) as [[qa qb] qc].
Qed.

Lemma getDistanceToIntersection_put2_rev (a b : Item) :
  getDistanceToIntersection (put2 w A a B b) B A =
  ((intersectPair b a).1.1, put2 w A (intersectPair b a).2 B (intersectPair b a).1.2).
Proof.
  unfold getDistanceToIntersection, intersectPair.
  rewrite withItem_put2_B by done. destruct (getStepDistance b) as [sB b1]. simpl.
  rewrite withItem_put2_A by done. destruct (getStepDistance a) as [sA a1]. simpl.
  rewrite lookup_put2_A, lookup_put2_B by done.
  by destruct (sweepQuadratic b1 a1 sB sA) as [[qa qb] qc].
Qed.

Lemma moveToContact_put2 (a b : Item) (dA dB : R) :
  moveToContact (put2 w A a B b) A B dA dB =
  put2 w A (moveToContactPair a b dA dB).1 B (moveToContactPair a b dA dB).2.
Proof.
  unfold moveToContact, moveToContactPair. cbv zeta.
  rewrite modify_put2_A, modify_put2_B, !lookup_put2_A by done.
  rewrite modify_put2_A, modify_put2_B, !lookup_put2_A, !lookup_put2_B by done.
  case_decide; [|done]. by rewrite modify_put2_A.
Qed.

Lemma consumeStep_put2 (a b : Item) (dA sA dB sB : R) :
  consumeStep (put2 w A a B b) A B dA sA dB sB =
  put2 w A (consumeStepPair a b dA sA dB sB).1 B (consumeStepPair a b dA sA dB sB).2.
Proof.
  unfold consumeStep, consumeStepPair. cbv zeta.
  rewrite modify_put2_A by done. simpl.
  destruct (truthy sB); [|done]. by rewrite modify_put2_B.
Qed.

Lemma deflect_put2 (a b : Item) :
  deflect (put2 w A a B b) A B = put2 w A (deflectPair a b).1 B (deflectPair a b).2.
Proof.
  unfold deflect, deflectPair. cbv zeta.
  rewrite !lookup_put2_A, !lookup_put2_B by done.
  case_decide.
  all: rewrite modify_put2_A, modify_put2_B, !lookup_put2_A, !lookup_put2_B by done.
  all: by rewrite modify_put2_A, modify_put2_B by done.
Qed.

Lemma updateForCollision_put2 (a b : Item) (d : R) :
  updateForCollision (put2 w A a B b) A B d =
  put2 w A (collidePair a b d).1 B (collidePair a b d).2.
Proof.
  unfold updateForCollision, collidePair.
  rewrite withItem_put2_A by done. destruct (getStepDistance a) as [sA a1].
  cbn [fst snd].
  rewrite withItem_put2_B by done. destruct (getStepDistance b) as [sB b1].
  cbn [fst snd].
  rewrite getDistanceToIntersection_put2_rev.
  destruct (intersectPair b1 a1) as [[dB b2] a2]. cbn [fst snd].
  rewrite moveToContact_put2.
  destruct (moveToContactPair a2 b2 d dB) as [a3 b3]. cbn [fst snd].
  rewrite consumeStep_put2.
  destruct (consumeStepPair a3 b3 d sA dB sB) as [a4 b4]. cbn [fst snd].
  apply deflect_put2.
Qed.
End PairOps.

(** ** The cases of the sweep test *)

(** C1. [getDistanceToIntersection] solves [a t^2 + b t + c = 0], the
    equation of the contact of [A] on its path relative to [B] with the circle
    of the combined radius.  It returns [-1] when the discriminant is not
    positive, and when both roots are outside [0, 1]; when both roots are in
    [0, 1] it returns the smaller one, which is not negative, times the step
    distance of [A]. *)
Theorem getDistanceToIntersection_first_contact (w : list Item) (A B : nat) :
  let s1 := withItem getStepDistance A w in
  let s2 := withItem getStepDistance B s1.2 in
  let stepDistanceA := s1.1 in
  let stepDistanceB := s2.1 in
  let itemA := s2.2 !!! A in
  let itemB := s2.2 !!! B in
  let q := sweepQuadratic itemA itemB stepDistanceA stepDistanceB in
  let a := q.1.1 in
  let b := q.1.2 in
  let c := q.2 in
  let t1 := sweepT1 a b c in
  let t2 := sweepT2 a b c in
  let d := (getDistanceToIntersection w A B).1 in
  (forall t, a * t ^ 2 + b * t + c = sweepGap itemA itemB stepDistanceA stepDistanceB t) /\
  (sweepDiscriminant a b c <= 0 -> d = -1) /\
  ((t1 < 0 \/ t1 > 1) /\ (t2 < 0 \/ t2 > 1) -> d = -1) /\
  (0 < sweepDiscriminant a b c -> 0 <= t1 <= 1 -> 0 <= t2 <= 1 ->
   sweepGap itemA itemB stepDistanceA stepDistanceB t1 = 0 /\
   sweepGap itemA itemB stepDistanceA stepDistanceB t2 = 0 /\
   0 <= Rmin t1 t2 /\
   d = Rmin t1 t2 * stepDistanceA).
Proof.
  intros s1 s2 sA sB itemA itemB q a b c t1 t2 d.
  assert (Hd : d = sweepDistance a b c sA).
  { subst d a b c q itemA itemB sA sB s2 s1. unfold getDistanceToIntersection.
    destruct (withItem getStepDistance A w) as [x1 w1]. simpl.
    destruct (withItem getStepDistance B w1) as [x2 w2]. simpl.
    by destruct (sweepQuadratic _ _ _ _) as [[qa qb] qc]. }
  assert (Hgap : forall t, a * t ^ 2 + b * t + c = sweepGap itemA itemB sA sB t).
  { intros t. apply sweepQuadratic_gap. }
  split; [done|]. rewrite Hd. split; [|split].
  - apply sweepDistance_no_root.
  - intros [H1 H2]. by apply sweepDistance_out_of_range.
  - intros Hpos H1 H2.
    assert (Ha : 0 < a) by by apply sweepQuadratic_a_pos.
    rewrite <- !Hgap. split; [|split; [|split]].
    + apply sweepT1_root; lra.
    + apply sweepT2_root; lra.
    + unfold Rmin. destruct (Rle_dec t1 t2); lra.
    + by apply sweepDistance_in_range.
Qed.

(** The coefficients and roots of [crossingWorld]: the moving item enters the
    inflated circle at [2/10] of its step and leaves it at [3/10]. *)
Lemma crossingWorld_quadratic :
  sweepQuadratic (gliding (-1) (-1) 1 40 0) (gliding 9 (-1) 1 0 0) (40 * 1) (0 * 1)
  = (1600, -800, 96).
Proof.
  unfold sweepQuadratic. simpl. rewrite cos_0, sin_0.
  f_equal; [f_equal|]; lra.
Qed.

Lemma crossingWorld_roots :
  sweepDiscriminant 1600 (-800) 96 = 25600 /\
  sweepT1 1600 (-800) 96 = 3 / 10 /\ sweepT2 1600 (-800) 96 = 2 / 10.
Proof.
  assert (H : sweepDiscriminant 1600 (-800) 96 = 25600).
  { unfold sweepDiscriminant. lra. }
  unfold sweepT1, sweepT2. rewrite H.
  rewrite (sqrt_eq 25600 160) by lra. lra.
Qed.

Lemma getDistanceToIntersection_first_contact_witness :
  (getDistanceToIntersection crossingWorld 0 1).1 = 2 / 10 * 40.
Proof.
  destruct (getDistanceToIntersection_first_contact crossingWorld 0 1)
    as (_ & _ & _ & H).
  revert H. cbn -[sweepQuadratic Rmult Rplus Rminus Rdiv].
  rewrite sweepQuadratic_cache, crossingWorld_quadratic. cbn [fst snd].
  destruct crossingWorld_roots as (-> & -> & ->).
  intros H. destruct H as (_ & _ & _ & ->); [lra..|].
  unfold Rmin. destruct (Rle_dec _ _); lra.
Defined.

Lemma crossingWorld_distance : (getDistanceToIntersection crossingWorld 0 1).1 = 8.
Proof.
  unfold getDistanceToIntersection.
  cbn -[sweepQuadratic sweepDistance Rmult Rplus Rminus Rdiv].
  rewrite sweepQuadratic_cache, crossingWorld_quadratic. cbn [fst snd].
  destruct crossingWorld_roots as (Hd & H1 & H2).
  unfold sweepDistance. rewrite Hd, H1, H2.
  rewrite !decide_False by lra. lra.
Qed.

(** ** The curved trajectory with no curve *)

(** C7. With [shotCurve = 0] the lateral offset [realY] is [0] whatever the
    progress of the shot, and the next curved position is on the straight
    line from the origin of the shot along [shotCourse], at the distance
    [|shotTraveled + speed|].  The hypothesis on [shotDistance] keeps the
    progress of the source a finite number, and the one on
    [shotTraveled + speed] keeps the quotient under [Math.atan] away
    from [0/0]. *)
Theorem curve_zero_is_straight (item : Item) :
  shotCurve item = Some 0 ->
  shotDistance item <> 0 ->
  curveRealY item = 0 /\
  (shotTraveled item + speed item <> 0 ->
   computeNextCurvePos item =
     (shotOriginX item + cos (shotCourse item) * Rabs (shotTraveled item + speed item),
      shotOriginY item + sin (shotCourse item) * Rabs (shotTraveled item + speed item)) /\
   (nextCurvePos (cache item) = None ->
    (getNextCurvePos item).1 = computeNextCurvePos item)).
Proof.
  intros Hcurve _.
  assert (Hy : curveY item = 0).
  { unfold curveY, curveNumber. rewrite Hcurve. ring. }
  assert (Hreal : curveRealY item = 0).
  { unfold curveRealY. rewrite Hy. unfold Rdiv. ring. }
  split; [done|]. intros _.
  assert (Halpha : curveAlpha item = 0).
  { unfold curveAlpha. rewrite Hy. unfold Rdiv. rewrite Rmult_0_l. apply atan_0. }
  assert (Hstep : curveStepDistance item = Rabs (shotTraveled item + speed item)).
  { unfold curveStepDistance. rewrite Hreal, abcSquare_sqrt.
    replace ((shotTraveled item + speed item) ^ 2 + 0 ^ 2)
      with (Rsqr (shotTraveled item + speed item)) by (unfold Rsqr; ring).
    apply sqrt_Rsqr_abs. }
  split.
  - unfold computeNextCurvePos. by rewrite Halpha, Hstep, Rminus_0_r.
  - intros Hcache. unfold getNextCurvePos. by rewrite Hcache.
Qed.

Lemma curve_zero_is_straight_witness :
  curveRealY straightShot = 0 /\ (getNextCurvePos straightShot).1 = (10, 0).
Proof.
  destruct (curve_zero_is_straight straightShot) as [H1 H2];
    [done | simpl; lra |].
  split; [done|].
  destruct H2 as [H2 H3]; [simpl; lra|].
  rewrite H3, H2 by done. simpl.
  rewrite cos_0, sin_0, Rabs_pos_eq by lra. f_equal; lra.
Defined.

(** ** The travel distance *)

Lemma distanceToTravel_zero (friction0 : R) : distanceToTravel 0 friction0 = 0.
Proof. unfold distanceToTravel. by rewrite decide_True. Qed.

(** The closed form, simplified. *)
Lemma distanceToTravel_closed (speed0 friction0 : R) :
  0 < speed0 -> 0 < friction0 < 1 ->
  distanceToTravel speed0 friction0
  = (speed0 - friction0 * stopSpeed config) / (1 - friction0).
Proof.
  intros Hs Hf. unfold distanceToTravel. rewrite decide_False by lra.
  assert (Hln : ln friction0 <> 0).
  { pose proof (ln_increasing friction0 1 (proj1 Hf) (proj2 Hf)) as H.
    rewrite ln_1 in H. lra. }
  assert (Hq : 0 < stopSpeed config / speed0).
  { apply Rdiv_lt_0_compat; [simpl; lra | done]. }
  rewrite Rpower_plus, Rpower_1 by lra.
  unfold Rpower at 1.
  replace (ln (stopSpeed config / speed0) / ln friction0 * ln friction0)
    with (ln (stopSpeed config / speed0)) by (by field).
  rewrite exp_ln by done. field. lra.
Qed.

Lemma simulateDistance_step (fuel : nat) (speed0 friction0 : R) :
  simulateDistance (S fuel) speed0 friction0 =
  if decide (speed0 < stopSpeed config) then Some 0
  else match simulateDistance fuel (speed0 * friction0) friction0 with
       | Some d => Some (speed0 + d)
       | None => None
       end.
Proof. done. Qed.

(** The simulation stops, and its sum is bounded on both sides. *)
Lemma simulateDistance_bounds (friction0 : R) (n : nat) :
  0 < friction0 < 1 ->
  forall speed0, 0 < speed0 -> speed0 * friction0 ^ n < stopSpeed config ->
  exists d, simulateDistance (S n) speed0 friction0 = Some d /\
    (speed0 < stopSpeed config -> d = 0) /\
    (stopSpeed config <= speed0 ->
     speed0 - stopSpeed config < d * (1 - friction0)
     /\ d * (1 - friction0) <= speed0 - friction0 * stopSpeed config).
Proof.
  intros Hf. induction n as [|n IH]; intros s Hs Hn.
  - simpl in Hn. exists 0. simpl. rewrite decide_True by (simpl; lra).
    split; [done|]. split; [done|]. simpl. lra.
  - rewrite simulateDistance_step. case_decide as Hlt.
    { exists 0. split; [done|]. split; [done|]. lra. }
    destruct (IH (s * friction0)) as (d' & -> & Hsmall & Hbig).
    { nra. }
    { rewrite <- tech_pow_Rmult in Hn. lra. }
    exists (s + d'). split; [done|]. split; [lra|]. intros _.
    destruct (Rlt_le_dec (s * friction0) (stopSpeed config)) as [Hl|Hg].
    + rewrite (Hsmall Hl), Rplus_0_r. split; nra.
    + destruct (Hbig Hg) as [Hlo Hhi]. split; nra.
Qed.

(** C5, as the code has it.  [distanceToTravel] returns [0] for the speed
    [0]; for a friction in [(0, 1)] and a speed of at least [stopSpeed] the
    simulation stops, and the closed form is not less than its sum and
    exceeds it by less than [stopSpeed]. *)
Theorem distanceToTravel_vs_simulation (speed0 friction0 : R) :
  0 < friction0 < 1 -> stopSpeed config <= speed0 ->
  distanceToTravel 0 friction0 = 0 /\
  exists fuel d,
    simulateDistance fuel speed0 friction0 = Some d /\
    d <= distanceToTravel speed0 friction0 < d + stopSpeed config.
Proof.
  intros Hf Hs. split; [apply distanceToTravel_zero|].
  assert (Hpos : 0 < speed0) by (simpl in Hs; lra).
  destruct (pow_lt_1_zero friction0) with (y := stopSpeed config / speed0)
    as [n Hn].
  { rewrite Rabs_pos_eq; lra. }
  { apply Rdiv_lt_0_compat; [simpl; lra | done]. }
  specialize (Hn n (Nat.le_refl n)).
  rewrite Rabs_pos_eq in Hn by (apply pow_le; lra).
  destruct (simulateDistance_bounds friction0 n Hf speed0 Hpos)
    as (d & Hd & _ & Hbig).
  { apply (Rmult_lt_compat_l speed0) in Hn; [|done].
    replace (speed0 * (stopSpeed config / speed0)) with (stopSpeed config) in Hn
      by (field; lra).
    done. }
  exists (S n), d. split; [done|].
  rewrite distanceToTravel_closed by done.
  destruct (Hbig Hs) as [Hlo Hhi].
  assert (H1f : 0 < 1 - friction0) by lra.
  split.
  - apply (Rmult_le_reg_r (1 - friction0)); [done|].
    unfold Rdiv. rewrite Rmult_assoc, Rinv_l by lra. lra.
  - apply (Rmult_lt_reg_r (1 - friction0)); [done|].
    unfold Rdiv. rewrite Rmult_assoc, Rinv_l by lra. nra.
Qed.

Lemma distanceToTravel_vs_simulation_witness :
  exists fuel d,
    simulateDistance fuel 1 (1 / 2) = Some d /\
    d <= distanceToTravel 1 (1 / 2) < d + stopSpeed config.
Proof.
  apply (distanceToTravel_vs_simulation 1 (1 / 2)); simpl; lra.
Defined.

(** The simulations of a shot of speed [1] under the friction [1/2]. *)
Lemma simulateDistance_half : simulateDistance 8 1 (1 / 2) = Some (127 / 64).
Proof.
  cbn [simulateDistance].
  repeat (rewrite decide_False by (simpl; lra)).
  rewrite decide_True by (simpl; lra).
  f_equal. lra.
Qed.

Lemma simulateDecayFirst_half : simulateDecayFirst 7 1 (1 / 2) = Some (127 / 128).
Proof.
  cbn [simulateDecayFirst]. cbv zeta.
  repeat (rewrite decide_False by (simpl; lra)).
  rewrite decide_True by (simpl; lra).
  f_equal. lra.
Qed.

(** C5, as stated, fails: for the speed [1] and the friction [1/2] the closed
    form is [199/100], the simulation gives [127/64] (or [127/128] when the
    speed is multiplied first), and they differ by far more than [1e-6] of
    either.  Under [stopSpeed] the closed form can even be negative: for the
    speed [1/1000] and the friction [9/10] it is [-8/100], where the
    simulation makes no step. *)
Lemma distanceToTravel_not_within_tolerance :
  distanceToTravel 1 (1 / 2) = 199 / 100 /\
  simulateDistance 8 1 (1 / 2) = Some (127 / 64) /\
  ~ withinRelativeError (1 / 1000000) (distanceToTravel 1 (1 / 2)) (127 / 64) /\
  simulateDecayFirst 7 1 (1 / 2) = Some (127 / 128) /\
  ~ withinRelativeError (1 / 1000000) (distanceToTravel 1 (1 / 2)) (127 / 128) /\
  distanceToTravel (1 / 1000) (9 / 10) = - (8 / 100) /\
  simulateDistance 1 (1 / 1000) (9 / 10) = Some 0 /\
  ~ withinRelativeError (1 / 1000000) (distanceToTravel (1 / 1000) (9 / 10)) 0.
Proof.
  assert (H : distanceToTravel 1 (1 / 2) = 199 / 100).
  { rewrite distanceToTravel_closed by lra. simpl. lra. }
  assert (H' : distanceToTravel (1 / 1000) (9 / 10) = - (8 / 100)).
  { rewrite distanceToTravel_closed by lra. simpl. lra. }
  split; [done|]. split; [apply simulateDistance_half|].
  split; [|split; [apply simulateDecayFirst_half|]].
  - unfold withinRelativeError. rewrite H, !Rabs_pos_eq by lra. lra.
  - split; [|split; [done|split]].
    + unfold withinRelativeError. rewrite H, !Rabs_pos_eq by lra. lra.
    + simpl. by rewrite decide_True by (simpl; lra).
    + unfold withinRelativeError. rewrite H'.
      rewrite Rminus_0_r, Rabs_R0, Rabs_left by lra. lra.
Qed.

(** ** A world at rest *)

Lemma lookup_total_Forall (P : Item -> Prop) (w : list Item) (i : nat) :
  P inhabitant -> Forall P w -> P (w !!! i).
Proof.
  intros Hd Hw. rewrite list_lookup_total_alt.
  destruct (w !! i) as [x|] eqn:Hx; [|done].
  by eapply Forall_lookup_1.
Qed.

Lemma collisionStepFrom_rest (w : list Item) (todo : list nat) :
  Forall (fun it => speed it = 0) w -> collisionStepFrom w todo = Some (false, w).
Proof.
  intros Hw. induction todo as [|i todo IH]; [done|].
  cbn [collisionStepFrom]. rewrite (truthy_false (speed (w !!! i))); [done|].
  by apply (lookup_total_Forall (fun it => speed it = 0)).
Qed.

Lemma applyPhysicsItem_rest (it : Item) : speed it = 0 -> applyPhysicsItem it = it.
Proof. intros H. unfold applyPhysicsItem. by rewrite (truthy_false (speed it)). Qed.

Lemma applyPhysics_rest (w : list Item) :
  Forall (fun it => speed it = 0) w -> applyPhysics w = (false, w).
Proof.
  induction 1 as [|it w Hit Hw IH]; [done|].
  cbn [applyPhysics]. rewrite IH, applyPhysicsItem_rest by done.
  by rewrite (truthy_false (speed it)).
Qed.

(** A pass that finds no collision ends the loop of [tick]. *)
Lemma collisionPasses_last (fuel : nat) (w w1 : list Item) (loopBreaker collisions : nat) :
  collisionStep w = Some (false, w1) ->
  collisionPasses (S fuel) w loopBreaker collisions
  = Some (Finished w1 loopBreaker collisions).
Proof. intros H. cbn [collisionPasses]. rewrite H. simpl. by rewrite Nat.add_0_r. Qed.

(** A pass that finds a collision is followed by another one, up to the
    tenth. *)
Lemma collisionPasses_next (fuel : nat) (w w1 : list Item) (loopBreaker collisions : nat) :
  collisionStep w = Some (true, w1) ->
  collisionPasses (S fuel) w loopBreaker collisions
  = if (S loopBreaker <? 10)%nat
    then collisionPasses fuel w1 (S loopBreaker) (collisions + 1)
    else Some (Finished w1 (S loopBreaker) (collisions + 1)).
Proof. intros H. cbn [collisionPasses]. by rewrite H. Qed.

(** C6. In a world where every item has the speed [0], [tick] returns
    [false] and changes no position and no course (it only resets [unused]). *)
Theorem tick_at_rest (p : Physics) :
  Forall (fun it => speed it = 0) (items p) ->
  exists p',
    tick p = Some (false, p') /\
    items p' = resetItems (items p) /\
    map pos_x (items p') = map pos_x (items p) /\
    map pos_y (items p') = map pos_y (items p) /\
    map course (items p') = map course (items p).
Proof.
  intros Hrest.
  assert (Hreset : Forall (fun it => speed it = 0) (resetItems (items p))).
  { unfold resetItems. by apply Forall_map. }
  exists (mkPhysics (resetItems (items p)) true).
  split; [|split; [done|]].
  - unfold tick. cbn [stepCollisions config negb orb].
    rewrite (collisionPasses_last _ _ (resetItems (items p))).
    + by rewrite applyPhysics_rest.
    + unfold collisionStep. by rewrite collisionStepFrom_rest.
  - simpl. unfold resetItems. rewrite !map_map. done.
Qed.

Lemma tick_at_rest_witness :
  exists p',
    tick restingWorld = Some (false, p') /\
    items p' = resetItems (items restingWorld) /\
    map pos_x (items p') = [0; 100] /\
    map pos_y (items p') = [0; 0] /\
    map course (items p') = [0; 0].
Proof.
  apply (tick_at_rest restingWorld). by repeat constructor.
Defined.

(** ** Termination *)

Lemma updateIfColliding_total (fuel : nat) :
  forall (w : list Item) (item1 item2 _attempt : nat),
    (1 <= fuel)%nat -> (21 <= fuel + Nat.max _attempt 1)%nat ->
    is_Some (updateIfColliding fuel w item1 item2 _attempt).
Proof.
  induction fuel as [|fuel IH]; intros w item1 item2 att H1 H2; [lia|].
  simpl.
  set (att' := if (att =? 0)%nat then 1%nat else att).
  assert (Hatt : att' = Nat.max att 1).
  { subst att'. destruct (Nat.eqb_spec att 0); lia. }
  destruct (getDistanceToIntersection _ _ _) as [d w1].
  case_decide; [|done].
  destruct (negb _ && (att' <? 20)%nat) eqn:Hrec; [|done].
  apply andb_true_iff in Hrec as [_ Hlt]. apply Nat.ltb_lt in Hlt.
  match goal with
  | |- context [updateIfColliding fuel ?w' ?a ?b ?c] =>
      destruct (IH w' a b c) as [[hit w2] ->]; [lia | lia | done]
  end.
Qed.

Lemma testOrdered_total (w : list Item) (item : nat) (rest : list nat) :
  is_Some (testOrdered w item rest).
Proof.
  revert w. induction rest as [|other rest IH]; intros w; [done|].
  cbn [testOrdered].
  destruct (updateIfColliding_total 20 w item other 0) as [[b w1] ->]; [lia..|].
  destruct b; [done | apply IH].
Qed.

Lemma collisionStepFrom_total (w : list Item) (todo : list nat) :
  is_Some (collisionStepFrom w todo).
Proof.
  revert w. induction todo as [|item todo IH]; intros w; [done|].
  cbn [collisionStepFrom]. destruct (truthy _ && truthy _); [|apply IH].
  destruct (testOrdered_total w item (drop 1 (orderByDistance w (seq 0 (length w)) item)))
    as [[b w1] ->].
  destruct b; [done | apply IH].
Qed.

Lemma collisionPasses_total (fuel : nat) :
  forall (w : list Item) (loopBreaker collisions : nat),
    (1 <= fuel)%nat -> (10 <= fuel + loopBreaker)%nat ->
    exists r, collisionPasses fuel w loopBreaker collisions = Some r /\
      match r with
      | Paused _ => False
      | Finished _ loopBreaker' collisions' =>
          (loopBreaker' <= Nat.max (S loopBreaker) 10)%nat /\
          (collisions' - collisions = loopBreaker' - loopBreaker)%nat /\
          (loopBreaker <= loopBreaker')%nat /\ (collisions <= collisions')%nat
      end.
Proof.
  induction fuel as [|fuel IH]; intros w lb c H1 H2; [lia|].
  simpl. unfold collisionStep.
  destruct (collisionStepFrom_total w (seq 0 (length w))) as [[thisTime w1] ->].
  destruct thisTime.
  - destruct (Nat.ltb_spec (S lb) 10).
    + destruct (IH w1 (S lb) (c + 1)%nat) as (r & -> & Hr); [lia..|].
      exists r. split; [done|]. destruct r; [done|]. cbn in Hr |- *. lia.
    + eexists. split; [done|]. simpl. lia.
  - eexists. split; [done|]. simpl. lia.
Qed.

(** C8. [tick] always returns.  The collision loop makes at most 10 passes
    (10 units of fuel are enough, and the counters end at most at 10); the
    lookahead of [updateIfColliding] nests at most 20 calls (20 units of fuel
    are enough from every attempt number), and at the attempt 20 a contact
    is resolved against the current pair whatever the nearest item is. *)
Theorem tick_terminates :
  (forall p, exists moving p', tick p = Some (moving, p')) /\
  (forall w, exists w' loopBreaker collisions,
      collisionPasses 10 w 0 0 = Some (Finished w' loopBreaker collisions) /\
      (loopBreaker <= 10)%nat /\ collisions = loopBreaker) /\
  (forall w item1 item2 _attempt,
      exists r, updateIfColliding 20 w item1 item2 _attempt = Some r) /\
  (forall fuel w item1 item2 _attempt,
      (20 <= _attempt)%nat ->
      let A := if decide (speed (w !!! item1) >= speed (w !!! item2))
               then item1 else item2 in
      let B := if (A =? item1)%nat then item2 else item1 in
      let r := getDistanceToIntersection w A B in
      r.1 > 0 ->
      updateIfColliding (S fuel) w item1 item2 _attempt
      = Some (true, updateForCollision r.2 A B r.1)).
Proof.
  split; [|split; [|split]].
  - intros p. unfold tick.
    destruct (collisionPasses_total 10 (if negb (stepCollisions config) || lastFinished p
                                        then resetItems (items p) else items p) 0 0)
      as (r & -> & Hr); [lia..|].
    destruct r as [|w1 lb c]; [done|].
    destruct (applyPhysics w1) as [m w2]. by eexists _, _.
  - intros w.
    destruct (collisionPasses_total 10 w 0 0) as (r & -> & Hr); [lia..|].
    destruct r as [|w1 lb c]; [done|].
    exists w1, lb, c. split; [done|]. lia.
  - intros w item1 item2 att.
    destruct (updateIfColliding_total 20 w item1 item2 att) as [r ->]; [lia..|].
    by exists r.
  - intros fuel w item1 item2 att Hatt A B r Hd. simpl.
    fold A. fold B. fold r. destruct r as [d w1]. simpl in *.
    rewrite decide_True by done.
    replace ((if (att =? 0)%nat then 1%nat else att) <? 20)%nat with false.
    { by rewrite andb_false_r. }
    symmetry. apply Nat.ltb_ge. destruct (Nat.eqb_spec att 0); lia.
Qed.

Lemma tick_terminates_witness :
  updateIfColliding 1 crossingWorld 0 1 20
  = Some (true, updateForCollision (getDistanceToIntersection crossingWorld 0 1).2 0 1
                  (getDistanceToIntersection crossingWorld 0 1).1).
Proof.
  destruct tick_terminates as (_ & _ & _ & H).
  assert (Hge : speed (crossingWorld !!! 0%nat) >= speed (crossingWorld !!! 1%nat)).
  { simpl. lra. }
  specialize (H 0%nat crossingWorld 0%nat 1%nat 20%nat (Nat.le_refl 20)).
  rewrite decide_True in H by done. simpl Nat.eqb in H. cbv zeta in H.
  apply H. rewrite crossingWorld_distance. lra.
Defined.

(** ** The order of the collision tests *)

Lemma insertBy_Permutation (cmp : nat -> nat -> Z) (x : nat) (l : list nat) :
  insertBy cmp x l ≡ₚ x :: l.
Proof.
  induction l as [|y l IH]; [done|].
  simpl. destruct (0 <? cmp x y)%Z; [|done].
  rewrite IH. apply Permutation_swap.
Qed.

Lemma sortBy_Permutation (cmp : nat -> nat -> Z) (l : list nat) : sortBy cmp l ≡ₚ l.
Proof.
  induction l as [|x l IH]; [done|].
  simpl. by rewrite insertBy_Permutation, IH.
Qed.

Lemma compareDistance_pos (w : list Item) (source a b : nat) :
  (0 <? compareDistance w source a b)%Z = true ->
  notFarther w source b a.
Proof.
  unfold compareDistance, notFarther.
  repeat case_decide; intros ?; try done; lra.
Qed.

Lemma compareDistance_not_pos (w : list Item) (source a b : nat) :
  (0 <? compareDistance w source a b)%Z = false ->
  notFarther w source a b.
Proof.
  unfold compareDistance, notFarther.
  repeat case_decide; intros ?; try done; lra.
Qed.

Lemma insertBy_sorted (w : list Item) (source x : nat) (l : list nat) :
  StronglySorted (notFarther w source) l ->
  StronglySorted (notFarther w source) (insertBy (compareDistance w source) x l).
Proof.
  induction 1 as [|y l Hl IH Hy]; simpl.
  { repeat constructor. }
  destruct (0 <? compareDistance w source x y)%Z eqn:Hc.
  - constructor; [done|].
    rewrite insertBy_Permutation. constructor; [|done].
    by apply compareDistance_pos.
  - apply compareDistance_not_pos in Hc.
    constructor; [by constructor|].
    constructor; [done|].
    eapply Forall_impl; [exact Hy|].
    intros z Hz. unfold notFarther in *. lra.
Qed.

Lemma orderByDistance_Permutation (w : list Item) (arr : list nat) (source : nat) :
  orderByDistance w arr source ≡ₚ arr.
Proof. apply sortBy_Permutation. Qed.

Lemma orderByDistance_sorted (w : list Item) (arr : list nat) (source : nat) :
  StronglySorted (notFarther w source) (orderByDistance w arr source).
Proof.
  unfold orderByDistance. induction arr as [|x arr IH]; simpl.
  - constructor.
  - by apply insertBy_sorted.
Qed.

Lemma distanceBetween_self (a : Item) : distanceBetween a a = 0.
Proof. unfold distanceBetween. apply abcSquare_eq; [lra | ring]. Qed.

Lemma distanceBetween_nonneg (a b : Item) : 0 <= distanceBetween a b.
Proof. apply abcSquare_nonneg. Qed.

(** When no other item has the centre of [source], the sorted copy starts
    with [source] itself. *)
Lemma orderByDistance_head (w : list Item) (source : nat) :
  (source < length w)%nat ->
  (forall j, (j < length w)%nat -> j <> source ->
             0 < distanceBetween (w !!! source) (w !!! j)) ->
  let ordered := orderByDistance w (seq 0 (length w)) source in
  ordered = source :: drop 1 ordered /\ source ∉ drop 1 ordered.
Proof.
  intros Hsrc Hdist ordered.
  pose proof (orderByDistance_Permutation w (seq 0 (length w)) source) as Hperm.
  pose proof (orderByDistance_sorted w (seq 0 (length w)) source) as Hsorted.
  fold ordered in Hperm, Hsorted.
  assert (Hin : source ∈ ordered).
  { rewrite Hperm. apply elem_of_seq. lia. }
  assert (Hnodup : NoDup ordered).
  { rewrite Hperm. apply NoDup_seq. }
  destruct ordered as [|h rest]; [by apply elem_of_nil in Hin|].
  simpl. rewrite drop_0.
  assert (h = source) as ->.
  { apply StronglySorted_inv in Hsorted as [_ Hall].
    apply elem_of_cons in Hin as [->|Hin]; [done|].
    destruct (decide (h = source)) as [|Hne]; [done|].
    rewrite Forall_forall in Hall. specialize (Hall _ Hin).
    unfold notFarther in Hall. rewrite distanceBetween_self in Hall.
    assert (Hh : (h < length w)%nat).
    { assert (h ∈ seq 0 (length w)) as Hh by (rewrite <- Hperm; left).
      apply elem_of_seq in Hh. lia. }
    specialize (Hdist h Hh Hne). lra. }
  split; [done|]. by apply NoDup_cons in Hnodup as [? _].
Qed.

(** What [testOrdered] returns, in terms of the tests it makes. *)
Lemma testOrdered_hit (w w' : list Item) (item : nat) (rest : list nat) :
  testOrdered w item rest = Some (true, w') <->
  exists before other after w1,
    rest = before ++ other :: after /\
    misses w item before w1 /\
    updateIfColliding 20 w1 item other 0 = Some (true, w').
Proof.
  revert w. induction rest as [|o rest IH]; intros w.
  - split; [done|]. intros (before & other & after & w1 & H & _).
    by destruct before.
  - cbn [testOrdered]. split.
    + destruct (updateIfColliding 20 w item o 0) as [[[] w1]|] eqn:Ho; [| |done].
      * intros [= <-]. exists [], o, rest, w. split; [done|]. split; [constructor|done].
      * intros H. apply IH in H as (before & other & after & w2 & -> & Hm & Hhit).
        exists (o :: before), other, after, w2.
        split; [done|]. split; [|done]. by econstructor.
    + intros (before & other & after & w1 & Hrest & Hm & Hhit).
      destruct before as [|b before]; simpl in Hrest; simplify_eq.
      * inversion Hm; subst. by rewrite Hhit.
      * inversion Hm as [|? w2 ? ? ? ? Hb Hm']; subst. rewrite Hb.
        apply IH. by exists before, other, after, w1.
Qed.

Lemma testOrdered_miss (w w' : list Item) (item : nat) (rest : list nat) :
  testOrdered w item rest = Some (false, w') <-> misses w item rest w'.
Proof.
  revert w. induction rest as [|o rest IH]; intros w.
  - simpl. split; [intros [= <-]; constructor | by inversion 1].
  - cbn [testOrdered]. split.
    + destruct (updateIfColliding 20 w item o 0) as [[[] w1]|] eqn:Ho; [done| |done].
      intros H. apply IH in H. by econstructor.
    + inversion 1 as [|? w1 ? ? ? ? Ho Hm]; subst. rewrite Ho. by apply IH.
Qed.

(** A sorted list of positions with the given keys is the only sorted
    arrangement of its elements when the keys are pairwise different. *)
Lemma sorted_arrangement_unique (w : list Item) (source : nat) (l k : list nat) :
  (forall a b, a ∈ l -> b ∈ l ->
     distanceBetween (w !!! source) (w !!! a) = distanceBetween (w !!! source) (w !!! b) ->
     a = b) ->
  StronglySorted (notFarther w source) l ->
  StronglySorted (notFarther w source) k ->
  k ≡ₚ l -> k = l.
Proof.
  intros Hinj Hl Hk Hperm.
  apply (StronglySorted_unique_strong (notFarther w source)); try done.
  intros a b Ha Hb Hab Hba. apply Hinj.
  - by rewrite <- Hperm.
  - done.
  - unfold notFarther in *. lra.
Qed.

(** Three items at the distances 5, 10 and 15 from a fourth one. *)
Lemma orderByDistance_5_10_15 (w : list Item) (item a b c : nat) :
  length w = 4%nat ->
  (item < 4)%nat -> (a < 4)%nat -> (b < 4)%nat -> (c < 4)%nat ->
  distanceBetween (w !!! item) (w !!! a) = 5 ->
  distanceBetween (w !!! item) (w !!! b) = 10 ->
  distanceBetween (w !!! item) (w !!! c) = 15 ->
  orderByDistance w (seq 0 (length w)) item = [item; a; b; c].
Proof.
  intros Hlen Hi Ha Hb Hc Da Db Dc.
  pose proof (distanceBetween_self (w !!! item)) as Di.
  assert (Hnodup : NoDup [item; a; b; c]).
  { repeat (apply NoDup_cons; split); try apply NoDup_nil_2;
      rewrite ?elem_of_cons, ?elem_of_nil; intros H;
      repeat destruct H as [H|H]; try done; subst;
      rewrite ?Da, ?Db, ?Dc in *; lra. }
  assert (Hperm : [item; a; b; c] ≡ₚ seq 0 (length w)).
  { apply submseteq_length_Permutation.
    - apply NoDup_submseteq; [done|].
      intros x Hx. apply elem_of_seq. rewrite Hlen.
      rewrite !elem_of_cons, elem_of_nil in Hx.
      repeat destruct Hx as [Hx|Hx]; try done; subst; lia.
    - rewrite length_seq, Hlen. simpl. lia. }
  apply (sorted_arrangement_unique w item).
  - intros x y Hx Hy. rewrite !elem_of_cons, elem_of_nil in Hx, Hy.
    repeat destruct Hx as [Hx|Hx]; try done; subst;
      repeat destruct Hy as [Hy|Hy]; try done; subst;
      rewrite ?Di, ?Da, ?Db, ?Dc; intros; try done; lra.
  - repeat first [apply SSorted_nil | apply SSorted_cons
                   | apply Forall_nil_2 | apply Forall_cons_2];
      unfold notFarther; rewrite ?Di, ?Da, ?Db, ?Dc; lra.
  - apply orderByDistance_sorted.
  - by rewrite orderByDistance_Permutation.
Qed.

(** C9. For an item that still moves, [collisionStep] tests the other items
    from the nearest to the farthest: the sorted copy is a rearrangement of
    the array in ascending distance, it starts with the item itself when no
    other item has the same centre, the tests are made along its tail, and
    the first test that confirms a collision ends the pass.  With three other
    items at the distances 5, 10 and 15 the order is 5, 10, 15 wherever they
    are registered. *)
Theorem collision_tests_nearest_first :
  (forall (w : list Item) (item : nat) (todo : list nat),
      (item < length w)%nat ->
      truthy (speed (w !!! item)) && truthy (unused (w !!! item)) = true ->
      let ordered := orderByDistance w (seq 0 (length w)) item in
      ordered ≡ₚ seq 0 (length w) /\
      StronglySorted (notFarther w item) ordered /\
      ((forall j, (j < length w)%nat -> j <> item ->
                  0 < distanceBetween (w !!! item) (w !!! j)) ->
       ordered = item :: drop 1 ordered /\ item ∉ drop 1 ordered) /\
      (forall w',
          collisionStepFrom w (item :: todo) = Some (true, w') <->
          (exists before other after w1,
              drop 1 ordered = before ++ other :: after /\
              misses w item before w1 /\
              updateIfColliding 20 w1 item other 0 = Some (true, w')) \/
          (exists w1, misses w item (drop 1 ordered) w1 /\
                      collisionStepFrom w1 todo = Some (true, w')))) /\
  (forall (w : list Item) (item a b c : nat),
      length w = 4%nat ->
      (item < 4)%nat -> (a < 4)%nat -> (b < 4)%nat -> (c < 4)%nat ->
      distanceBetween (w !!! item) (w !!! a) = 5 ->
      distanceBetween (w !!! item) (w !!! b) = 10 ->
      distanceBetween (w !!! item) (w !!! c) = 15 ->
      drop 1 (orderByDistance w (seq 0 (length w)) item) = [a; b; c]).
Proof.
  split.
  - intros w item todo Hi Hmoving ordered.
    split; [apply orderByDistance_Permutation|].
    split; [apply orderByDistance_sorted|].
    split; [by apply orderByDistance_head|].
    intros w'. cbn [collisionStepFrom]. rewrite Hmoving. fold ordered.
    split.
    + destruct (testOrdered w item (drop 1 ordered)) as [[[] w1]|] eqn:Ht; [| |done].
      * intros [= <-]. left. by apply testOrdered_hit.
      * intros H. right. exists w1. split; [|done]. by apply testOrdered_miss.
    + intros [H|(w1 & Hm & H)].
      * apply testOrdered_hit in H. by rewrite H.
      * apply testOrdered_miss in Hm. by rewrite Hm.
  - intros w item a b c Hlen Hi Ha Hb Hc Da Db Dc.
    by rewrite (orderByDistance_5_10_15 w item a b c).
Qed.

Lemma scatteredWorld_distances :
  distanceBetween (scatteredWorld !!! 1%nat) (scatteredWorld !!! 2%nat) = 5 /\
  distanceBetween (scatteredWorld !!! 1%nat) (scatteredWorld !!! 3%nat) = 10 /\
  distanceBetween (scatteredWorld !!! 1%nat) (scatteredWorld !!! 0%nat) = 15.
Proof.
  unfold distanceBetween. simpl.
  repeat split; apply abcSquare_eq; lra.
Qed.

Lemma collision_tests_nearest_first_witness :
  drop 1 (orderByDistance scatteredWorld (seq 0 (length scatteredWorld)) 1)
  = [2; 3; 0]%nat /\
  StronglySorted (notFarther scatteredWorld 1)
    (orderByDistance scatteredWorld (seq 0 (length scatteredWorld)) 1).
Proof.
  destruct scatteredWorld_distances as (H5 & H10 & H15).
  destruct collision_tests_nearest_first as [Hgen H].
  split.
  - apply H; try done; simpl; lia.
  - apply (Hgen scatteredWorld 1%nat []); [simpl; lia|].
    rewrite !truthy_true; [done | simpl; lra | simpl; lra].
Defined.

(** ** A positive contact distance *)

(** With coefficients that come from two items and a step distance of [A]
    that is not negative, a positive result is the smaller root [t2] times
    the step distance, and [0 < t2 <= 1]. *)
Lemma sweepDistance_positive (A B : Item) (sA sB : R) :
  let q := sweepQuadratic A B sA sB in
  0 <= sA ->
  sweepDistance q.1.1 q.1.2 q.2 sA > 0 ->
  0 < sA /\
  0 < sweepT2 q.1.1 q.1.2 q.2 <= 1 /\
  sweepT2 q.1.1 q.1.2 q.2 <= sweepT1 q.1.1 q.1.2 q.2 /\
  forall s, sweepDistance q.1.1 q.1.2 q.2 s = sweepT2 q.1.1 q.1.2 q.2 * s.
Proof.
  intros q HsA. pose proof (sweepQuadratic_a_pos A B sA sB) as Ha. fold q in Ha.
  unfold sweepDistance. cbv zeta.
  case_decide as Hd; [lra|]. specialize (Ha ltac:(lra)).
  pose proof (sweepT_order q.1.1 q.1.2 q.2 Ha) as Hord.
  case_decide as Hout; [lra|].
  destruct (decide _) as [[H1 H2]|_]; [lra|]. intros Hpos.
  assert (0 < sA /\ 0 < sweepT2 q.1.1 q.1.2 q.2) as [HsA' Ht2] by nra.
  split; [done|]. split; [|split; [done|]].
  - split; [done|]. destruct (Rle_lt_dec (sweepT2 q.1.1 q.1.2 q.2) 1); [done|].
    exfalso. apply Hout. split; right; lra.
  - done.
Qed.

(** ** Invariants of the items *)

Lemma sound_set_cache (c : Cache) (it : Item) :
  0 <= speed it -> 0 < power it ->
  (forall v, stepDistance c = Some v -> 0 <= v) ->
  sound (set_cache c it).
Proof. by intros; split; [|split]. Qed.

Lemma computeStepDistance_nonneg (it : Item) :
  0 <= speed it -> 0 <= unused it -> 0 <= (computeStepDistance it).1.
Proof.
  intros Hs Hu. unfold computeStepDistance.
  destruct (shotCurve it).
  - destruct (getNextCurvePos_body it) as [c Hc].
    destruct (getNextCurvePos it) as [p i1]. simpl in *. subst i1. simpl.
    apply Rmult_le_pos; [apply abcSquare_nonneg | done].
  - simpl. by apply Rmult_le_pos.
Qed.

Lemma getStepDistance_nonneg (it : Item) : itemOK it -> 0 <= (getStepDistance it).1.
Proof.
  intros [(Hs & Hp & Hc) [Hu _]]. unfold getStepDistance.
  destruct (stepDistance (cache it)) as [v|] eqn:Hv.
  - destruct (truthy v); [by apply Hc | by apply computeStepDistance_nonneg].
  - by apply computeStepDistance_nonneg.
Qed.

Lemma getStepDistance_ok (it : Item) : itemOK it -> itemOK (getStepDistance it).2.
Proof.
  intros Hok. pose proof Hok as [(Hs & Hp & Hc) Hu].
  unfold getStepDistance.
  destruct (stepDistance (cache it)) as [v|] eqn:Hv; [destruct (truthy v); [done|]|].
  all: destruct (computeStepDistance_body it) as (c & -> & Hcv).
  all: split; [|done]; apply sound_set_cache; try done.
  all: intros v' Hv'; rewrite Hcv in Hv'; injection Hv' as <-.
  all: apply computeStepDistance_nonneg; [done | apply Hu].
Qed.

Lemma getStepDistance_fields (it : Item) :
  let it' := (getStepDistance it).2 in
  pos_x it' = pos_x it /\ pos_y it' = pos_y it /\ radius it' = radius it /\
  course it' = course it /\ speed it' = speed it /\ power it' = power it /\
  unused it' = unused it /\ shotCurve it' = shotCurve it.
Proof. simpl. by destruct (getStepDistance_body it) as [c ->]. Qed.

(** ** The collision of a pair *)

(** The result of [intersectPair] once the step distances are in the
    caches. *)
Lemma intersectPair_cached (a b : Item) (sA sB : R) :
  getStepDistance a = (sA, a) -> getStepDistance b = (sB, b) ->
  intersectPair a b =
  (let q := sweepQuadratic a b sA sB in sweepDistance q.1.1 q.1.2 q.2 sA, a, b).
Proof.
  intros Ha Hb. unfold intersectPair. rewrite Ha, Hb.
  by destruct (sweepQuadratic a b sA sB) as [[qa qb] qc].
Qed.

Lemma collidePair_cached (a b : Item) (sA sB d : R) :
  getStepDistance a = (sA, a) -> getStepDistance b = (sB, b) ->
  collidePair a b d =
  let q := sweepQuadratic a b sA sB in
  let dB := sweepDistance q.1.1 q.1.2 q.2 sB in
  let m := moveToContactPair a b d dB in
  let u := consumeStepPair m.1 m.2 d sA dB sB in
  deflectPair u.1 u.2.
Proof.
  intros Ha Hb. unfold collidePair. rewrite Ha, Hb.
  rewrite (intersectPair_cached b a sB sA) by done.
  rewrite sweepQuadratic_sym. cbv zeta.
  destruct (moveToContactPair _ _ _ _) as [a3 b3]. cbn [fst snd].
  by destruct (consumeStepPair _ _ _ _ _ _) as [a4 b4].
Qed.

Lemma moveToContactPair_fields (a b : Item) (dA dB : R) :
  let m := moveToContactPair a b dA dB in
  (speed m.1 = speed a /\ power m.1 = power a /\ unused m.1 = unused a /\
   course m.1 = course a /\ radius m.1 = radius a /\ cache m.1 = emptyCache /\
   shotCurve m.1 = None) /\
  (speed m.2 = speed b /\ power m.2 = power b /\ unused m.2 = unused b /\
   course m.2 = course b /\ radius m.2 = radius b /\ cache m.2 = emptyCache /\
   shotCurve m.2 = None).
Proof. unfold moveToContactPair. cbv zeta. by case_decide. Qed.

Lemma angleBetween_bound (x y : R) : Rabs (angleBetween x y) <= 1.
Proof.
  unfold angleBetween. pose proof (COS_bound (x - y + PI / 2)).
  apply Rabs_le. lra.
Qed.

(** The pair after a collision, when the contact distance is the positive
    result of the sweep test. *)
Lemma collidePair_ok (a b : Item) (sA sB : R) :
  getStepDistance a = (sA, a) -> getStepDistance b = (sB, b) ->
  itemOK a -> itemOK b ->
  let q := sweepQuadratic a b sA sB in
  let d := sweepDistance q.1.1 q.1.2 q.2 sA in
  d > 0 ->
  itemOK (collidePair a b d).1 /\ itemOK (collidePair a b d).2.
Proof.
  intros Ha Hb Hoka Hokb q d Hd.
  assert (HsA : 0 <= sA).
  { pose proof (getStepDistance_nonneg a Hoka) as H. by rewrite Ha in H. }
  destruct (sweepDistance_positive a b sA sB HsA Hd) as (HsA' & Ht & _ & Hdist).
  fold q in Ht, Hdist.
  rewrite (collidePair_cached a b sA sB d) by done. cbv zeta. fold q.
  set (dB := sweepDistance q.1.1 q.1.2 q.2 sB).
  pose proof (moveToContactPair_fields a b d dB) as Hm.
  destruct (moveToContactPair a b d dB) as [a3 b3]. simpl in Hm.
  destruct Hm as [(Hs3 & Hp3 & Hu3 & _ & _ & Hc3 & _) (Hs3' & Hp3' & Hu3' & _ & _ & Hc3' & _)].
  destruct Hoka as [(Hsa & Hpa & _) Hua]. destruct Hokb as [(Hsb & Hpb & _) Hub].
  unfold budgeted in *.
  assert (Hratio : d / sA = sweepT2 q.1.1 q.1.2 q.2).
  { unfold d. rewrite Hdist. field. lra. }
  unfold consumeStepPair, deflectPair. cbn [fst snd]. cbv zeta.
  set (rel := angleBetween _ _).
  pose proof (angleBetween_bound (course (set_unused (unused a3 * (d / sA)) a3))
                (getCourse (pos_x (set_unused (unused a3 * (d / sA)) a3))
                   (pos_y (set_unused (unused a3 * (d / sA)) a3))
                   (pos_x (if truthy sB then set_unused (unused b3 * (dB / sB)) b3 else b3))
                   (pos_y (if truthy sB then set_unused (unused b3 * (dB / sB)) b3 else b3))))
    as Hrel.
  fold rel in Hrel. pose proof (Rabs_pos rel) as Hrel0.
  split.
  - split; [split; [|split]|].
    + simpl. rewrite Hs3. by apply Rmult_le_pos.
    + simpl. by rewrite Hp3.
    + simpl. rewrite Hc3. by intros v [=].
    + unfold budgeted. simpl. rewrite Hu3, Hratio. nra.
  - assert (Hb3 : power (if truthy sB then set_unused (unused b3 * (dB / sB)) b3 else b3)
                  = power b /\
                  cache (if truthy sB then set_unused (unused b3 * (dB / sB)) b3 else b3)
                  = emptyCache /\
                  0 <= unused (if truthy sB then set_unused (unused b3 * (dB / sB)) b3 else b3)
                  <= 1).
    { unfold truthy. case_bool_decide as HsB; simpl; [|by rewrite Hu3'].
      split; [done|]. split; [done|]. rewrite Hu3'.
      replace (dB / sB) with (sweepT2 q.1.1 q.1.2 q.2).
      - nra.
      - unfold dB. rewrite Hdist. by field. }
    destruct Hb3 as (Hpb3 & Hcb3 & Hub3).
    split; [split; [|split]|].
    + simpl. rewrite Hs3, Hp3, Hpb3.
      apply Rmult_le_pos; [|lra].
      apply Rmult_le_pos; [by apply Rmult_le_pos; lra|].
      apply Rlt_le, Rinv_0_lt_compat. lra.
    + simpl. by rewrite Hpb3.
    + simpl. rewrite Hcb3. by intros v [=].
    + done.
Qed.

(** ** Invariants of the world *)

Lemma length_modify (f : Item -> Item) (i : nat) (w : list Item) :
  length (modify f i w) = length w.
Proof. unfold modify. apply length_insert. Qed.

Lemma length_withItem {T : Type} (f : Item -> T * Item) (i : nat) (w : list Item) :
  length (withItem f i w).2 = length w.
Proof. unfold withItem. destruct (f (w !!! i)). simpl. apply length_insert. Qed.

Lemma withItem_fst {T : Type} (f : Item -> T * Item) (i : nat) (w : list Item) :
  (withItem f i w).1 = (f (w !!! i)).1.
Proof. unfold withItem. by destruct (f (w !!! i)). Qed.

Lemma length_getDistanceToIntersection (w : list Item) (A B : nat) :
  length (getDistanceToIntersection w A B).2 = length w.
Proof.
  unfold getDistanceToIntersection.
  pose proof (length_withItem getStepDistance A w) as H1.
  destruct (withItem getStepDistance A w) as [sA w1].
  pose proof (length_withItem getStepDistance B w1) as H2.
  destruct (withItem getStepDistance B w1) as [sB w2].
  destruct (sweepQuadratic _ _ _ _) as [[qa qb] qc]. simpl in *. congruence.
Qed.

Lemma length_moveToContact (w : list Item) (A B : nat) (dA dB : R) :
  length (moveToContact w A B dA dB) = length w.
Proof. unfold moveToContact. cbv zeta. case_decide; by rewrite !length_modify. Qed.

Lemma length_consumeStep (w : list Item) (A B : nat) (dA sA dB sB : R) :
  length (consumeStep w A B dA sA dB sB) = length w.
Proof. unfold consumeStep. cbv zeta. destruct (truthy sB); by rewrite !length_modify. Qed.

Lemma length_deflect (w : list Item) (A B : nat) : length (deflect w A B) = length w.
Proof. unfold deflect. cbv zeta. case_decide; by rewrite !length_modify. Qed.

Lemma length_updateForCollision (w : list Item) (A B : nat) (d : R) :
  length (updateForCollision w A B d) = length w.
Proof.
  unfold updateForCollision.
  pose proof (length_withItem getStepDistance A w) as H1.
  destruct (withItem getStepDistance A w) as [sA w1].
  pose proof (length_withItem getStepDistance B w1) as H2.
  destruct (withItem getStepDistance B w1) as [sB w2].
  pose proof (length_getDistanceToIntersection w2 B A) as H3.
  destruct (getDistanceToIntersection w2 B A) as [dB w3]. simpl in *.
  rewrite length_deflect, length_consumeStep, length_moveToContact. congruence.
Qed.

Lemma withItem_ok {T : Type} (f : Item -> T * Item) (i : nat) (w : list Item) :
  (forall it, itemOK it -> itemOK (f it).2) ->
  Forall itemOK w -> Forall itemOK (withItem f i w).2.
Proof.
  intros Hf Hw. unfold withItem.
  destruct (f (w !!! i)) as [r it'] eqn:Hfi. simpl.
  destruct (decide (i < length w)%nat) as [Hi|Hi].
  - apply Forall_insert; [done|].
    change it' with (r, it').2. rewrite <- Hfi. apply Hf.
    by apply Forall_lookup_total_1.
  - rewrite list_insert_ge by lia. done.
Qed.

Lemma getDistanceToIntersection_ok (w : list Item) (A B : nat) :
  Forall itemOK w -> Forall itemOK (getDistanceToIntersection w A B).2.
Proof.
  intros Hw. unfold getDistanceToIntersection.
  pose proof (withItem_ok getStepDistance A w getStepDistance_ok Hw) as H1.
  destruct (withItem getStepDistance A w) as [sA w1].
  pose proof (withItem_ok getStepDistance B w1 getStepDistance_ok H1) as H2.
  destruct (withItem getStepDistance B w1) as [sB w2].
  by destruct (sweepQuadratic _ _ _ _) as [[qa qb] qc].
Qed.

Lemma getDistanceToIntersection_unfold (w : list Item) (A B : nat) :
  getDistanceToIntersection w A B =
  let sA := (getStepDistance (w !!! A)).1 in
  let w1 := <[A := (getStepDistance (w !!! A)).2]> w in
  let sB := (getStepDistance (w1 !!! B)).1 in
  let w2 := <[B := (getStepDistance (w1 !!! B)).2]> w1 in
  let q := sweepQuadratic (w2 !!! A) (w2 !!! B) sA sB in
  (sweepDistance q.1.1 q.1.2 q.2 sA, w2).
Proof.
  unfold getDistanceToIntersection, withItem.
  destruct (getStepDistance (w !!! A)) as [sA a1]. cbn [fst snd].
  destruct (getStepDistance (<[A:=a1]> w !!! B)) as [sB b1]. cbn [fst snd].
  by destruct (sweepQuadratic _ _ _ _) as [[qa qb] qc].
Qed.

(** An item does not collide with itself. *)
Lemma getDistanceToIntersection_self (w : list Item) (A : nat) :
  (getDistanceToIntersection w A A).1 = -1.
Proof.
  rewrite getDistanceToIntersection_unfold. cbv zeta. cbn [fst].
  set (w1 := <[A := (getStepDistance (w !!! A)).2]> w).
  assert (Hs : (getStepDistance (w1 !!! A)).1 = (getStepDistance (w !!! A)).1).
  { subst w1. destruct (decide (A < length w)%nat) as [Hi|Hi].
    - rewrite list_lookup_total_insert_eq by done. by rewrite getStepDistance_again.
    - by rewrite list_insert_ge by lia. }
  rewrite Hs.
  apply sweepDistance_no_root. unfold sweepQuadratic, sweepDiscriminant. cbn [fst snd].
  match goal with
  | |- ?b * ?b - 4 * ?a * _ <= 0 =>
      assert (b = 0) as -> by ring; assert (a = 0) as -> by ring
  end.
  lra.
Qed.

(** The pair view of a world at two distinct positions. *)
Lemma getDistanceToIntersection_pair (w : list Item) (A B : nat) :
  A <> B -> (A < length w)%nat -> (B < length w)%nat ->
  let a1 := (getStepDistance (w !!! A)).2 in
  let b1 := (getStepDistance (w !!! B)).2 in
  let sA := (getStepDistance (w !!! A)).1 in
  let sB := (getStepDistance (w !!! B)).1 in
  getStepDistance a1 = (sA, a1) /\ getStepDistance b1 = (sB, b1) /\
  getDistanceToIntersection w A B =
  (let q := sweepQuadratic a1 b1 sA sB in sweepDistance q.1.1 q.1.2 q.2 sA,
   put2 w A a1 B b1).
Proof.
  intros HAB HA HB a1 b1 sA sB.
  assert (Ha : getStepDistance a1 = (sA, a1)).
  { subst a1 sA. rewrite getStepDistance_again. apply surjective_pairing. }
  assert (Hb : getStepDistance b1 = (sB, b1)).
  { subst b1 sB. rewrite getStepDistance_again. apply surjective_pairing. }
  split; [done|]. split; [done|].
  rewrite <- (put2_id w A B HA HB) at 1.
  rewrite getDistanceToIntersection_put2 by done.
  unfold intersectPair. fold a1 b1 sA sB.
  destruct (getStepDistance (w !!! A)) as [x1 x2].
  destruct (getStepDistance (w !!! B)) as [y1 y2]. simpl in *.
  subst a1 b1 sA sB.
  by destruct (sweepQuadratic x2 y2 x1 y1) as [[qa qb] qc].
Qed.

Lemma put2_ok (w : list Item) (A B : nat) (a b : Item) :
  Forall itemOK w -> itemOK a -> itemOK b -> Forall itemOK (put2 w A a B b).
Proof. intros. unfold put2. by repeat apply Forall_insert. Qed.

(** The resolution of a contact found by the sweep test keeps the items
    well formed. *)
Lemma collision_resolution_ok (w : list Item) (A B : nat) :
  A <> B -> (A < length w)%nat -> (B < length w)%nat ->
  Forall itemOK w ->
  let r := getDistanceToIntersection w A B in
  r.1 > 0 ->
  Forall itemOK (updateForCollision r.2 A B r.1).
Proof.
  intros HAB HA HB Hw r Hd.
  destruct (getDistanceToIntersection_pair w A B HAB HA HB) as (Ha & Hb & Hr).
  subst r. rewrite Hr in *. cbn [fst snd] in *.
  set (a1 := (getStepDistance (w !!! A)).2) in *.
  set (b1 := (getStepDistance (w !!! B)).2) in *.
  set (sA := (getStepDistance (w !!! A)).1) in *.
  set (sB := (getStepDistance (w !!! B)).1) in *.
  rewrite updateForCollision_put2 by done.
  assert (Hoka : itemOK a1).
  { apply getStepDistance_ok. by apply Forall_lookup_total_1. }
  assert (Hokb : itemOK b1).
  { apply getStepDistance_ok. by apply Forall_lookup_total_1. }
  destruct (collidePair_ok a1 b1 sA sB Ha Hb Hoka Hokb Hd) as [H1 H2].
  by apply put2_ok.
Qed.

Lemma getClosestItemAfterMove_lt (w : list Item) (A B : nat) (d : R) :
  (B < length w)%nat -> (getClosestItemAfterMove w A B d < length w)%nat.
Proof.
  intros HB. unfold getClosestItemAfterMove. cbv zeta.
  destruct (find _ _) as [item|] eqn:Hf; [|done].
  apply find_some in Hf as [Hin _]. apply in_seq in Hin. lia.
Qed.

Lemma updateIfColliding_ok (fuel : nat) :
  forall (w w' : list Item) (item1 item2 _attempt : nat) (hit : bool),
    (item1 < length w)%nat -> (item2 < length w)%nat ->
    Forall itemOK w ->
    updateIfColliding fuel w item1 item2 _attempt = Some (hit, w') ->
    Forall itemOK w' /\ length w' = length w.
Proof.
  induction fuel as [|fuel IH]; intros w w' item1 item2 att hit H1 H2 Hw; [done|].
  cbn [updateIfColliding].
  set (A := if decide (speed (w !!! item1) >= speed (w !!! item2)) then item1 else item2).
  set (B := if (A =? item1)%nat then item2 else item1).
  assert (HA : (A < length w)%nat) by (subst A; by case_decide).
  assert (HB : (B < length w)%nat) by (subst B; by destruct (A =? item1)%nat).
  pose proof (getDistanceToIntersection_ok w A B Hw) as Hok1.
  pose proof (length_getDistanceToIntersection w A B) as Hlen1.
  destruct (decide (A = B)) as [HAB|HAB].
  { pose proof (getDistanceToIntersection_self w A) as Hself.
    rewrite <- HAB. rewrite <- HAB in Hok1, Hlen1.
    destruct (getDistanceToIntersection w A A) as [d w1]. simpl in *. subst d.
    rewrite decide_False by lra. by intros [= <- <-]. }
  pose proof (collision_resolution_ok w A B HAB HA HB Hw) as Hres.
  destruct (getDistanceToIntersection w A B) as [d w1]. simpl in *.
  case_decide as Hd; [|by intros [= <- <-]].
  destruct (negb _ && _).
  - pose proof (getClosestItemAfterMove_lt w1 A B d) as Hc.
    destruct (updateIfColliding fuel w1 A _ _) as [[hit2 w2]|] eqn:Hrec; [|done].
    intros [= <- <-].
    apply IH in Hrec as [? ?]; [split; [done|congruence] | lia | | done].
    apply Hc. lia.
  - intros [= <- <-]. split; [by apply Hres|].
    rewrite length_updateForCollision. done.
Qed.

Lemma testOrdered_ok (w w' : list Item) (item : nat) (rest : list nat) (hit : bool) :
  (item < length w)%nat -> Forall (fun j => (j < length w)%nat) rest ->
  Forall itemOK w ->
  testOrdered w item rest = Some (hit, w') ->
  Forall itemOK w' /\ length w' = length w.
Proof.
  revert w. induction rest as [|other rest IH]; intros w Hi Hrest Hw.
  { by intros [= <- <-]. }
  cbn [testOrdered]. apply Forall_cons in Hrest as [Ho Hrest].
  destruct (updateIfColliding 20 w item other 0) as [[hit1 w1]|] eqn:Hu; [|done].
  apply updateIfColliding_ok in Hu as [Hok1 Hlen1]; [|done..].
  destruct hit1.
  - by intros [= <- <-].
  - intros H. apply IH in H as [? ?]; [split; [done|congruence] | lia | | done].
    by rewrite Hlen1.
Qed.

Lemma collisionStepFrom_ok (w w' : list Item) (todo : list nat) (hit : bool) :
  Forall (fun j => (j < length w)%nat) todo ->
  Forall itemOK w ->
  collisionStepFrom w todo = Some (hit, w') ->
  Forall itemOK w' /\ length w' = length w.
Proof.
  revert w. induction todo as [|item todo IH]; intros w Htodo Hw.
  { by intros [= <- <-]. }
  cbn [collisionStepFrom]. apply Forall_cons in Htodo as [Hi Htodo].
  destruct (truthy _ && truthy _); [|by apply IH].
  destruct (testOrdered w item _) as [[hit1 w1]|] eqn:Ht; [|done].
  apply testOrdered_ok in Ht as [Hok1 Hlen1]; [|done| |done].
  - destruct hit1; [by intros [= <- <-]|].
    intros H. apply IH in H as [? ?]; [split; [done|congruence] | | done].
    by rewrite Hlen1.
  - apply Forall_forall. intros j Hj.
    assert (j ∈ orderByDistance w (seq 0 (length w)) item) as Hin.
    { eapply elem_of_sublist; [exact Hj | apply sublist_drop]. }
    rewrite orderByDistance_Permutation in Hin. apply elem_of_seq in Hin. lia.
Qed.

Lemma collisionStep_ok (w w' : list Item) (hit : bool) :
  Forall itemOK w -> collisionStep w = Some (hit, w') ->
  Forall itemOK w' /\ length w' = length w.
Proof.
  intros Hw. apply collisionStepFrom_ok; [|done].
  apply Forall_forall. intros j Hj. apply elem_of_seq in Hj. lia.
Qed.

Lemma collisionPasses_ok (fuel : nat) :
  forall (w w' : list Item) (loopBreaker collisions lb' c' : nat),
    Forall itemOK w ->
    collisionPasses fuel w loopBreaker collisions = Some (Finished w' lb' c') ->
    Forall itemOK w'.
Proof.
  induction fuel as [|fuel IH]; intros w w' lb c lb' c' Hw; [done|].
  cbn [collisionPasses].
  destruct (collisionStep w) as [[thisTime w1]|] eqn:Hs; [|done].
  apply collisionStep_ok in Hs as [Hok1 _]; [|done].
  cbn [stepCollisions config andb].
  destruct thisTime.
  - destruct (S lb <? 10)%nat; [by apply IH|]. by intros [= <- _ _].
  - by intros [= <- _ _].
Qed.

Lemma getNextCurvePos_keeps (i : Item) :
  exists c, (getNextCurvePos i).2 = set_cache c i /\
            stepDistance c = stepDistance (cache i).
Proof.
  unfold getNextCurvePos. destruct (nextCurvePos (cache i)); simpl; [|by eexists].
  exists (cache i). by rewrite set_cache_id.
Qed.

Lemma getNextPos_keeps (i : Item) :
  exists c, (getNextPos i).2 = set_cache c i /\
            stepDistance c = stepDistance (cache i).
Proof.
  unfold getNextPos. destruct (nextPos (cache i)); simpl.
  { exists (cache i). by rewrite set_cache_id. }
  destruct (shotCurve i); simpl; [|by eexists].
  destruct (getNextCurvePos_keeps i) as (c & Hc & Hs).
  destruct (getNextCurvePos i) as [p i1]. simpl in *. subst i1. by eexists.
Qed.

Lemma getCourseToNextPositionOnCurve_keeps (i : Item) :
  exists c, (getCourseToNextPositionOnCurve i).2 = set_cache c i /\
            stepDistance c = stepDistance (cache i).
Proof.
  unfold getCourseToNextPositionOnCurve.
  destruct (getNextPos_keeps i) as (c & Hc & Hs).
  destruct (getNextPos i) as [p i1]. simpl in *. by exists c.
Qed.

Lemma applyPhysicsItem_ok (it : Item) : itemOK it -> itemOK (applyPhysicsItem it).
Proof.
  intros Hok. pose proof Hok as [(Hs & Hp & Hc) Hu].
  unfold applyPhysicsItem. destruct (truthy _ && truthy _); [|done]. cbv zeta.
  set (item1 := match shotCurve it with Some _ => _ | None => _ end).
  assert (H1 : power item1 = power it /\ cache item1 = emptyCache).
  { subst item1. destruct (shotCurve it); [|done].
    destruct (getNextCurvePos_keeps it) as (c & Hc1 & _).
    destruct (getNextCurvePos it) as [obj i1]. simpl in *. by subst i1. }
  destruct H1 as [Hp1 Hc1].
  set (item2 := set_shotTraveled _ item1).
  set (item3 := match shotCurve item2 with Some _ => _ | None => _ end).
  assert (H3 : power item3 = power it /\ stepDistance (cache item3) = None).
  { subst item3. destruct (shotCurve item2).
    - destruct (getCourseToNextPositionOnCurve_keeps item2) as (c & Hc3 & Hs3).
      destruct (getCourseToNextPositionOnCurve item2) as [nc i3]. simpl in *.
      subst i3. simpl. split; [done|]. by rewrite Hs3, Hc1.
    - simpl. by rewrite Hc1. }
  destruct H3 as [Hp3 Hc3].
  set (item4 := set_speed _ item3).
  assert (H5 : forall item5,
             item5 = set_speed 0 item4 \/ (item5 = item4 /\ ~ speed item4 < stopSpeed config) ->
             itemOK (set_unused 0 item5)).
  { intros item5 [->|[-> Hstop]]; (split; [split; [|split]|]); simpl.
    all: rewrite ?Hp3, ?Hc3; try done; try lra.
    - unfold budgeted. simpl. lra.
    - simpl in Hstop. lra.
    - unfold budgeted. simpl. lra. }
  apply H5. case_decide; [by left | by right].
Qed.

Lemma applyPhysics_ok (w : list Item) : Forall itemOK w -> Forall itemOK (applyPhysics w).2.
Proof.
  induction 1 as [|it w Hit Hw IH]; [done|].
  cbn [applyPhysics]. destruct (applyPhysics w) as [m w']. simpl in *.
  constructor; [by apply applyPhysicsItem_ok | done].
Qed.

Lemma resetItems_ok (w : list Item) : Forall sound w -> Forall itemOK (resetItems w).
Proof.
  intros Hw. unfold resetItems. apply Forall_map.
  eapply Forall_impl; [exact Hw|].
  intros it Hit. split; [done|]. unfold budgeted. simpl. lra.
Qed.

(** C2. In a world whose items have a speed that is not negative, a positive
    power and no negative step distance in their cache, [unused] is in
    [0, 1] for every item after the reset, after every collision test and
    resolution of a pass, after every pass, and when [tick] returns. *)
Theorem unused_stays_in_unit_interval (p : Physics) :
  Forall sound (items p) ->
  Forall itemOK (resetItems (items p)) /\
  (forall fuel w w' item1 item2 _attempt hit,
      (item1 < length w)%nat -> (item2 < length w)%nat ->
      Forall itemOK w ->
      updateIfColliding fuel w item1 item2 _attempt = Some (hit, w') ->
      Forall itemOK w') /\
  (forall w w' hit,
      Forall itemOK w -> collisionStep w = Some (hit, w') -> Forall itemOK w') /\
  exists moving p',
    tick p = Some (moving, p') /\
    Forall itemOK (items p') /\
    Forall (fun it => 0 <= unused it <= 1) (items p').
Proof.
  intros Hsound.
  pose proof (resetItems_ok (items p) Hsound) as Hreset.
  split; [done|]. split; [|split].
  - intros fuel w w' item1 item2 att hit H1 H2 Hw Hu.
    by apply updateIfColliding_ok in Hu as [? _].
  - intros w w' hit Hw Hs. by apply collisionStep_ok in Hs as [? _].
  - unfold tick. cbn [stepCollisions config negb orb].
    destruct (collisionPasses_total 10 (resetItems (items p)) 0 0)
      as (r & Hr & Hshape); [lia..|].
    rewrite Hr. destruct r as [|w1 lb c]; [done|].
    apply collisionPasses_ok in Hr; [|done].
    pose proof (applyPhysics_ok w1 Hr) as Hfinal.
    destruct (applyPhysics w1) as [m w2]. simpl in *.
    exists m, (mkPhysics w2 true). split; [done|]. split; [done|].
    eapply Forall_impl; [exact Hfinal|]. by intros it [_ ?].
Qed.

Lemma crossingWorld_sound : Forall sound crossingWorld.
Proof.
  unfold crossingWorld.
  repeat first [apply Forall_nil_2 | apply Forall_cons_2].
  all: split; [|split]; simpl; [lra | lra | by intros v [=]].
Qed.

Lemma unused_stays_in_unit_interval_witness :
  exists moving p',
    tick (mkPhysics crossingWorld true) = Some (moving, p') /\
    Forall itemOK (items p') /\
    Forall (fun it => 0 <= unused it <= 1) (items p').
Proof.
  apply (unused_stays_in_unit_interval (mkPhysics crossingWorld true)).
  apply crossingWorld_sound.
Defined.

(** ** The fields of the pair after a collision *)

Lemma intersectPair_body (a b : Item) :
  exists ca cb, (intersectPair a b).1.2 = set_cache ca a /\
                (intersectPair a b).2 = set_cache cb b.
Proof.
  unfold intersectPair.
  destruct (getStepDistance_body a) as [ca Ha].
  destruct (getStepDistance_body b) as [cb Hb].
  destruct (getStepDistance a) as [sA a1]. destruct (getStepDistance b) as [sB b1].
  destruct (sweepQuadratic _ _ _ _) as [[qa qb] qc]. simpl in *. by eexists _, _.
Qed.

(** [collidePair] is the three parts of [updateForCollision] applied to the
    two items, whatever their caches hold. *)
Lemma collidePair_parts (a b : Item) (d : R) :
  exists ca cb sA dB sB,
    sA = (getStepDistance a).1 /\
    collidePair a b d =
    (let m := moveToContactPair (set_cache ca a) (set_cache cb b) d dB in
     let u := consumeStepPair m.1 m.2 d sA dB sB in
     deflectPair u.1 u.2).
Proof.
  unfold collidePair.
  destruct (getStepDistance_body a) as [ca Ha].
  destruct (getStepDistance_body b) as [cb Hb].
  destruct (getStepDistance a) as [sA a1]. destruct (getStepDistance b) as [sB b1].
  simpl in Ha, Hb. subst a1 b1.
  destruct (intersectPair_body (set_cache cb b) (set_cache ca a)) as (cb' & ca' & Hb' & Ha').
  destruct (intersectPair _ _) as [[dB b2] a2]. simpl in Ha', Hb'. subst a2 b2.
  exists ca', cb', sA, dB, sB. split; [done|]. cbv zeta.
  destruct (moveToContactPair _ _ _ _) as [a3 b3]. cbn [fst snd].
  by destruct (consumeStepPair _ _ _ _ _ _) as [a4 b4].
Qed.

(** The speeds after a collision, in terms of the bearing [abCourse] from
    the position of [A] to the position of [B] after the move to the contact. *)
Lemma collidePair_speeds (a b : Item) (d : R) :
  let r := collidePair a b d in
  let abCourse := getCourse (pos_x r.1) (pos_y r.1) (pos_x r.2) (pos_y r.2) in
  let relAngle := angleBetween (course a) abCourse in
  speed r.1 = speed a * Rabs relAngle /\
  speed r.2 = (speed a * power a) / power b * (1 - Rabs relAngle).
Proof.
  destruct (collidePair_parts a b d) as (ca & cb & sA & dB & sB & _ & ->). cbv zeta.
  pose proof (moveToContactPair_fields (set_cache ca a) (set_cache cb b) d dB) as Hm.
  destruct (moveToContactPair _ _ _ _) as [a3 b3]. simpl in Hm.
  destruct Hm as [(Hs3 & Hp3 & Hu3 & Hco3 & _) (Hs3' & Hp3' & Hu3' & _)].
  unfold consumeStepPair, deflectPair. cbn [fst snd]. cbv zeta.
  destruct (truthy sB); simpl; by rewrite ?Hs3, ?Hp3, ?Hp3', ?Hco3.
Qed.

Lemma collidePair_unused (a b : Item) (d : R) :
  unused (collidePair a b d).1 = unused a * (d / (getStepDistance a).1).
Proof.
  destruct (collidePair_parts a b d) as (ca & cb & sA & dB & sB & -> & ->). cbv zeta.
  pose proof (moveToContactPair_fields (set_cache ca a) (set_cache cb b) d dB) as Hm.
  destruct (moveToContactPair _ _ _ _) as [a3 b3]. simpl in Hm.
  destruct Hm as [(_ & _ & Hu3 & _) _].
  unfold consumeStepPair, deflectPair. simpl. by rewrite Hu3.
Qed.

(** The speeds after [updateForCollision]; [abCourse] is the bearing between
    the positions (the corners of the bounding boxes) after the update. *)
Lemma updateForCollision_speeds (w : list Item) (A B : nat) (d : R) :
  A <> B -> (A < length w)%nat -> (B < length w)%nat ->
  let w' := updateForCollision w A B d in
  let abCourse := getCourse (pos_x (w' !!! A)) (pos_y (w' !!! A))
                            (pos_x (w' !!! B)) (pos_y (w' !!! B)) in
  let relAngle := angleBetween (course (w !!! A)) abCourse in
  speed (w' !!! A) = speed (w !!! A) * Rabs relAngle /\
  speed (w' !!! B)
  = (speed (w !!! A) * power (w !!! A)) / power (w !!! B) * (1 - Rabs relAngle).
Proof.
  intros HAB HA HB. cbv zeta.
  pose proof (updateForCollision_put2 w A B HAB HA HB (w !!! A) (w !!! B) d) as H.
  rewrite put2_id in H by done. rewrite H.
  rewrite !lookup_put2_A, !lookup_put2_B by done.
  apply (collidePair_speeds (w !!! A) (w !!! B) d).
Qed.

(** For [relAngle = 1] or [-1] and two items of the same power, [A] keeps its
    speed and [B] stops. *)
Lemma updateForCollision_full_angle (w : list Item) (A B : nat) (d : R) :
  A <> B -> (A < length w)%nat -> (B < length w)%nat ->
  let w' := updateForCollision w A B d in
  let abCourse := getCourse (pos_x (w' !!! A)) (pos_y (w' !!! A))
                            (pos_x (w' !!! B)) (pos_y (w' !!! B)) in
  Rabs (angleBetween (course (w !!! A)) abCourse) = 1 ->
  speed (w' !!! A) = speed (w !!! A) /\ speed (w' !!! B) = 0.
Proof.
  intros HAB HA HB w' abCourse Hrel.
  destruct (updateForCollision_speeds w A B d HAB HA HB) as [H1 H2].
  fold w' in H1, H2. fold abCourse in H1, H2. rewrite Hrel in H1, H2.
  split; [by rewrite H1, Rmult_1_r|]. rewrite H2. ring.
Qed.

(** C10. For an item [A] whose step distance is not negative, a positive
    result of [getDistanceToIntersection] is the smaller root [t2] of the
    contact equation times the step distance of [A], with [0 < t2 <= 1]
    (the leading coefficient [a] is positive, so [t2 <= t1], and a [t2]
    above [1] is rejected with [t1]): the result is at most the step distance,
    and [updateForCollision] multiplies the [unused] of [A] by [t2]. *)
Theorem contact_distance_within_step (w : list Item) (A B : nat) :
  A <> B -> (A < length w)%nat -> (B < length w)%nat ->
  let r := getDistanceToIntersection w A B in
  let stepDistanceA := (getStepDistance (w !!! A)).1 in
  0 <= stepDistanceA ->
  r.1 > 0 ->
  r.1 <= stepDistanceA /\
  (getStepDistance (r.2 !!! A)).1 = stepDistanceA /\
  0 < r.1 / stepDistanceA <= 1 /\
  unused (updateForCollision r.2 A B r.1 !!! A)
  = unused (w !!! A) * (r.1 / stepDistanceA) /\
  let q := sweepQuadratic (r.2 !!! A) (r.2 !!! B) stepDistanceA
                          (getStepDistance (w !!! B)).1 in
  q.1.1 > 0 /\
  sweepT2 q.1.1 q.1.2 q.2 <= sweepT1 q.1.1 q.1.2 q.2 /\
  0 < sweepT2 q.1.1 q.1.2 q.2 <= 1 /\
  r.1 = sweepT2 q.1.1 q.1.2 q.2 * stepDistanceA.
Proof.
  intros HAB HA HB r sA HsA Hd.
  destruct (getDistanceToIntersection_pair w A B HAB HA HB) as (Ha & Hb & Hr).
  subst r. rewrite Hr in *. cbn [fst snd] in *. fold sA in Ha, Hd |- *.
  set (a1 := (getStepDistance (w !!! A)).2) in *.
  set (b1 := (getStepDistance (w !!! B)).2) in *.
  set (sB := (getStepDistance (w !!! B)).1) in *.
  destruct (sweepDistance_positive a1 b1 sA sB HsA Hd) as (HsA' & Ht & Hord & Hdist).
  set (q := sweepQuadratic a1 b1 sA sB) in *.
  assert (Hratio : sweepDistance q.1.1 q.1.2 q.2 sA / sA = sweepT2 q.1.1 q.1.2 q.2).
  { rewrite Hdist. field. lra. }
  split; [rewrite Hdist; nra|].
  split; [by rewrite lookup_put2_A, Ha by done|].
  split; [by rewrite Hratio|].
  split.
  - rewrite updateForCollision_put2, lookup_put2_A by done.
    rewrite collidePair_unused, Ha. cbn [fst]. f_equal.
    subst a1. by destruct (getStepDistance_fields (w !!! A)) as (_ & _ & _ & _ & _ & _ & -> & _).
  - rewrite lookup_put2_A, lookup_put2_B by done. fold sB q. cbv zeta.
    split; [|split; [done|split; [done|apply Hdist]]].
    apply Rlt_gt. subst q. apply sweepQuadratic_a_pos.
    unfold sweepDistance in Hd. case_decide; lra.
Qed.

Lemma crossingWorld_ok : Forall itemOK crossingWorld.
Proof.
  unfold crossingWorld.
  repeat first [apply Forall_nil_2 | apply Forall_cons_2].
  all: split; [split; [|split]; simpl; [lra | lra | by intros v [=]]|].
  all: unfold budgeted; simpl; lra.
Qed.

Lemma contact_distance_within_step_witness :
  (getDistanceToIntersection crossingWorld 0 1).1
  <= (getStepDistance (crossingWorld !!! 0%nat)).1.
Proof.
  apply (contact_distance_within_step crossingWorld 0 1); try done.
  - simpl. lia.
  - simpl. lia.
  - simpl. lra.
  - rewrite crossingWorld_distance. lra.
Defined.

(** ** The overlap diagnostic *)

Lemma samePlace_refl (w : list Item) : samePlace w w.
Proof. by intros k. Qed.

Lemma samePlace_trans (w1 w2 w3 : list Item) :
  samePlace w1 w2 -> samePlace w2 w3 -> samePlace w1 w3.
Proof.
  intros H12 H23 k. destruct (H12 k) as (-> & -> & ->). apply H23.
Qed.

Lemma samePlace_set_course (c : R) (i : nat) (w : list Item) :
  samePlace (modify (set_course c) i w) w.
Proof.
  intros k. unfold modify. rewrite list_lookup_total_insert.
  case_decide as H; [|done]. by destruct H as [-> _].
Qed.

Lemma collisionCheckInner_place (w : list Item) (A : nat) (js : list nat) :
  samePlace (collisionCheckInner w A js).2 w.
Proof.
  induction js as [|B js IH]; [apply samePlace_refl|].
  cbn [collisionCheckInner]. destruct (phased _ _); [|done]. cbv zeta. cbn [snd].
  case_decide; (eapply samePlace_trans; [apply samePlace_set_course|]);
    apply samePlace_set_course.
Qed.

Lemma collisionCheckFrom_place (todo : list nat) (w : list Item) :
  samePlace (collisionCheckFrom w todo) w.
Proof.
  revert w. induction todo as [|i todo IH]; intros w; [apply samePlace_refl|].
  cbn [collisionCheckFrom]. destruct (disabled _); [apply IH|].
  pose proof (collisionCheckInner_place w i (seq (S i) (length w - S i))) as Hin.
  destruct (collisionCheckInner _ _ _) as [found w1]. cbn [snd] in Hin.
  destruct found; [done|].
  eapply samePlace_trans; [apply IH | done].
Qed.

(** [collisionCheck] turns courses only: it moves no item, so that an
    overlap it finds is still there when it returns. *)
Lemma collisionCheck_keeps_overlap (w : list Item) (i j : nat) :
  overlapping (w !!! i) (w !!! j) ->
  overlapping (collisionCheck w !!! i) (collisionCheck w !!! j).
Proof.
  unfold overlapping, distanceBetween, collisionCheck.
  destruct (collisionCheckFrom_place (seq 0 (length w)) w i) as (-> & -> & ->).
  by destruct (collisionCheckFrom_place (seq 0 (length w)) w j) as (-> & -> & ->).
Qed.

(** ** A tick that ends with two items overlapping *)

Lemma getStepDistance_gliding (k : bool) (x y r sp co : R) :
  getStepDistance (set_cache (cached k (sp * 1)) (gliding x y r sp co))
  = (sp * 1, set_cache (cached true (sp * 1)) (gliding x y r sp co)).
Proof.
  unfold getStepDistance. destruct k; simpl; [|done].
  by destruct (truthy (sp * 1)).
Qed.

(** One call of [updateIfColliding]. *)
Lemma updateIfColliding_step (fuel : nat) (w : list Item) (item1 item2 _attempt : nat) :
  updateIfColliding (S fuel) w item1 item2 _attempt =
  let _attempt := if (_attempt =? 0)%nat then 1%nat else _attempt in
  let A := if decide (speed (w !!! item1) >= speed (w !!! item2)) then item1 else item2 in
  let B := if (A =? item1)%nat then item2 else item1 in
  let r := getDistanceToIntersection w A B in
  if decide (r.1 > 0) then
    let item := getClosestItemAfterMove r.2 A B r.1 in
    if negb (item =? B)%nat && (_attempt <? 20)%nat then
      match updateIfColliding fuel r.2 A item (_attempt + 1) with
      | Some (_, w2) => Some (true, w2)
      | None => None
      end
    else Some (true, updateForCollision r.2 A B r.1)
  else Some (false, r.2).
Proof. cbn [updateIfColliding]. by destruct (getDistanceToIntersection _ _ _). Qed.

Lemma tunnelWorld_quadratic_AC (kA kC : bool) :
  sweepQuadratic (set_cache (cached kA (8 * 1)) (gliding (-1) (-1) 1 8 0))
                 (set_cache (cached kC (8 * 1)) (gliding 5 (3 / 4) 1 8 (PI / 2)))
                 (8 * 1) (8 * 1)
  = (128, -68, 561 / 16).
Proof.
  rewrite sweepQuadratic_cache. unfold sweepQuadratic. simpl.
  rewrite cos_0, sin_0, cos_PI2, sin_PI2.
  f_equal; [f_equal|]; lra.
Qed.

Lemma tunnelWorld_quadratic_AB (kA kB : bool) :
  sweepQuadratic (set_cache (cached kA (8 * 1)) (gliding (-1) (-1) 1 8 0))
                 (set_cache (cached kB (0 * 1)) (gliding 7 (-1) 1 0 0)) (8 * 1) (0 * 1)
  = (64, -128, 60).
Proof.
  rewrite sweepQuadratic_cache. unfold sweepQuadratic. simpl. rewrite cos_0, sin_0.
  f_equal; [f_equal|]; lra.
Qed.

Lemma tunnelWorld_distance_AC : sweepDistance 128 (-68) (561 / 16) (8 * 1) = -1.
Proof. apply sweepDistance_no_root. unfold sweepDiscriminant. lra. Qed.

Lemma tunnelWorld_distance_AB : sweepDistance 64 (-128) 60 (8 * 1) = 6.
Proof.
  assert (Hd : sweepDiscriminant 64 (-128) 60 = 1024).
  { unfold sweepDiscriminant. lra. }
  assert (H1 : sweepT1 64 (-128) 60 = 5 / 4).
  { unfold sweepT1. rewrite Hd, (sqrt_eq 1024 32) by lra. lra. }
  assert (H2 : sweepT2 64 (-128) 60 = 3 / 4).
  { unfold sweepT2. rewrite Hd, (sqrt_eq 1024 32) by lra. lra. }
  unfold sweepDistance. rewrite Hd, H1, H2.
  rewrite !decide_False by lra. lra.
Qed.

(** The sweep test of [A] against [C] finds nothing and fills two caches. *)
Lemma tunnelWorld_test_AC (kA kB kC : bool) :
  getDistanceToIntersection (tunnelWorld kA kB kC) 0 2
  = (-1, tunnelWorld true kB true).
Proof.
  rewrite getDistanceToIntersection_unfold. unfold tunnelWorld.
  cbn [lookup_total list_lookup_total insert list_insert fst snd].
  rewrite !getStepDistance_gliding. cbn [fst snd].
  rewrite tunnelWorld_quadratic_AC. cbn [fst snd].
  by rewrite tunnelWorld_distance_AC.
Qed.

(** The sweep test of [A] against [B] finds a contact after 6 units. *)
Lemma tunnelWorld_test_AB (kA kB kC : bool) :
  getDistanceToIntersection (tunnelWorld kA kB kC) 0 1
  = (6, tunnelWorld true true kC).
Proof.
  rewrite getDistanceToIntersection_unfold. unfold tunnelWorld.
  cbn [lookup_total list_lookup_total insert list_insert fst snd].
  rewrite !getStepDistance_gliding. cbn [fst snd].
  rewrite tunnelWorld_quadratic_AB. cbn [fst snd].
  by rewrite tunnelWorld_distance_AB.
Qed.

(** At the place of the contact, [C] (where it is now) is nearer to [A] than
    the combined radius. *)
Lemma tunnelWorld_closest (kA kB kC : bool) :
  getClosestItemAfterMove (tunnelWorld kA kB kC) 0 1 6 = 2%nat.
Proof.
  unfold getClosestItemAfterMove, tunnelWorld.
  cbn [length seq find lookup_total list_lookup_total Nat.eqb negb andb].
  rewrite bool_decide_eq_true_2; [done|].
  simpl. rewrite cos_0, sin_0. apply abcSquare_lt; lra.
Qed.

Lemma tunnelWorld_miss_C (fuel : nat) (kA kB kC : bool) (_attempt : nat) :
  updateIfColliding (S fuel) (tunnelWorld kA kB kC) 0 2 _attempt
  = Some (false, tunnelWorld true kB true).
Proof.
  rewrite updateIfColliding_step. cbv zeta.
  rewrite (decide_True (P := speed _ >= speed _)) by (simpl; lra). cbn [Nat.eqb].
  rewrite tunnelWorld_test_AC. cbn [fst snd]. by rewrite decide_False by lra.
Qed.

(** The test of [A] against [B] finds the contact, looks at [C] instead,
    finds nothing there, and reports a collision without resolving any. *)
Lemma tunnelWorld_hit_B (kA kB kC : bool) :
  updateIfColliding 20 (tunnelWorld kA kB kC) 0 1 0
  = Some (true, tunnelWorld true true true).
Proof.
  rewrite updateIfColliding_step. cbv zeta.
  rewrite (decide_True (P := speed _ >= speed _)) by (simpl; lra). cbn [Nat.eqb].
  rewrite tunnelWorld_test_AB. cbn [fst snd]. rewrite decide_True by lra.
  rewrite tunnelWorld_closest. cbn [Nat.eqb negb Nat.ltb Nat.leb andb Nat.add].
  by rewrite tunnelWorld_miss_C.
Qed.

Lemma tunnelWorld_distances (kA kB kC : bool) :
  let w := tunnelWorld kA kB kC in
  distanceBetween (w !!! 0%nat) (w !!! 0%nat) = 0 /\
  distanceBetween (w !!! 0%nat) (w !!! 1%nat) = 8 /\
  distanceBetween (w !!! 0%nat) (w !!! 2%nat) = 25 / 4.
Proof.
  unfold distanceBetween. simpl. repeat split; apply abcSquare_eq; lra.
Qed.

Lemma tunnelWorld_order (kA kB kC : bool) :
  orderByDistance (tunnelWorld kA kB kC) (seq 0 (length (tunnelWorld kA kB kC))) 0
  = [0; 2; 1]%nat.
Proof.
  destruct (tunnelWorld_distances kA kB kC) as (H0 & H1 & H2).
  unfold orderByDistance. cbn [length tunnelWorld seq sortBy insertBy].
  fold (tunnelWorld kA kB kC).
  assert (C12 : compareDistance (tunnelWorld kA kB kC) 0 1 2 = 1%Z).
  { unfold compareDistance. rewrite H1, H2.
    rewrite decide_False, decide_True by lra. done. }
  assert (C02 : compareDistance (tunnelWorld kA kB kC) 0 0 2 = (-1)%Z).
  { unfold compareDistance. rewrite H0, H2. by rewrite decide_True by lra. }
  rewrite C12. cbn [Z.ltb Z.compare insertBy]. by rewrite C02.
Qed.

(** Every pass over [tunnelWorld] reports a collision and moves nothing. *)
Lemma tunnelWorld_pass (kA kB kC : bool) :
  collisionStep (tunnelWorld kA kB kC) = Some (true, tunnelWorld true true true).
Proof.
  unfold collisionStep.
  change (seq 0 (length (tunnelWorld kA kB kC))) with [0; 1; 2]%nat.
  cbn [collisionStepFrom].
  rewrite (truthy_true (speed (tunnelWorld kA kB kC !!! 0%nat))) by (simpl; lra).
  rewrite (truthy_true (unused (tunnelWorld kA kB kC !!! 0%nat))) by (simpl; lra).
  cbn [andb]. rewrite tunnelWorld_order. cbn [drop testOrdered].
  rewrite tunnelWorld_miss_C. by rewrite tunnelWorld_hit_B.
Qed.

(** The ten passes are used up. *)
Lemma tunnelWorld_passes :
  collisionPasses 10 (tunnelWorld false false false) 0 0
  = Some (Finished (tunnelWorld true true true) 10 10).
Proof.
  do 10 (rewrite (collisionPasses_next _ _ _ _ _ (tunnelWorld_pass _ _ _));
         cbn [Nat.ltb Nat.leb Nat.add]).
  done.
Qed.

Lemma tunnelWorld_applyPhysics :
  applyPhysics (tunnelWorld true true true)
  = (true, [tunnelA_after;
            set_cache (cached true (0 * 1)) (gliding 7 (-1) 1 0 0);
            tunnelC_after]).
Proof.
  unfold tunnelWorld. cbn [applyPhysics].
  rewrite (applyPhysicsItem_rest (set_cache _ (gliding 7 (-1) 1 0 0))) by done.
  assert (HA : applyPhysicsItem (set_cache (cached true (8 * 1)) (gliding (-1) (-1) 1 8 0))
               = tunnelA_after).
  { unfold applyPhysicsItem.
    rewrite (truthy_true (speed _)), (truthy_true (unused _)) by (simpl; lra). simpl.
    rewrite decide_False by lra.
    unfold tunnelA_after, set_unused, set_speed, set_shotTraveled, setPos. simpl.
    rewrite cos_0, sin_0. f_equal; lra. }
  assert (HC : applyPhysicsItem
                 (set_cache (cached true (8 * 1)) (gliding 5 (3 / 4) 1 8 (PI / 2)))
               = tunnelC_after).
  { unfold applyPhysicsItem.
    rewrite (truthy_true (speed _)), (truthy_true (unused _)) by (simpl; lra). simpl.
    rewrite decide_False by lra.
    unfold tunnelC_after, set_unused, set_speed, set_shotTraveled, setPos. simpl.
    rewrite cos_PI2, sin_PI2. f_equal; lra. }
  rewrite HA, HC. cbn [speed tunnelA_after tunnelC_after].
  rewrite (truthy_true (36 / 5)) by lra. done.
Qed.

(** No two items of [tunnelWorld] overlap. *)
Lemma tunnelWorld_apart :
  let w := tunnelWorld false false false in
  ~ overlapping (w !!! 0%nat) (w !!! 1%nat) /\
  ~ overlapping (w !!! 0%nat) (w !!! 2%nat) /\
  ~ overlapping (w !!! 1%nat) (w !!! 2%nat).
Proof.
  unfold overlapping, distanceBetween. simpl.
  repeat split; apply Rle_not_lt, abcSquare_ge; lra.
Qed.

(** C3 fails on the code.  [tunnelWorld] has no overlap; in its tick every
    one of the ten passes finds the contact of [A] with [B], is diverted to
    [C] by the lookahead, finds no collision with [C], resolves nothing and
    still reports a collision; [applyPhysics] then moves [A] by its whole
    step, onto [B]: the centres end at the distance 0 for a combined radius
    of 2.  [tick] does not call [collisionCheck], and a call of it afterwards
    leaves the overlap. *)
Lemma tick_leaves_overlap :
  let w := tunnelWorld false false false in
  (~ overlapping (w !!! 0%nat) (w !!! 1%nat) /\
   ~ overlapping (w !!! 0%nat) (w !!! 2%nat) /\
   ~ overlapping (w !!! 1%nat) (w !!! 2%nat)) /\
  exists p',
    tick (mkPhysics w true) = Some (true, p') /\
    disabled (items p' !!! 0%nat) = false /\
    disabled (items p' !!! 1%nat) = false /\
    distanceBetween (items p' !!! 0%nat) (items p' !!! 1%nat) = 0 /\
    radius (items p' !!! 0%nat) + radius (items p' !!! 1%nat) = 2 /\
    overlapping (items p' !!! 0%nat) (items p' !!! 1%nat) /\
    overlapping (collisionCheck (items p') !!! 0%nat)
                (collisionCheck (items p') !!! 1%nat).
Proof.
  split; [apply tunnelWorld_apart|].
  eexists. split.
  - unfold tick. cbn [stepCollisions config negb orb items].
    change (resetItems (tunnelWorld false false false))
      with (tunnelWorld false false false).
    rewrite tunnelWorld_passes, tunnelWorld_applyPhysics. done.
  - cbn [items].
    assert (Hd : distanceBetween tunnelA_after
                   (set_cache (cached true (0 * 1)) (gliding 7 (-1) 1 0 0)) = 0).
    { unfold distanceBetween. simpl. apply abcSquare_eq; lra. }
    assert (Ho : overlapping tunnelA_after
                   (set_cache (cached true (0 * 1)) (gliding 7 (-1) 1 0 0))).
    { unfold overlapping. rewrite Hd. simpl. lra. }
    split; [done|]. split; [done|]. split; [done|].
    split; [simpl; lra|]. split; [done|].
    by apply collisionCheck_keeps_overlap.
Qed.

(** ** A collision of two items of different radii *)

Lemma offCentreWorld_quadratic (kA kB : bool) :
  sweepQuadratic (set_cache (cached kA (10 * 1)) (gliding 0 0 4 10 0))
                 (set_cache (cached kB (0 * 1)) (gliding 12 0 9 0 0)) (10 * 1) (0 * 1)
  = (100, -340, 145).
Proof.
  rewrite sweepQuadratic_cache. unfold sweepQuadratic. simpl. rewrite cos_0, sin_0.
  f_equal; [f_equal|]; lra.
Qed.

Lemma offCentreWorld_distance (s : R) : sweepDistance 100 (-340) 145 s = 1 / 2 * s.
Proof.
  assert (Hd : sweepDiscriminant 100 (-340) 145 = 57600).
  { unfold sweepDiscriminant. lra. }
  assert (H1 : sweepT1 100 (-340) 145 = 29 / 10).
  { unfold sweepT1. rewrite Hd, (sqrt_eq 57600 240) by lra. lra. }
  assert (H2 : sweepT2 100 (-340) 145 = 1 / 2).
  { unfold sweepT2. rewrite Hd, (sqrt_eq 57600 240) by lra. lra. }
  unfold sweepDistance. rewrite Hd, H1, H2.
  by rewrite !decide_False by lra.
Qed.

Lemma offCentreWorld_test (kA kB : bool) :
  getDistanceToIntersection (offCentreWorld kA kB) 0 1
  = (1 / 2 * (10 * 1), offCentreWorld true true).
Proof.
  rewrite getDistanceToIntersection_unfold. unfold offCentreWorld.
  cbn [lookup_total list_lookup_total insert list_insert fst snd].
  rewrite !getStepDistance_gliding. cbn [fst snd].
  rewrite offCentreWorld_quadratic. cbn [fst snd].
  by rewrite offCentreWorld_distance.
Qed.

Lemma getCourse_level (x1 y x2 : R) : x1 < x2 -> getCourse x1 y x2 y = 0.
Proof.
  intros H. unfold getCourse, atan2. rewrite decide_True by lra.
  replace ((y - y) / (x2 - x1)) with 0 by (field; lra). apply atan_0.
Qed.

Lemma angleBetween_same (x : R) : angleBetween x x = 0.
Proof.
  unfold angleBetween. replace (x - x + PI / 2) with (PI / 2) by ring. apply cos_PI2.
Qed.

(** The pair of [offCentreWorld] after the collision. *)
Lemma offCentreWorld_collide :
  let r := collidePair (set_cache (cached true (10 * 1)) (gliding 0 0 4 10 0))
                       (set_cache (cached true (0 * 1)) (gliding 12 0 9 0 0))
                       (1 / 2 * (10 * 1)) in
  pos_x r.1 = 5 /\ pos_y r.1 = 0 /\ pos_x r.2 = 12 /\ pos_y r.2 = 0 /\
  radius r.1 = 4 /\ radius r.2 = 9.
Proof.
  rewrite (collidePair_cached _ _ (10 * 1) (0 * 1))
    by apply getStepDistance_gliding.
  cbv zeta. rewrite offCentreWorld_quadratic. cbn [fst snd].
  rewrite offCentreWorld_distance.
  unfold moveToContactPair. cbv zeta.
  rewrite decide_False.
  - unfold consumeStepPair, deflectPair.
    rewrite (truthy_false (0 * 1)) by lra. simpl. rewrite cos_0, sin_0.
    repeat split; lra.
  - unfold distanceBetween. simpl. rewrite cos_0, sin_0.
    apply Rle_not_lt, abcSquare_ge; lra.
Qed.

(** C4 on [offCentreWorld].  The code takes the bearing between the corners
    of the bounding boxes, which is [0]: [relAngle = 0], [A] stops and [B]
    takes the whole speed.  The bearing of the line of the centres gives
    [relAngle = 5/13], with which the transfer formula leaves [A] the speed
    [50/13] and gives [B] the speed [80/13]. *)
Lemma offCentre_hit_speeds :
  exists w',
    updateIfColliding 20 (offCentreWorld false false) 0 1 0 = Some (true, w') /\
    speed (w' !!! 0%nat) = 0 /\
    speed (w' !!! 1%nat) = 10 /\
    let a := offCentreWorld false false !!! 0%nat in
    let b := offCentreWorld false false !!! 1%nat in
    let relAngle := angleBetween (course a)
                      (centreLineCourse (w' !!! 0%nat) (w' !!! 1%nat)) in
    relAngle = 5 / 13 /\
    speed a * Rabs relAngle = 50 / 13 /\
    (speed a * power a) / power b * (1 - Rabs relAngle) = 80 / 13.
Proof.
  eexists. split.
  - rewrite updateIfColliding_step. cbv zeta.
    rewrite (decide_True (P := speed _ >= speed _)) by (simpl; lra). cbn [Nat.eqb].
    rewrite offCentreWorld_test. cbn [fst snd]. rewrite decide_True by lra.
    replace (getClosestItemAfterMove _ _ _ _) with 1%nat by done.
    cbn [Nat.eqb negb andb].
    change (offCentreWorld true true)
      with (put2 (offCentreWorld true true) 0
              (set_cache (cached true (10 * 1)) (gliding 0 0 4 10 0)) 1
              (set_cache (cached true (0 * 1)) (gliding 12 0 9 0 0))) at 1.
    rewrite updateForCollision_put2 by (simpl; lia). done.
  - destruct offCentreWorld_collide as (Hax & Hay & Hbx & Hby & Hra & Hrb).
    pose proof (collidePair_speeds
                  (set_cache (cached true (10 * 1)) (gliding 0 0 4 10 0))
                  (set_cache (cached true (0 * 1)) (gliding 12 0 9 0 0))
                  (1 / 2 * (10 * 1))) as Hs.
    cbv zeta in Hs.
    set (r := collidePair _ _ _) in *.
    assert (L0 : put2 (offCentreWorld true true) 0 r.1 1 r.2 !!! 0%nat = r.1) by done.
    assert (L1 : put2 (offCentreWorld true true) 0 r.1 1 r.2 !!! 1%nat = r.2) by done.
    rewrite L0, L1.
    rewrite Hax, Hay, Hbx, Hby in Hs.
    rewrite getCourse_level in Hs by lra.
    change (course (set_cache (cached true (10 * 1)) (gliding 0 0 4 10 0))) with 0 in Hs.
    rewrite angleBetween_same, Rabs_R0 in Hs. destruct Hs as [Hs1 Hs2].
    split; [rewrite Hs1; simpl; lra|]. split; [rewrite Hs2; simpl; lra|].
    cbv zeta.
    assert (Hrel : angleBetween
                     (course (offCentreWorld false false !!! 0%nat))
                     (centreLineCourse r.1 r.2) = 5 / 13).
    { unfold centreLineCourse. rewrite Hax, Hay, Hbx, Hby, Hra, Hrb.
      change (course (offCentreWorld false false !!! 0%nat)) with 0.
      unfold getCourse, atan2. rewrite decide_True by lra.
      unfold angleBetween.
      replace (0 - atan ((0 + 9 - (0 + 4)) / (12 + 9 - (5 + 4))) + PI / 2)
        with (PI / 2 - atan (5 / 12)) by (replace ((0 + 9 - (0 + 4)) / (12 + 9 - (5 + 4)))
                                            with (5 / 12) by lra; ring).
      rewrite cos_shift.
      replace (PI / 2 - (PI / 2 - atan (5 / 12))) with (atan (5 / 12)) by ring.
      rewrite sin_atan.
      replace (1 + (5 / 12)²) with ((13 / 12) * (13 / 12)) by (unfold Rsqr; lra).
      rewrite sqrt_square by lra. lra. }
    rewrite Hrel, Rabs_pos_eq by lra. simpl. repeat split; lra.
Qed.

(** * Further properties of the code *)

(** ** Courses and distances *)

Lemma atan_tan_shift (r x : R) :
  0 < r -> cos x <> 0 -> (r * sin x) / (r * cos x) = tan x.
Proof. intros Hr Hc. unfold tan. field. split; lra. Qed.

Lemma atan2_polar (r th : R) :
  0 < r -> - PI < th <= PI -> atan2 (r * sin th) (r * cos th) = th.
Proof.
  intros Hr Hth. pose proof PI_RGT_0 as Hpi. unfold atan2.
  destruct (Rtotal_order th (- (PI / 2))) as [Hlo|[Hlo|Hlo]].
  - (* third quadrant *)
    assert (Hc : cos th < 0).
    { rewrite <- (cos_period th 1). simpl INR.
      replace (th + 2 * 1 * PI) with (th + 2 * PI) by ring.
      apply cos_lt_0; lra. }
    assert (Hs : sin th < 0).
    { apply sin_lt_0_var; lra. }
    rewrite decide_False by nra. rewrite decide_True by nra.
    rewrite decide_False by nra.
    rewrite atan_tan_shift by lra.
    replace (tan th) with (tan (th + PI)).
    + rewrite atan_tan by lra. ring.
    + unfold tan. rewrite neg_sin, neg_cos. field. lra.
  - subst th. rewrite cos_neg, sin_neg, cos_PI2, sin_PI2.
    rewrite decide_False by lra. rewrite decide_False by lra.
    rewrite decide_False by lra. rewrite decide_True by lra. done.
  - destruct (Rtotal_order th (PI / 2)) as [Hhi|[Hhi|Hhi]].
    + assert (Hc : 0 < cos th) by (apply cos_gt_0; lra).
      rewrite decide_True by nra.
      rewrite atan_tan_shift by lra. apply atan_tan. lra.
    + subst th. rewrite cos_PI2, sin_PI2.
      rewrite decide_False by lra. rewrite decide_False by lra.
      rewrite decide_True by lra. done.
    + assert (Hc : cos th < 0) by (apply cos_lt_0; lra).
      assert (Hs : 0 <= sin th) by (apply sin_ge_0; lra).
      rewrite decide_False by nra. rewrite decide_True by nra.
      rewrite decide_True by nra.
      rewrite atan_tan_shift by lra.
      replace (tan th) with (tan (th - PI)).
      * rewrite atan_tan by lra. ring.
      * unfold tan. replace (th - PI) with (- (PI - th)) by ring.
        rewrite sin_neg, cos_neg.
        rewrite sin_PI_x. replace (PI - th) with (- th + PI) by ring.
        rewrite neg_cos, cos_neg. field. lra.
Qed.

Lemma sqrt_ratio (x y : R) :
  x <> 0 -> sqrt (x ^ 2 + y ^ 2) = Rabs x * sqrt (1 + (y / x) ^ 2).
Proof.
  intros Hx. rewrite <- sqrt_Rsqr_abs, <- sqrt_mult.
  - f_equal. unfold Rsqr. field. done.
  - apply Rle_0_sqr.
  - pose proof (pow2_ge_0 (y / x)). lra.
Qed.

Lemma atan2_bound (y x : R) : - PI < atan2 y x <= PI.
Proof.
  pose proof PI_RGT_0 as Hpi. unfold atan2.
  pose proof (atan_bound (y / x)) as Hb.
  repeat case_decide; try lra.
  - assert (y / x <= 0).
    { unfold Rdiv. replace (y * / x) with (- (y * / - x)).
      - assert (0 <= y * / - x); [|lra]. apply Rmult_le_pos; [lra|].
        apply Rlt_le, Rinv_0_lt_compat. lra.
      - rewrite Rinv_opp. ring. }
    assert (atan (y / x) <= 0).
    { rewrite <- atan_0. destruct H2 as [H2| ->]; [|lra].
      apply Rlt_le. by apply atan_increasing. }
    lra.
  - assert (0 < y / x).
    { unfold Rdiv. replace (y * / x) with ((- y) * / - x).
      - apply Rmult_lt_0_compat; [lra|]. apply Rinv_0_lt_compat. lra.
      - rewrite Rinv_opp. ring. }
    assert (0 < atan (y / x)).
    { rewrite <- atan_0. by apply atan_increasing. }
    lra.
Qed.

Lemma atan2_decode (y x : R) :
  cos (atan2 y x) * abcSquare x y = x /\ sin (atan2 y x) * abcSquare x y = y.
Proof.
  rewrite abcSquare_sqrt. unfold atan2.
  assert (Hs : forall u, 0 < sqrt (1 + u ^ 2)).
  { intros u. apply sqrt_lt_R0. pose proof (pow2_ge_0 u). lra. }
  case_decide as Hx; [|case_decide as Hx'].
  - rewrite sqrt_ratio by lra. rewrite Rabs_pos_eq by lra.
    rewrite cos_atan, sin_atan. pose proof (Hs (y / x)).
    replace ((y / x)²) with ((y / x) ^ 2) by (unfold Rsqr; ring).
    split; field; first [split; lra | lra].
  - rewrite sqrt_ratio by lra. rewrite Rabs_left by lra.
    pose proof (Hs (y / x)).
    case_decide.
    + rewrite neg_cos, neg_sin, cos_atan, sin_atan.
      replace ((y / x)²) with ((y / x) ^ 2) by (unfold Rsqr; ring).
      split; field; first [split; lra | lra].
    + replace (atan (y / x) - PI) with (- (PI - atan (y / x))) by ring.
      rewrite cos_neg, sin_neg.
      replace (PI - atan (y / x)) with (- atan (y / x) + PI) by ring.
      rewrite neg_cos, neg_sin, cos_neg, sin_neg, cos_atan, sin_atan.
      replace ((y / x)²) with ((y / x) ^ 2) by (unfold Rsqr; ring).
      split; field; first [split; lra | lra].
  - assert (x = 0) as -> by lra.
    replace (0 ^ 2 + y ^ 2) with (Rsqr y) by (unfold Rsqr; ring).
    rewrite sqrt_Rsqr_abs.
    repeat case_decide.
    + rewrite cos_PI2, sin_PI2, Rabs_pos_eq by lra. lra.
    + rewrite cos_neg, sin_neg, cos_PI2, sin_PI2, Rabs_left by lra. lra.
    + assert (y = 0) as -> by lra. rewrite Rabs_R0. lra.
Qed.

(** The course of a line of the length [r] drawn in the direction [th]. *)
Lemma getCourse_polar (x y r th : R) :
  0 < r -> - PI < th <= PI ->
  getCourse x y (x + cos th * r) (y + sin th * r) = th.
Proof.
  intros Hr Hth. unfold getCourse.
  replace (y + sin th * r - y) with (r * sin th) by ring.
  replace (x + cos th * r - x) with (r * cos th) by ring.
  by apply atan2_polar.
Qed.

(** The course and the length of a line give back its end, and a line drawn
    in a direction with a length has that course and that length. *)
Theorem getCourse_round_trip :
  (forall x1 y1 x2 y2 : R,
      let c := getCourse x1 y1 x2 y2 in
      let d := abcSquare (x2 - x1) (y2 - y1) in
      - PI < c <= PI /\ x1 + cos c * d = x2 /\ y1 + sin c * d = y2) /\
  (forall x y r th : R,
      0 < r -> - PI < th <= PI ->
      getCourse x y (x + cos th * r) (y + sin th * r) = th /\
      abcSquare (cos th * r) (sin th * r) = r).
Proof.
  split.
  - intros x1 y1 x2 y2 c d. split; [apply atan2_bound|].
    destruct (atan2_decode (y2 - y1) (x2 - x1)) as [Hx Hy].
    subst c d. unfold getCourse. lra.
  - intros x y r th Hr Hth. split; [by apply getCourse_polar|].
    apply abcSquare_eq; [lra|]. pose proof (sin2_cos2 th) as H. unfold Rsqr in H. nra.
Qed.

Lemma getCourse_round_trip_witness :
  getCourse 1 2 (1 + cos (PI / 2) * 3) (2 + sin (PI / 2) * 3) = PI / 2.
Proof.
  pose proof PI_RGT_0.
  apply (proj2 getCourse_round_trip 1 2 3 (PI / 2)); lra.
Defined.

Lemma distanceBetween_dist_euc (a b : Item) :
  distanceBetween a b
  = dist_euc (pos_x a + radius a) (pos_y a + radius a)
             (pos_x b + radius b) (pos_y b + radius b).
Proof.
  unfold distanceBetween, dist_euc. rewrite abcSquare_sqrt. f_equal. unfold Rsqr. ring.
Qed.

(** [distanceBetween] is a metric on the centres of the items. *)
Theorem distanceBetween_metric (a b c : Item) :
  0 <= distanceBetween a b /\
  distanceBetween a b = distanceBetween b a /\
  (distanceBetween a b = 0 <-> centre a = centre b) /\
  distanceBetween a c <= distanceBetween a b + distanceBetween b c.
Proof.
  split; [apply distanceBetween_nonneg|]. split; [|split].
  - rewrite !distanceBetween_dist_euc. apply distance_symm.
  - rewrite distanceBetween_dist_euc. unfold centre, dist_euc. split.
    + intros H. apply sqrt_eq_0 in H.
      * apply Rplus_sqr_eq_0 in H as [H1 H2]. f_equal; lra.
      * apply Rplus_le_le_0_compat; apply Rle_0_sqr.
    + intros [= H1 H2]. rewrite H1, H2. unfold Rminus. rewrite !Rplus_opp_r.
      unfold Rsqr. rewrite Rmult_0_l, Rplus_0_l. apply sqrt_0.
  - rewrite !distanceBetween_dist_euc. apply triangle.
Qed.

(** ** The intersection of two segments *)

Lemma cramer (den ns nt ax ay sax say bx by' sbx sby s t : R) :
  den = - sbx * say + sax * sby ->
  ns = - say * (ax - bx) + sax * (ay - by') ->
  nt = sbx * (ay - by') - sby * (ax - bx) ->
  den <> 0 ->
  (ax + t * sax = bx + s * sbx /\ ay + t * say = by' + s * sby) <->
  (s = ns / den /\ t = nt / den).
Proof.
  intros -> -> -> Hden. split.
  - intros [Hx Hy]. split.
    + apply (Rmult_eq_reg_r (- sbx * say + sax * sby)); [|done].
      unfold Rdiv. rewrite Rmult_assoc, Rinv_l, Rmult_1_r by done. nra.
    + apply (Rmult_eq_reg_r (- sbx * say + sax * sby)); [|done].
      unfold Rdiv. rewrite Rmult_assoc, Rinv_l, Rmult_1_r by done. nra.
  - intros [-> ->]. split; field; done.
Qed.

Lemma lineIntersection_iff (ax ay aax aay bx by' bbx bby : R) (p : R * R) :
  crossing ax ay aax aay bx by' bbx bby ->
  lineIntersection ax ay aax aay bx by' bbx bby = Some p <->
  exists s t, 0 <= s <= 1 /\ 0 <= t <= 1 /\
              p = along ax ay aax aay t /\ p = along bx by' bbx bby s.
Proof.
  unfold crossing, lineIntersection, along. intros Hden. cbv zeta.
  set (den := - (bbx - bx) * (aay - ay) + (aax - ax) * (bby - by')) in *.
  set (ns := - (aay - ay) * (ax - bx) + (aax - ax) * (ay - by')).
  set (nt := (bbx - bx) * (ay - by') - (bby - by') * (ax - bx)).
  pose proof (fun s t => cramer den ns nt ax ay (aax - ax) (aay - ay) bx by'
                           (bbx - bx) (bby - by') s t eq_refl eq_refl eq_refl Hden) as Hc.
  split.
  - case_decide as Hin; [|done]. intros [= <-].
    exists (ns / den), (nt / den).
    destruct (proj2 (Hc (ns / den) (nt / den)) (conj eq_refl eq_refl)) as [Hx Hy].
    repeat split; try lra. by rewrite Hx, Hy.
  - intros (s & t & Hs & Ht & -> & [= Hx Hy]).
    destruct (proj1 (Hc s t) (conj Hx Hy)) as [-> ->].
    rewrite decide_True by lra. done.
Qed.

(** For two segments that are not parallel, [lineIntersection] returns the
    point the segments have in common, and [null] when they have none; the
    order in which the two segments are given does not matter. *)
Theorem lineIntersection_meets (ax ay aax aay bx by' bbx bby : R) :
  crossing ax ay aax aay bx by' bbx bby ->
  (forall p,
      lineIntersection ax ay aax aay bx by' bbx bby = Some p <->
      exists s t, 0 <= s <= 1 /\ 0 <= t <= 1 /\
                  p = along ax ay aax aay t /\ p = along bx by' bbx bby s) /\
  lineIntersection bx by' bbx bby ax ay aax aay
  = lineIntersection ax ay aax aay bx by' bbx bby.
Proof.
  intros Hc. split; [intros p; by apply lineIntersection_iff|].
  assert (Hc' : crossing bx by' bbx bby ax ay aax aay).
  { unfold crossing in *. lra. }
  assert (Hsw : forall p, lineIntersection bx by' bbx bby ax ay aax aay = Some p <->
                          lineIntersection ax ay aax aay bx by' bbx bby = Some p).
  { intros p. rewrite !lineIntersection_iff by done. split.
    - intros (s & t & Hs & Ht & H1 & H2). by exists t, s.
    - intros (s & t & Hs & Ht & H1 & H2). by exists t, s. }
  destruct (lineIntersection bx by' bbx bby ax ay aax aay) as [p|];
    destruct (lineIntersection ax ay aax aay bx by' bbx bby) as [q|]; [| | |done].
  - symmetry. by apply (Hsw p).
  - by pose proof (proj1 (Hsw p) eq_refl).
  - by pose proof (proj2 (Hsw q) eq_refl).
Qed.

Lemma lineIntersection_meets_witness :
  lineIntersection 0 0 2 2 0 2 2 0 = Some (1, 1).
Proof.
  destruct (lineIntersection_meets 0 0 2 2 0 2 2 0) as [H _].
  - unfold crossing. lra.
  - apply H. exists (1 / 2), (1 / 2). unfold along.
    repeat split; try lra; f_equal; lra.
Defined.

(** ** Pairs that the sweep test lets pass *)

(** With coefficients that come from two items, the result is not positive
    when [c <= 0] or [b >= 0]. *)
Lemma sweepDistance_nonpos (A B : Item) (sA sB : R) :
  let q := sweepQuadratic A B sA sB in
  0 <= sA -> q.2 <= 0 \/ 0 <= q.1.2 ->
  sweepDistance q.1.1 q.1.2 q.2 sA <= 0.
Proof.
  intros q HsA Hq. pose proof (sweepQuadratic_a_pos A B sA sB) as Ha. fold q in Ha.
  unfold sweepDistance. cbv zeta.
  case_decide as Hd; [lra|]. specialize (Ha ltac:(lra)).
  case_decide as Hout; [lra|].
  pose proof (sweepT_order q.1.1 q.1.2 q.2 Ha) as Hord.
  destruct (decide _) as [[H1 H2]|_]; [lra|].
  assert (Ht2 : sweepT2 q.1.1 q.1.2 q.2 <= 0).
  { unfold sweepT2.
    pose proof (sqrt_pos (sweepDiscriminant q.1.1 q.1.2 q.2)) as Hs.
    assert (- q.1.2 - sqrt (sweepDiscriminant q.1.1 q.1.2 q.2) <= 0).
    { destruct Hq as [Hc|Hb]; [|lra].
      assert (q.1.2 * q.1.2 <= sweepDiscriminant q.1.1 q.1.2 q.2)
        by (unfold sweepDiscriminant; nra).
      rewrite <- (sqrt_sqrt (sweepDiscriminant q.1.1 q.1.2 q.2)) in H by lra.
      nra. }
    assert (0 < / (2 * q.1.1)) by (apply Rinv_0_lt_compat; lra).
    unfold Rdiv. nra. }
  nra.
Qed.

Lemma sameBodies_refl (w : list Item) : sameBodies w w.
Proof.
  apply Forall2_same_length_lookup_2; [done|].
  intros i x y Hx Hy. exists (cache x). rewrite set_cache_id. congruence.
Qed.

Lemma sameBodies_trans (w1 w2 w3 : list Item) :
  sameBodies w1 w2 -> sameBodies w2 w3 -> sameBodies w1 w3.
Proof.
  intros H12 H23. eapply Forall2_trans; [|exact H12|exact H23].
  intros x y z [c ->] [c' ->]. by exists c'.
Qed.

Lemma sameBodies_withItem {T : Type} (f : Item -> T * Item) (i : nat) (w : list Item) :
  (forall it, exists c, (f it).2 = set_cache c it) ->
  sameBodies w (withItem f i w).2.
Proof.
  intros Hf. unfold withItem. destruct (f (w !!! i)) as [r it'] eqn:Hfi. cbn [snd].
  destruct (decide (i < length w)%nat) as [Hi|Hi].
  - rewrite <- (list_insert_id w i (w !!! i)) at 1
      by by apply list_lookup_lookup_total_lt.
    apply Forall2_insert; [apply sameBodies_refl|].
    destruct (Hf (w !!! i)) as [c Hc]. rewrite Hfi in Hc. by exists c.
  - rewrite list_insert_ge by lia. apply sameBodies_refl.
Qed.

Lemma getDistanceToIntersection_bodies (w : list Item) (A B : nat) :
  sameBodies w (getDistanceToIntersection w A B).2.
Proof.
  unfold getDistanceToIntersection.
  pose proof (sameBodies_withItem getStepDistance A w getStepDistance_body) as H1.
  destruct (withItem getStepDistance A w) as [sA w1].
  pose proof (sameBodies_withItem getStepDistance B w1 getStepDistance_body) as H2.
  destruct (withItem getStepDistance B w1) as [sB w2].
  destruct (sweepQuadratic _ _ _ _) as [[qa qb] qc]. cbn [snd] in *.
  by eapply sameBodies_trans.
Qed.

(** The number [getDistanceToIntersection] returns for two items of the
    world, in terms of the items before the call. *)
Lemma getDistanceToIntersection_value (w : list Item) (A B : nat) :
  A <> B -> (A < length w)%nat -> (B < length w)%nat ->
  let sA := (getStepDistance (w !!! A)).1 in
  let sB := (getStepDistance (w !!! B)).1 in
  let q := sweepQuadratic (w !!! A) (w !!! B) sA sB in
  (getDistanceToIntersection w A B).1 = sweepDistance q.1.1 q.1.2 q.2 sA.
Proof.
  intros HAB HA HB. cbv zeta.
  destruct (getDistanceToIntersection_pair w A B HAB HA HB) as (_ & _ & ->). cbn [fst].
  destruct (getStepDistance_body (w !!! A)) as [ca ->].
  destruct (getStepDistance_body (w !!! B)) as [cb ->].
  by rewrite sweepQuadratic_cache.
Qed.

(** A test of two items whose coefficients have [c <= 0] or [b >= 0] finds
    no collision. *)
Lemma updateIfColliding_pass (fuel : nat) (w : list Item) (item1 item2 _attempt : nat) :
  (item1 < length w)%nat -> (item2 < length w)%nat -> Forall itemOK w ->
  let q := sweepQuadratic (w !!! item1) (w !!! item2)
             (getStepDistance (w !!! item1)).1 (getStepDistance (w !!! item2)).1 in
  q.2 <= 0 \/ 0 <= q.1.2 ->
  exists w', updateIfColliding (S fuel) w item1 item2 _attempt = Some (false, w') /\
             sameBodies w w'.
Proof.
  intros H1 H2 Hok q Hq. rewrite updateIfColliding_step. cbv zeta.
  set (A := if decide (speed (w !!! item1) >= speed (w !!! item2)) then item1 else item2).
  set (B := if (A =? item1)%nat then item2 else item1).
  pose proof (getDistanceToIntersection_bodies w A B) as Hbodies.
  assert (Hle : (getDistanceToIntersection w A B).1 <= 0).
  { destruct (decide (A = B)) as [Heq|HAB].
    { rewrite Heq, getDistanceToIntersection_self. lra. }
    assert (HA : (A < length w)%nat) by (subst A; by case_decide).
    assert (HB : (B < length w)%nat) by (subst B; by destruct (A =? item1)%nat).
    rewrite getDistanceToIntersection_value by done.
    apply sweepDistance_nonpos.
    - apply getStepDistance_nonneg. by apply Forall_lookup_total_1.
    - assert (Hcases : (A = item1 /\ B = item2) \/ (A = item2 /\ B = item1)).
      { subst B. destruct (A =? item1)%nat eqn:He.
        - apply Nat.eqb_eq in He. by left.
        - apply Nat.eqb_neq in He. right. split; [|done].
          subst A. by case_decide. }
      destruct Hcases as [[-> ->]|[-> ->]]; [done|].
      by rewrite sweepQuadratic_sym. }
  destruct (getDistanceToIntersection w A B) as [d w1]. cbn [fst snd] in *.
  rewrite decide_False by lra. by exists w1.
Qed.

Lemma abcSquare_le_square (a b r : R) : abcSquare a b <= r -> a ^ 2 + b ^ 2 <= r * r.
Proof.
  rewrite abcSquare_sqrt. intros H.
  pose proof (sqrt_pos (a ^ 2 + b ^ 2)) as Hs.
  rewrite <- (sqrt_sqrt (a ^ 2 + b ^ 2)) by nra. nra.
Qed.

(** Two items whose centres are not farther apart than the sum of their
    radii, that is, items that touch or overlap, are never found to collide:
    the test returns [false] and writes caches only. *)
Theorem touching_items_pass (fuel : nat) (w : list Item) (item1 item2 _attempt : nat) :
  (item1 < length w)%nat -> (item2 < length w)%nat -> Forall itemOK w ->
  distanceBetween (w !!! item1) (w !!! item2)
    <= radius (w !!! item1) + radius (w !!! item2) ->
  exists w', updateIfColliding (S fuel) w item1 item2 _attempt = Some (false, w') /\
             sameBodies w w'.
Proof.
  intros H1 H2 Hok Hd. apply updateIfColliding_pass; try done. left.
  apply abcSquare_le_square in Hd. unfold sweepQuadratic. cbn [snd]. nra.
Qed.

Lemma overlapWorld_ok : Forall itemOK overlapWorld.
Proof.
  unfold overlapWorld.
  repeat first [apply Forall_nil_2 | apply Forall_cons_2].
  all: split; [split; [|split]; simpl; [lra | lra | by intros v [=]]|].
  all: unfold budgeted; simpl; lra.
Qed.

Lemma touching_items_pass_witness :
  exists w', updateIfColliding 20 overlapWorld 0 1 0 = Some (false, w') /\
             sameBodies overlapWorld w'.
Proof.
  apply (touching_items_pass 19 overlapWorld 0 1 0).
  - simpl. lia.
  - simpl. lia.
  - apply overlapWorld_ok.
  - unfold distanceBetween. simpl.
    rewrite (abcSquare_eq _ _ 1); [lra | lra | lra].
Defined.

(** Two items whose centres are, at no fraction of their steps, closer than
    at the start are not found to collide. *)
Theorem receding_items_pass (fuel : nat) (w : list Item) (item1 item2 _attempt : nat) :
  (item1 < length w)%nat -> (item2 < length w)%nat -> Forall itemOK w ->
  let s1 := (getStepDistance (w !!! item1)).1 in
  let s2 := (getStepDistance (w !!! item2)).1 in
  (forall t, 0 <= t <= 1 ->
     sweepGap (w !!! item1) (w !!! item2) s1 s2 0
     <= sweepGap (w !!! item1) (w !!! item2) s1 s2 t) ->
  exists w', updateIfColliding (S fuel) w item1 item2 _attempt = Some (false, w') /\
             sameBodies w w'.
Proof.
  intros H1 H2 Hok s1 s2 Hgap. apply updateIfColliding_pass; try done. fold s1 s2.
  set (q := sweepQuadratic (w !!! item1) (w !!! item2) s1 s2).
  right.
  assert (Hq : forall t, 0 <= t <= 1 -> 0 <= q.1.1 * t ^ 2 + q.1.2 * t).
  { intros t Ht. specialize (Hgap t Ht).
    rewrite <- !(sweepQuadratic_gap (w !!! item1) (w !!! item2) s1 s2) in Hgap.
    fold q in Hgap. lra. }
  pose proof (sweepQuadratic_a_nonneg (w !!! item1) (w !!! item2) s1 s2) as Ha. fold q in Ha.
  destruct (Rle_lt_dec 0 q.1.2) as [|Hb]; [done|]. exfalso.
  destruct (Rle_lt_dec q.1.1 (- q.1.2)) as [Hsmall|Hbig].
  - pose proof (Hq 1 ltac:(lra)) as Hq1.
    pose proof (Hq (1 / 2) ltac:(lra)) as Hq2. nra.
  - assert (0 < q.1.1) by lra.
    assert (Ht : 0 <= - q.1.2 / (2 * q.1.1) <= 1).
    { split.
      - apply Rlt_le, Rdiv_lt_0_compat; lra.
      - apply Rlt_le. apply (Rmult_lt_reg_r (2 * q.1.1)); [lra|].
        unfold Rdiv. rewrite Rmult_assoc, Rinv_l by lra. lra. }
    specialize (Hq _ Ht).
    assert (Heq : q.1.1 * (- q.1.2 / (2 * q.1.1)) ^ 2 + q.1.2 * (- q.1.2 / (2 * q.1.1))
                  = - (q.1.2 * q.1.2) / (4 * q.1.1)) by (field; lra).
    rewrite Heq in Hq.
    assert (0 < q.1.2 * q.1.2 / (4 * q.1.1)).
    { apply Rdiv_lt_0_compat; nra. }
    unfold Rdiv in *. lra.
Qed.

Lemma recedingWorld_ok : Forall itemOK recedingWorld.
Proof.
  unfold recedingWorld.
  repeat first [apply Forall_nil_2 | apply Forall_cons_2].
  all: split; [split; [|split]; simpl; [lra | lra | by intros v [=]]|].
  all: unfold budgeted; simpl; lra.
Qed.

Lemma receding_items_pass_witness :
  exists w', updateIfColliding 20 recedingWorld 0 1 0 = Some (false, w') /\
             sameBodies recedingWorld w'.
Proof.
  apply (receding_items_pass 19 recedingWorld 0 1 0).
  - simpl. lia.
  - simpl. lia.
  - apply recedingWorld_ok.
  - intros t Ht. unfold sweepGap. simpl. rewrite cos_0, sin_0. nra.
Defined.

(** ** The pair after the resolution of a collision *)

(** The resolution of a contact found by the sweep test puts the two items
    at the places of the contact, where their centres are exactly the sum
    of the radii apart. *)
Lemma collidePair_contact (a b : Item) (sA sB : R) :
  getStepDistance a = (sA, a) -> getStepDistance b = (sB, b) ->
  0 <= sA -> 0 <= radius a + radius b ->
  let q := sweepQuadratic a b sA sB in
  let d := sweepDistance q.1.1 q.1.2 q.2 sA in
  d > 0 ->
  let r := collidePair a b d in
  distanceBetween r.1 r.2 = radius a + radius b /\
  radius r.1 = radius a /\ radius r.2 = radius b /\
  pos_x r.1 = pos_x a + cos (course a) * d /\
  pos_y r.1 = pos_y a + sin (course a) * d /\
  pos_x r.2 = pos_x b + cos (course b) * (d / sA * sB) /\
  pos_y r.2 = pos_y b + sin (course b) * (d / sA * sB).
Proof.
  intros Ha Hb HsA HR q d Hd.
  destruct (sweepDistance_positive a b sA sB HsA Hd) as (HsA' & Ht & _ & Hdist).
  fold q in Ht, Hdist.
  assert (Hroot : sweepGap a b sA sB (sweepT2 q.1.1 q.1.2 q.2) = 0).
  { rewrite <- sweepQuadratic_gap. fold q.
    assert (Hdisc : 0 < sweepDiscriminant q.1.1 q.1.2 q.2).
    { unfold d, sweepDistance in Hd. revert Hd. case_decide; lra. }
    pose proof (sweepQuadratic_a_pos a b sA sB Hdisc) as Hapos. fold q in Hapos.
    apply sweepT2_root; lra. }
  cbv zeta. rewrite (collidePair_cached a b sA sB d) by done. cbv zeta. fold q.
  rewrite (Hdist sB). unfold d. rewrite (Hdist sA).
  set (t := sweepT2 q.1.1 q.1.2 q.2) in *.
  replace (t * sA / sA * sB) with (t * sB) by (field; lra).
  assert (Hm : moveToContactPair a b (t * sA) (t * sB)
               = (setPos (pos_x a + cos (course a) * (t * sA))
                         (pos_y a + sin (course a) * (t * sA)) (set_shotCurve None a),
                  setPos (pos_x b + cos (course b) * (t * sB))
                         (pos_y b + sin (course b) * (t * sB)) (set_shotCurve None b))).
  { unfold moveToContactPair. cbv zeta. rewrite decide_False; [done|].
    apply Rle_not_lt. unfold distanceBetween. simpl.
    rewrite (abcSquare_eq _ _ (radius a + radius b)); [lra | done |].
    unfold sweepGap in Hroot. lra. }
  rewrite Hm. cbn [fst snd].
  unfold consumeStepPair, deflectPair. cbn [fst snd]. cbv zeta.
  assert (Hdist' : distanceBetween
            (setPos (pos_x a + cos (course a) * (t * sA))
                    (pos_y a + sin (course a) * (t * sA)) (set_shotCurve None a))
            (setPos (pos_x b + cos (course b) * (t * sB))
                    (pos_y b + sin (course b) * (t * sB)) (set_shotCurve None b))
          = radius a + radius b).
  { unfold distanceBetween. simpl. apply abcSquare_eq; [done|].
    unfold sweepGap in Hroot. lra. }
  destruct (truthy sB); simpl; (split; [exact Hdist' | done]).
Qed.



Lemma collidePair_courses (a b : Item) (d : R) :
  let r := collidePair a b d in
  let abCourse := getCourse (pos_x r.1) (pos_y r.1) (pos_x r.2) (pos_y r.2) in
  let relAngle := angleBetween (course a) abCourse in
  course r.2 = abCourse /\
  course r.1 = (if decide (relAngle > 0) then abCourse - PI / 2
                else abCourse - PI / 2 - PI) /\
  shotCurve r.1 = None /\ shotCurve r.2 = None /\
  power r.1 = power a /\ power r.2 = power b.
Proof.
  destruct (collidePair_parts a b d) as (ca & cb & sA & dB & sB & _ & ->). cbv zeta.
  pose proof (moveToContactPair_fields (set_cache ca a) (set_cache cb b) d dB) as Hm.
  destruct (moveToContactPair _ _ _ _) as [a3 b3]. simpl in Hm.
  destruct Hm as [(Hs3 & Hp3 & Hu3 & Hco3 & _ & _ & Hcv3)
                  (Hs3' & Hp3' & Hu3' & _ & _ & _ & Hcv3')].
  unfold consumeStepPair, deflectPair. cbn [fst snd]. cbv zeta.
  destruct (truthy sB); simpl; by rewrite ?Hco3, ?Hcv3, ?Hcv3', ?Hp3, ?Hp3'.
Qed.

(** The courses after a collision.  [B] leaves along the line from the
    position of [A] to its own; [A] leaves at a right angle to that line,
    on the side of its old course, and keeps the part of its speed that lies
    in that direction.  Both shots stop being curved. *)
Theorem collision_turns_onto_tangent (w : list Item) (A B : nat) (d : R) :
  A <> B -> (A < length w)%nat -> (B < length w)%nat ->
  let w' := updateForCollision w A B d in
  course (w' !!! B) = getCourse (pos_x (w' !!! A)) (pos_y (w' !!! A))
                                (pos_x (w' !!! B)) (pos_y (w' !!! B)) /\
  cos (course (w' !!! A) - course (w' !!! B)) = 0 /\
  0 <= cos (course (w' !!! A) - course (w !!! A)) /\
  speed (w' !!! A) = speed (w !!! A) * cos (course (w' !!! A) - course (w !!! A)) /\
  shotCurve (w' !!! A) = None /\ shotCurve (w' !!! B) = None.
Proof.
  intros HAB HA HB. cbv zeta.
  pose proof (updateForCollision_put2 w A B HAB HA HB (w !!! A) (w !!! B) d) as H.
  rewrite put2_id in H by done. rewrite H.
  rewrite !lookup_put2_A, !lookup_put2_B by done.
  destruct (collidePair_courses (w !!! A) (w !!! B) d) as (HcB & HcA & HvA & HvB & _).
  destruct (collidePair_speeds (w !!! A) (w !!! B) d) as [HsA _].
  set (r := collidePair (w !!! A) (w !!! B) d) in *.
  set (ab := getCourse (pos_x r.1) (pos_y r.1) (pos_x r.2) (pos_y r.2)) in *.
  set (rel := angleBetween (course (w !!! A)) ab) in *.
  assert (Hturn : cos (course r.1 - course (w !!! A)) = Rabs rel).
  { rewrite HcA. unfold rel, angleBetween in *. case_decide as Hrel.
    - rewrite Rabs_pos_eq by lra.
      rewrite <- (cos_neg (course (w !!! A) - ab + PI / 2)). f_equal. ring.
    - rewrite Rabs_left1 by lra.
      rewrite <- (cos_neg (ab - PI / 2 - PI - course (w !!! A))).
      rewrite <- neg_cos. f_equal. ring. }
  split; [done|]. split; [|split; [|split; [|done]]].
  - rewrite HcA, HcB. case_decide.
    + replace (ab - PI / 2 - ab) with (- (PI / 2)) by ring.
      rewrite cos_neg. apply cos_PI2.
    + replace (ab - PI / 2 - PI - ab) with (- (PI / 2 + PI)) by ring.
      rewrite cos_neg, neg_cos, cos_PI2. ring.
  - rewrite Hturn. apply Rabs_pos.
  - by rewrite Hturn.
Qed.

(** The speeds after a collision.  The speed of [A] weighted by its power
    is shared out between the two items: the weighted speeds after the
    collision add up to the weighted speed [A] had, whatever speed [B] had,
    and neither item is faster than its share. *)
Theorem collision_shares_speed (w : list Item) (A B : nat) (d : R) :
  A <> B -> (A < length w)%nat -> (B < length w)%nat ->
  0 <= speed (w !!! A) -> 0 < power (w !!! A) -> 0 < power (w !!! B) ->
  let w' := updateForCollision w A B d in
  power (w' !!! A) = power (w !!! A) /\ power (w' !!! B) = power (w !!! B) /\
  speed (w' !!! A) * power (w' !!! A) + speed (w' !!! B) * power (w' !!! B)
  = speed (w !!! A) * power (w !!! A) /\
  0 <= speed (w' !!! A) <= speed (w !!! A) /\
  0 <= speed (w' !!! B) <= speed (w !!! A) * power (w !!! A) / power (w !!! B).
Proof.
  intros HAB HA HB Hs HpA HpB w'.
  destruct (updateForCollision_speeds w A B d HAB HA HB) as [H1 H2].
  fold w' in H1, H2.
  set (rel := angleBetween _ _) in H1, H2.
  pose proof (angleBetween_bound (course (w !!! A))
                (getCourse (pos_x (w' !!! A)) (pos_y (w' !!! A))
                           (pos_x (w' !!! B)) (pos_y (w' !!! B)))) as Hrel.
  fold rel in Hrel. pose proof (Rabs_pos rel) as Hrel0.
  assert (Hp : power (w' !!! A) = power (w !!! A) /\ power (w' !!! B) = power (w !!! B)).
  { subst w'.
    pose proof (updateForCollision_put2 w A B HAB HA HB (w !!! A) (w !!! B) d) as H.
    rewrite put2_id in H by done. rewrite H.
    rewrite !lookup_put2_A, !lookup_put2_B by done.
    by destruct (collidePair_courses (w !!! A) (w !!! B) d) as (_ & _ & _ & _ & ? & ?). }
  destruct Hp as [HpA' HpB'].
  assert (HF : 0 <= speed (w !!! A) * power (w !!! A) / power (w !!! B)).
  { apply Rmult_le_pos; [nra|]. apply Rlt_le. by apply Rinv_0_lt_compat. }
  split; [done|]. split; [done|]. rewrite HpA', HpB', H1, H2.
  split; [field; lra|]. split; nra.
Qed.

Lemma collision_shares_speed_witness :
  let w' := updateForCollision crossingWorld 0 1 8 in
  speed (w' !!! 0%nat) * power (w' !!! 0%nat) + speed (w' !!! 1%nat) * power (w' !!! 1%nat)
  = speed (crossingWorld !!! 0%nat) * power (crossingWorld !!! 0%nat).
Proof.
  apply (collision_shares_speed crossingWorld 0 1 8); try done.
  - simpl. lia.
  - simpl. lia.
  - simpl. lra.
  - simpl. lra.
  - simpl. lra.
Defined.

Lemma collision_turns_onto_tangent_witness :
  let w' := updateForCollision crossingWorld 0 1 8 in
  cos (course (w' !!! 0%nat) - course (w' !!! 1%nat)) = 0.
Proof.
  apply (collision_turns_onto_tangent crossingWorld 0 1 8); try done.
  - simpl. lia.
  - simpl. lia.
Defined.




(** ** Passes that find no collision *)

Lemma updateIfColliding_false_bodies (fuel : nat) (w w' : list Item)
    (item1 item2 _attempt : nat) :
  updateIfColliding fuel w item1 item2 _attempt = Some (false, w') -> sameBodies w w'.
Proof.
  destruct fuel as [|fuel]; [done|]. rewrite updateIfColliding_step. cbv zeta.
  set (A := if decide _ then item1 else item2).
  set (B := if (A =? item1)%nat then item2 else item1).
  pose proof (getDistanceToIntersection_bodies w A B) as Hb.
  destruct (getDistanceToIntersection w A B) as [d w1]. cbn [fst snd] in *.
  case_decide.
  - destruct (negb _ && _); [|done].
    by destruct (updateIfColliding _ _ _ _ _) as [[? ?]|].
  - by intros [= <-].
Qed.

Lemma testOrdered_false_bodies (w w' : list Item) (item : nat) (rest : list nat) :
  testOrdered w item rest = Some (false, w') -> sameBodies w w'.
Proof.
  revert w. induction rest as [|other rest IH]; intros w.
  - intros [= <-]. apply sameBodies_refl.
  - cbn [testOrdered].
    destruct (updateIfColliding 20 w item other 0) as [[[] w1]|] eqn:Hu; [done| |done].
    intros Ht. eapply sameBodies_trans; [|by apply IH].
    by eapply updateIfColliding_false_bodies.
Qed.

Lemma collisionStepFrom_false_bodies (w w' : list Item) (todo : list nat) :
  collisionStepFrom w todo = Some (false, w') -> sameBodies w w'.
Proof.
  revert w. induction todo as [|item todo IH]; intros w.
  - intros [= <-]. apply sameBodies_refl.
  - cbn [collisionStepFrom]. destruct (truthy _ && truthy _); [|apply IH].
    destruct (testOrdered w item _) as [[[] w1]|] eqn:Ht; [done| |done].
    intros Hs. eapply sameBodies_trans; [|by apply IH].
    by eapply testOrdered_false_bodies.
Qed.

Lemma sameBodies_lookup (w w' : list Item) (k : nat) (it : Item) :
  sameBodies w w' -> w !! k = Some it ->
  exists c, w' !!! k = set_cache c it.
Proof.
  intros Hb Hk. destruct (Forall2_lookup_l _ _ _ _ _ Hb Hk) as (it' & Hk' & c & ->).
  exists c. by apply list_lookup_total_correct.
Qed.

(** ** [applyPhysics] *)

Lemma applyPhysics_snd (w : list Item) : (applyPhysics w).2 = map applyPhysicsItem w.
Proof.
  induction w as [|it w IH]; [done|]. cbn [applyPhysics].
  destruct (applyPhysics w) as [m w']. simpl in *. by rewrite IH.
Qed.

Lemma applyPhysics_fst (w : list Item) :
  (applyPhysics w).1 = true <-> Exists (fun it => speed it <> 0) (applyPhysics w).2.
Proof.
  induction w as [|it w IH].
  - simpl. split; [done|]. by intros ?%Exists_nil.
  - cbn [applyPhysics]. destruct (applyPhysics w) as [m w']. cbn [fst snd] in *.
    rewrite Exists_cons, orb_true_iff, IH. unfold truthy.
    by rewrite bool_decide_eq_true.
Qed.

(** An item on a straight course moves by its speed times [unused]. *)
Lemma applyPhysicsItem_straight (it : Item) :
  shotCurve it = None -> speed it <> 0 -> unused it <> 0 ->
  applyPhysicsItem it
  = set_unused 0
      (set_speed (slowDown (speed it) (friction it))
         (set_shotTraveled (shotTraveled it + speed it)
            (setPos (pos_x it + cos (course it) * speed it * unused it)
                    (pos_y it + sin (course it) * speed it * unused it) it))).
Proof.
  intros Hc Hs Hu. unfold applyPhysicsItem, slowDown.
  rewrite !truthy_true by done. cbn [andb]. rewrite Hc. cbv zeta. simpl.
  rewrite Hc. unfold set_unused, set_speed, set_shotTraveled, setPos. simpl.
  by destruct (decide _).
Qed.


Lemma collisionStep_lone (it : Item) : collisionStep [it] = Some (false, [it]).
Proof.
  unfold collisionStep. cbn [length seq collisionStepFrom].
  by destruct (truthy _ && truthy _).
Qed.


(** [tick] once the first pass has found no collision. *)
Lemma tick_free (p : Physics) (w1 : list Item) :
  collisionStep (resetItems (items p)) = Some (false, w1) ->
  tick p = Some ((applyPhysics w1).1, mkPhysics (applyPhysics w1).2 true).
Proof.
  intros Hs. unfold tick. cbn [stepCollisions config negb orb].
  rewrite (collisionPasses_last _ _ w1) by done.
  by destruct (applyPhysics w1).
Qed.

(** In a tick whose first pass finds no collision, every item on a straight
    course advances by its speed along its course, keeps its course, and
    has its speed multiplied by its friction, or set to [0] when the product
    is under [stopSpeed]. *)
Theorem free_flight_step (p : Physics) (w1 : list Item) :
  collisionStep (resetItems (items p)) = Some (false, w1) ->
  exists moving p',
    tick p = Some (moving, p') /\
    length (items p') = length (items p) /\
    forall k it,
      items p !! k = Some it -> shotCurve it = None ->
      let it' := items p' !!! k in
      pos_x it' = pos_x it + cos (course it) * speed it /\
      pos_y it' = pos_y it + sin (course it) * speed it /\
      course it' = course it /\
      speed it' = slowDown (speed it) (friction it) /\
      radius it' = radius it.
Proof.
  intros Hs. rewrite (tick_free p w1 Hs). eexists _, _. split; [done|].
  pose proof (collisionStepFrom_false_bodies _ _ _ Hs) as Hb.
  pose proof (Forall2_length _ _ _ Hb) as Hlen.
  unfold resetItems in Hlen. rewrite length_map in Hlen.
  cbn [items]. rewrite applyPhysics_snd, length_map. split; [done|].
  intros k it Hk Hc.
  assert (Hk0 : resetItems (items p) !! k = Some (set_unused 1 it)).
  { unfold resetItems. by rewrite list_lookup_fmap, Hk. }
  destruct (sameBodies_lookup _ _ k _ Hb Hk0) as [c Hw1].
  assert (Hk1 : (k < length w1)%nat).
  { rewrite <- Hlen. by eapply lookup_lt_Some. }
  cbv zeta. rewrite (list_lookup_total_fmap applyPhysicsItem w1 k) by done.
  rewrite Hw1.
  destruct (decide (speed it = 0)) as [H0|H0].
  - rewrite applyPhysicsItem_rest by done. simpl. rewrite H0. unfold slowDown.
    rewrite decide_True by (simpl; lra). repeat split; lra.
  - rewrite applyPhysicsItem_straight; [simpl | done | done | simpl; lra].
    repeat split; lra.
Qed.

Lemma free_flight_step_witness :
  exists moving p', tick loneGlider = Some (moving, p') /\
                    length (items p') = length (items loneGlider).
Proof.
  destruct (free_flight_step loneGlider (resetItems (items loneGlider)))
    as (m & p' & H1 & H2 & _).
  - apply collisionStep_lone.
  - by exists m, p'.
Defined.

Lemma applyPhysicsItem_unused (it : Item) :
  speed it <> 0 -> unused it <> 0 -> unused (applyPhysicsItem it) = 0.
Proof.
  intros Hs Hu. unfold applyPhysicsItem. rewrite !truthy_true by done. done.
Qed.

Lemma applyPhysicsItem_again (it : Item) :
  applyPhysicsItem (applyPhysicsItem it) = applyPhysicsItem it.
Proof.
  destruct (decide (speed it = 0)) as [Hs|Hs].
  { rewrite (applyPhysicsItem_rest it Hs). apply (applyPhysicsItem_rest it Hs). }
  destruct (decide (unused it = 0)) as [Hu|Hu].
  { assert (H : applyPhysicsItem it = it).
    { unfold applyPhysicsItem. rewrite (truthy_false (unused it)) by done.
      by rewrite andb_false_r. }
    by rewrite !H. }
  pose proof (applyPhysicsItem_unused it Hs Hu) as H0.
  unfold applyPhysicsItem at 1. rewrite (truthy_false (unused _)) by done.
  by rewrite andb_false_r.
Qed.

(** [applyPhysics] moves an item once: applied again before the next reset
    it changes nothing and returns the same answer.  Its answer is [true]
    exactly when an item is left with a speed, and an item left with a speed
    has no [unused] left. *)
Theorem applyPhysics_moves_once (w : list Item) :
  applyPhysics (applyPhysics w).2 = applyPhysics w /\
  ((applyPhysics w).1 = true <-> Exists (fun it => speed it <> 0) (applyPhysics w).2) /\
  Forall (fun it => speed it = 0 \/ unused it = 0) (applyPhysics w).2.
Proof.
  split; [|split; [apply applyPhysics_fst|]].
  - induction w as [|it w IH]; [done|].
    cbn [applyPhysics]. destruct (applyPhysics w) as [m w'] eqn:Hw.
    cbn [fst snd] in *. cbn [applyPhysics]. rewrite IH.
    by rewrite applyPhysicsItem_again.
  - rewrite applyPhysics_snd. apply Forall_map, Forall_forall. intros it _. simpl.
    destruct (decide (speed it = 0)) as [Hs|Hs].
    { left. by rewrite applyPhysicsItem_rest. }
    destruct (decide (unused it = 0)) as [Hu|Hu].
    { right. unfold applyPhysicsItem. rewrite (truthy_false (unused it)) by done.
      by rewrite andb_false_r. }
    right. by apply applyPhysicsItem_unused.
Qed.

(** [tick] returns [true] exactly when an item is left with a speed; it
    keeps the number of items and leaves [lastFinished] set. *)
Theorem tick_reports_motion (p : Physics) :
  exists moving p',
    tick p = Some (moving, p') /\
    (moving = true <-> Exists (fun it => speed it <> 0) (items p')) /\
    lastFinished p' = true.
Proof.
  unfold tick.
  destruct (collisionPasses_total 10 (if negb (stepCollisions config) || lastFinished p
                                      then resetItems (items p) else items p) 0 0)
    as (r & -> & Hr); [lia..|].
  destruct r as [|w1 lb c]; [done|].
  pose proof (applyPhysics_fst w1) as Hm.
  destruct (applyPhysics w1) as [m w2]. by exists m, (mkPhysics w2 true).
Qed.

(** ** A lone item *)

Lemma tick_lone (it : Item) (b : bool) :
  tick (mkPhysics [it] b)
  = Some (truthy (speed (applyPhysicsItem (set_unused 1 it))),
          mkPhysics [applyPhysicsItem (set_unused 1 it)] true).
Proof.
  rewrite (tick_free _ [set_unused 1 it]) by apply collisionStep_lone.
  cbn [applyPhysics fst snd]. by rewrite orb_false_r.
Qed.

Lemma lone_glider_run (f : R) (n : nat) :
  0 < f < 1 ->
  forall (it : Item) (b : bool),
    shotCurve it = None -> friction it = f ->
    stopSpeed config <= speed it -> speed it * f ^ n < stopSpeed config ->
    exists k d it',
      ticks k (mkPhysics [it] b) = Some (mkPhysics [it'] true) /\
      simulateDistance (S n) (speed it) f = Some d /\
      speed it' = 0 /\ course it' = course it /\
      pos_x it' = pos_x it + cos (course it) * d /\
      pos_y it' = pos_y it + sin (course it) * d /\
      shotTraveled it' = shotTraveled it + d.
Proof.
  intros Hf. induction n as [|n IH]; intros it b Hc Hfr Hs Hn.
  { simpl in Hn, Hs. lra. }
  assert (Hstop : 0 < stopSpeed config) by (simpl; lra).
  pose proof (tick_lone it b) as Ht.
  rewrite applyPhysicsItem_straight in Ht; [|done|simpl; lra|simpl; lra].
  cbn [speed set_unused set_speed] in Ht.
  set (it1 := set_unused 0 _) in Ht.
  rewrite simulateDistance_step. rewrite decide_False by lra.
  destruct (Rlt_le_dec (speed it * f) (stopSpeed config)) as [Hl|Hg].
  - exists 1%nat, (speed it + 0), it1. cbn [ticks]. rewrite Ht.
    split; [done|]. split.
    { destruct n; simpl; rewrite decide_True by done; done. }
    subst it1. simpl. unfold slowDown. rewrite Hfr. rewrite decide_True by done.
    repeat split; lra.
  - assert (Hs1 : speed it1 = speed it * f).
    { subst it1. simpl. unfold slowDown. rewrite Hfr. by rewrite decide_False by lra. }
    destruct (IH it1 true) as (k & d & it' & Hk & Hd & H0 & Hco & Hx & Hy & Htr).
    { done. }
    { done. }
    { by rewrite Hs1. }
    { rewrite Hs1. rewrite <- tech_pow_Rmult in Hn. lra. }
    exists (S k), (speed it + d), it'. cbn [ticks]. rewrite Ht.
    split; [done|]. rewrite Hs1 in Hd. rewrite Hd. split; [done|].
    split; [done|]. rewrite Hco, Hx, Hy, Htr. subst it1. simpl.
    repeat split; lra.
Qed.

(** A lone item on a straight course, with a friction in [(0, 1)] and a
    speed of at least [stopSpeed], comes to rest after finitely many ticks.
    It has then travelled along its course the sum the step by step
    simulation gives, which [distanceToTravel] exceeds by less than
    [stopSpeed]. *)
Theorem lone_glider_comes_to_rest (it : Item) (b : bool) :
  shotCurve it = None -> 0 < friction it < 1 -> stopSpeed config <= speed it ->
  exists n fuel d it',
    ticks n (mkPhysics [it] b) = Some (mkPhysics [it'] true) /\
    simulateDistance fuel (speed it) (friction it) = Some d /\
    speed it' = 0 /\ course it' = course it /\
    pos_x it' = pos_x it + cos (course it) * d /\
    pos_y it' = pos_y it + sin (course it) * d /\
    shotTraveled it' = shotTraveled it + d /\
    d <= distanceToTravel (speed it) (friction it) < d + stopSpeed config.
Proof.
  intros Hc Hf Hs.
  assert (Hpos : 0 < speed it) by (simpl in Hs; lra).
  destruct (pow_lt_1_zero (friction it)) with (y := stopSpeed config / speed it)
    as [n Hn].
  { rewrite Rabs_pos_eq; lra. }
  { apply Rdiv_lt_0_compat; [simpl; lra | done]. }
  specialize (Hn n (Nat.le_refl n)).
  rewrite Rabs_pos_eq in Hn by (apply pow_le; lra).
  assert (Hn' : speed it * friction it ^ n < stopSpeed config).
  { apply (Rmult_lt_compat_l (speed it)) in Hn; [|done].
    replace (speed it * (stopSpeed config / speed it)) with (stopSpeed config) in Hn
      by (field; lra).
    done. }
  destruct (lone_glider_run (friction it) n Hf it b Hc eq_refl Hs Hn')
    as (k & d & it' & Hk & Hd & H0 & Hco & Hx & Hy & Htr).
  destruct (simulateDistance_bounds (friction it) n Hf (speed it) Hpos Hn')
    as (d' & Hd' & _ & Hbig).
  rewrite Hd in Hd'. injection Hd' as <-.
  exists k, (S n), d, it'. do 7 (split; [done|]).
  rewrite distanceToTravel_closed by done.
  destruct (Hbig Hs) as [Hlo Hhi].
  assert (H1f : 0 < 1 - friction it) by lra.
  split.
  - apply (Rmult_le_reg_r (1 - friction it)); [done|].
    unfold Rdiv. rewrite Rmult_assoc, Rinv_l by lra. lra.
  - apply (Rmult_lt_reg_r (1 - friction it)); [done|].
    unfold Rdiv. rewrite Rmult_assoc, Rinv_l by lra. nra.
Qed.

Lemma lone_glider_comes_to_rest_witness :
  exists n fuel d it',
    ticks n loneGlider = Some (mkPhysics [it'] true) /\
    simulateDistance fuel 5 (9 / 10) = Some d /\
    speed it' = 0.
Proof.
  destruct (lone_glider_comes_to_rest (gliding 0 0 1 5 0) true)
    as (n & fuel & d & it' & H1 & H2 & H3 & _).
  - done.
  - simpl. lra.
  - simpl. lra.
  - by exists n, fuel, d, it'.
Defined.

(** ** Pushing an item *)

Lemma push_pushed (w : list Item) (item : nat) (course0 speed0 curve : R) :
  speed0 <> 0 ->
  push w item course0 speed0 curve = <[item := pushed (w !!! item) course0 speed0 curve]> w.
Proof.
  intros Hs. unfold push, pushed. rewrite decide_False by done. cbv zeta.
  unfold modify, withItem.
  destruct (decide (item < length w)%nat) as [Hi|Hi].
  - rewrite !list_lookup_total_insert_eq by (rewrite ?length_insert; done).
    destruct (getCourseToNextPositionOnCurve _) as [c it3].
    rewrite !list_lookup_total_insert_eq by (rewrite ?length_insert; done).
    by rewrite !list_insert_insert_eq.
  - rewrite !(list_insert_ge w) by lia.
    destruct (getCourseToNextPositionOnCurve _) as [c it3].
    by rewrite !(list_insert_ge w) by lia.
Qed.

Lemma pushed_fields (it : Item) (course0 speed0 curve : R) :
  let it' := pushed it course0 speed0 curve in
  speed it' = Rmin speed0 (maxSpeed config) /\
  shotCourse it' = course0 + curve * (PI / 2) /\
  shotCurve it' = Some curve /\
  shotOriginX it' = pos_x it /\ shotOriginY it' = pos_y it /\
  shotTraveled it' = 0 /\
  shotDistance it' = distanceToTravel (Rmin speed0 (maxSpeed config)) (friction it) /\
  pos_x it' = pos_x it /\ pos_y it' = pos_y it /\
  radius it' = radius it /\ power it' = power it /\ friction it' = friction it /\
  disabled it' = disabled it /\ unused it' = unused it.
Proof.
  unfold pushed. cbv zeta.
  destruct (getCourseToNextPositionOnCurve_keeps
              (set_shot (course0 + curve * (PI / 2)) (Some curve) (pos_x it) (pos_y it) 0
                 (distanceToTravel (Rmin speed0 (maxSpeed config)) (friction it))
                 (set_speed (Rmin speed0 (maxSpeed config)) it))) as (c & Hc & _).
  rewrite Hc. done.
Qed.

(** [push] starts a shot.  A push of speed [0] is ignored, and so is, in
    the array, a push of an item that is not in it.  Otherwise the item, and
    no other one, gets the pushed speed, cut at [maxSpeed]; its shot starts
    where it is, with nothing travelled yet and the distance
    [distanceToTravel] gives for that speed; its position is left alone. *)
Theorem push_starts_shot (w : list Item) (item : nat) (course0 speed0 curve : R) :
  (speed0 = 0 -> push w item course0 speed0 curve = w) /\
  ((length w <= item)%nat -> push w item course0 speed0 curve = w) /\
  (speed0 <> 0 -> (item < length w)%nat ->
   let w' := push w item course0 speed0 curve in
   let it := w !!! item in
   let it' := w' !!! item in
   length w' = length w /\
   (forall k, k <> item -> w' !!! k = w !!! k) /\
   speed it' = Rmin speed0 (maxSpeed config) /\
   speed it' <= maxSpeed config /\
   shotCourse it' = course0 + curve * (PI / 2) /\
   shotCurve it' = Some curve /\
   shotOriginX it' = pos_x it /\ shotOriginY it' = pos_y it /\
   shotTraveled it' = 0 /\
   shotDistance it' = distanceToTravel (speed it') (friction it) /\
   pos_x it' = pos_x it /\ pos_y it' = pos_y it /\ unused it' = unused it).
Proof.
  split; [|split].
  - intros ->. unfold push. by rewrite decide_True.
  - intros Hi. destruct (decide (speed0 = 0)) as [->|Hs].
    + unfold push. by rewrite decide_True.
    + rewrite push_pushed by done. by apply list_insert_ge.
  - intros Hs Hi. cbv zeta. rewrite push_pushed by done.
    rewrite length_insert, list_lookup_total_insert_eq by done.
    destruct (pushed_fields (w !!! item) course0 speed0 curve)
      as (H1 & H2 & H3 & H4 & H5 & H6 & H7 & H8 & H9 & _ & _ & _ & _ & H10).
    split; [done|]. split.
    { intros k Hk. by rewrite list_lookup_total_insert_ne. }
    rewrite H1, H2, H3, H4, H5, H6, H7, H8, H9, H10.
    repeat split; try done. apply Rmin_r.
Qed.

Lemma push_starts_shot_witness :
  speed (push (items loneGlider) 0 0 50 0 !!! 0%nat) = Rmin 50 (maxSpeed config).
Proof.
  destruct (push_starts_shot (items loneGlider) 0 0 50 0) as (_ & _ & H).
  apply H; [lra | simpl; lia].
Defined.

(** The next position of a shot with no curve. *)
Lemma computeNextCurvePos_straight (it : Item) :
  shotCurve it = Some 0 ->
  computeNextCurvePos it
  = (shotOriginX it + cos (shotCourse it) * Rabs (shotTraveled it + speed it),
     shotOriginY it + sin (shotCourse it) * Rabs (shotTraveled it + speed it)).
Proof.
  intros Hcurve.
  assert (Hy : curveY it = 0).
  { unfold curveY, curveNumber. rewrite Hcurve. ring. }
  assert (Hreal : curveRealY it = 0).
  { unfold curveRealY. rewrite Hy. unfold Rdiv. ring. }
  assert (Halpha : curveAlpha it = 0).
  { unfold curveAlpha. rewrite Hy. unfold Rdiv. rewrite Rmult_0_l. apply atan_0. }
  assert (Hstep : curveStepDistance it = Rabs (shotTraveled it + speed it)).
  { unfold curveStepDistance. rewrite Hreal, abcSquare_sqrt.
    replace ((shotTraveled it + speed it) ^ 2 + 0 ^ 2)
      with (Rsqr (shotTraveled it + speed it)) by (unfold Rsqr; ring).
    apply sqrt_Rsqr_abs. }
  unfold computeNextCurvePos. by rewrite Halpha, Hstep, Rminus_0_r.
Qed.

(** The course towards the next position of a curved shot whose cache holds
    no position. *)
Lemma getCourseToNextPositionOnCurve_fresh (it : Item) (c : R) :
  shotCurve it = Some c ->
  nextPos (cache it) = None -> nextCurvePos (cache it) = None ->
  getCourseToNextPositionOnCurve it
  = let q := computeNextCurvePos it in
    (getCourse (pos_x it + radius it) (pos_y it + radius it)
               (q.1 + radius it) (q.2 + radius it),
     set_cache (mkCache (stepDistance (cache it)) (Some q) (Some q)) it).
Proof.
  intros Hc Hn Hnc.
  unfold getCourseToNextPositionOnCurve, getNextPos, getNextCurvePos.
  rewrite Hn, Hc, Hnc. done.
Qed.


(** An item on a curved shot moves to the next position its cache holds;
    the next position it then caches is computed with the speed it had
    before its friction is applied. *)
Lemma applyPhysicsItem_curved (it : Item) (c : R) (q : R * R) :
  shotCurve it = Some c -> speed it <> 0 -> unused it <> 0 ->
  nextCurvePos (cache it) = Some q ->
  let mid := set_shotTraveled (shotTraveled it + speed it) (setPos q.1 q.2 it) in
  let q' := computeNextCurvePos mid in
  applyPhysicsItem it
  = set_unused 0
      (set_speed (slowDown (speed it) (friction it))
         (set_course (getCourse (q.1 + radius it) (q.2 + radius it)
                                (q'.1 + radius it) (q'.2 + radius it))
            (set_cache (mkCache None (Some q') (Some q')) mid))).
Proof.
  intros Hc Hs Hu Hq mid q'.
  assert (Hg : getNextCurvePos it = (q, it)).
  { unfold getNextCurvePos. by rewrite Hq. }
  unfold applyPhysicsItem, slowDown.
  rewrite !truthy_true by done. cbn [andb]. rewrite Hc, Hg. cbv zeta. cbn [fst snd].
  change (set_shotTraveled (shotTraveled (setPos q.1 q.2 it) + speed (setPos q.1 q.2 it))
            (setPos q.1 q.2 it)) with mid.
  assert (Hmid : shotCurve mid = Some c) by done.
  rewrite Hmid.
  rewrite (getCourseToNextPositionOnCurve_fresh mid c) by done.
  cbv zeta. fold q'.
  unfold set_unused, set_speed, set_course, set_cache. simpl.
  by destruct (decide _).
Qed.

(** One tick of a lone item on a shot with no curve. *)
Lemma straight_shot_step (it : Item) (q : R * R) :
  shotCurve it = Some 0 -> speed it <> 0 -> nextCurvePos (cache it) = Some q ->
  let it' := applyPhysicsItem (set_unused 1 it) in
  let ahead := Rabs (shotTraveled it + speed it + speed it) in
  (pos_x it' = q.1 /\ pos_y it' = q.2 /\
   shotTraveled it' = shotTraveled it + speed it /\
   speed it' = slowDown (speed it) (friction it) /\
   course it' = getCourse (q.1 + radius it) (q.2 + radius it)
                  (shotOriginX it + cos (shotCourse it) * ahead + radius it)
                  (shotOriginY it + sin (shotCourse it) * ahead + radius it)) /\
  (shotCurve it' = Some 0 /\
   nextCurvePos (cache it')
   = Some (shotOriginX it + cos (shotCourse it) * ahead,
           shotOriginY it + sin (shotCourse it) * ahead) /\
   shotCourse it' = shotCourse it /\
   shotOriginX it' = shotOriginX it /\ shotOriginY it' = shotOriginY it /\
   friction it' = friction it /\ radius it' = radius it).
Proof.
  intros Hc Hs Hq. cbv zeta.
  rewrite (applyPhysicsItem_curved (set_unused 1 it) 0 q); [|done|done|simpl; lra|done].
  cbv zeta. rewrite computeNextCurvePos_straight by done. simpl. done.
Qed.

(** A shot pushed with no curve, from a place where the cache of the item
    holds no position.  The push turns the item onto the pushed course.
    The first tick moves it by its speed along that course.  The second
    tick moves it by the same distance again, although its speed has been
    multiplied by the friction: the next position was computed and cached
    during the first tick, before the friction was applied. *)
Theorem pushed_straight_shot (it : Item) (b : bool) (course0 speed0 : R) :
  nextPos (cache it) = None -> nextCurvePos (cache it) = None ->
  0 < friction it < 1 ->
  - PI < course0 <= PI -> stopSpeed config <= speed0 ->
  let v := Rmin speed0 (maxSpeed config) in
  let f := friction it in
  exists it1,
    push [it] 0 course0 speed0 0 = [it1] /\
    course it1 = course0 /\ speed it1 = v /\
    exists moving1 it2,
      tick (mkPhysics [it1] b) = Some (moving1, mkPhysics [it2] true) /\
      pos_x it2 = pos_x it + cos course0 * v /\
      pos_y it2 = pos_y it + sin course0 * v /\
      course it2 = course0 /\
      shotTraveled it2 = v /\ speed it2 = slowDown v f /\
      (stopSpeed config <= v * f ->
       exists moving2 it3,
         tick (mkPhysics [it2] true) = Some (moving2, mkPhysics [it3] true) /\
         pos_x it3 = pos_x it + cos course0 * (2 * v) /\
         pos_y it3 = pos_y it + sin course0 * (2 * v) /\
         shotTraveled it3 = v + v * f /\ speed it3 = slowDown (v * f) f).
Proof.
  intros Hn Hnc Hf Hth Hs v f.
  assert (Hv : 0 < v).
  { subst v. apply Rmin_glb_lt; simpl in *; lra. }
  assert (Hsc : course0 + 0 * (PI / 2) = course0) by ring.
  exists (pushed it course0 speed0 0).
  split. { rewrite push_pushed by (simpl in Hs; lra). done. }
  (* the item after the push *)
  set (it0 := set_shot (course0 + 0 * (PI / 2)) (Some 0) (pos_x it) (pos_y it) 0
                (distanceToTravel v f) (set_speed v it)).
  assert (Hq0 : computeNextCurvePos it0
                = (pos_x it + cos course0 * v, pos_y it + sin course0 * v)).
  { rewrite computeNextCurvePos_straight by done. simpl.
    rewrite Hsc, Rplus_0_l, Rabs_pos_eq by lra. done. }
  assert (Hp : pushed it course0 speed0 0
               = set_course course0
                   (set_cache (mkCache (stepDistance (cache it))
                                 (Some (pos_x it + cos course0 * v, pos_y it + sin course0 * v))
                                 (Some (pos_x it + cos course0 * v, pos_y it + sin course0 * v)))
                      it0)).
  { unfold pushed. cbv zeta. fold v f it0.
    rewrite (getCourseToNextPositionOnCurve_fresh it0 0) by done.
    cbv zeta. rewrite Hq0. cbn [fst snd]. f_equal.
    unfold it0. cbn [pos_x pos_y radius set_shot set_speed].
    replace (pos_x it + cos course0 * v + radius it)
      with (pos_x it + radius it + cos course0 * v) by ring.
    replace (pos_y it + sin course0 * v + radius it)
      with (pos_y it + radius it + sin course0 * v) by ring.
    apply getCourse_polar; done. }
  rewrite Hp. split; [done|]. split; [done|].
  (* the first tick *)
  set (it1 := set_course course0 _) in *.
  destruct (straight_shot_step it1 (pos_x it + cos course0 * v, pos_y it + sin course0 * v))
    as [(Hx2 & Hy2 & Ht2 & Hs2 & Hc2) (Hcv2 & Hq2 & Hsc2 & Hox2 & Hoy2 & Hf2 & Hr2)];
    [done | simpl; lra | done |].
  cbn [fst snd] in *.
  set (it2 := applyPhysicsItem (set_unused 1 it1)) in *.
  assert (Hahead : Rabs (shotTraveled it1 + speed it1 + speed it1) = 2 * v).
  { simpl. rewrite Rabs_pos_eq by lra. ring. }
  rewrite Hahead in Hc2, Hq2.
  exists (truthy (speed it2)), it2. split; [apply tick_lone|].
  split; [done|]. split; [done|]. split.
  { rewrite Hc2. simpl. rewrite Hsc.
    replace (pos_x it + cos course0 * (2 * v) + radius it)
      with (pos_x it + cos course0 * v + radius it + cos course0 * v) by ring.
    replace (pos_y it + sin course0 * (2 * v) + radius it)
      with (pos_y it + sin course0 * v + radius it + sin course0 * v) by ring.
    apply getCourse_polar; done. }
  split; [rewrite Ht2; simpl; lra|]. split; [done|].
  (* the second tick *)
  intros Hgo.
  assert (Hs2' : speed it2 = v * f).
  { rewrite Hs2. simpl. unfold slowDown. by rewrite decide_False by (fold f; lra). }
  destruct (straight_shot_step it2 (shotOriginX it1 + cos (shotCourse it1) * (2 * v),
                                    shotOriginY it1 + sin (shotCourse it1) * (2 * v)))
    as [(Hx3 & Hy3 & Ht3 & Hs3 & _) _]; [done | rewrite Hs2'; simpl in Hgo; nra | done |].
  cbn [fst snd] in *.
  exists (truthy (speed (applyPhysicsItem (set_unused 1 it2)))),
         (applyPhysicsItem (set_unused 1 it2)).
  split; [apply tick_lone|].
  rewrite Hx3, Hy3, Ht3, Hs3, Hs2', Ht2, Hf2. simpl. rewrite Hsc.
  repeat split; try done; lra.
Qed.

Lemma pushed_straight_shot_witness :
  exists it1,
    push [newItem 0 0 1 1] 0 0 8 0 = [it1] /\ course it1 = 0 /\
    speed it1 = Rmin 8 (maxSpeed config).
Proof.
  pose proof PI_RGT_0.
  destruct (pushed_straight_shot (newItem 0 0 1 1) true 0 8)
    as (it1 & H1 & H2 & H3 & _); try done; simpl; try lra.
  by exists it1.
Defined.




(** ** The curve of a shot *)

(** The sine curve of a shot.  The next position is as far from the origin
    of the shot as the hypotenuse of the distance along the shot and the
    sideways offset [realY]; the offset is at most [|curve| * |shotDistance|
    / PI], which it reaches half way, and it is [0] at the end of the shot,
    where the next position is on the line of [shotCourse] whatever the curve
    is. *)
Theorem curved_shot_geometry (it : Item) (c : R) :
  shotCurve it = Some c -> shotDistance it <> 0 ->
  let q := computeNextCurvePos it in
  let along := shotTraveled it + speed it in
  (along <> 0 ->
   abcSquare (q.1 - shotOriginX it) (q.2 - shotOriginY it)
   = sqrt (along ^ 2 + curveRealY it ^ 2)) /\
  Rabs (curveRealY it) <= Rabs c * Rabs (shotDistance it) / PI /\
  (along = shotDistance it / 2 ->
   curveRealY it = c * shotDistance it / PI) /\
  (along = shotDistance it ->
   curveRealY it = 0 /\
   q = (shotOriginX it + cos (shotCourse it) * Rabs (shotDistance it),
        shotOriginY it + sin (shotCourse it) * Rabs (shotDistance it))).
Proof.
  intros Hc HD q along. pose proof PI_RGT_0 as Hpi.
  assert (Hy : curveY it = sin (getShotProgressToPi it) * c).
  { unfold curveY, curveNumber. rewrite Hc. simpl. ring. }
  split; [|split; [|split]].
  - intros _. subst q. unfold computeNextCurvePos. cbn [fst snd].
    unfold curveStepDistance. rewrite !abcSquare_sqrt. fold along.
    set (s := sqrt (along ^ 2 + curveRealY it ^ 2)).
    set (a := shotCourse it - curveAlpha it).
    pose proof (sqrt_pos (along ^ 2 + curveRealY it ^ 2)) as Hs. fold s in Hs.
    apply sqrt_eq; [done|].
    pose proof (sin2_cos2 a) as H. unfold Rsqr in H. nra.
  - unfold curveRealY. rewrite Hy.
    unfold Rdiv. rewrite !Rabs_mult, Rabs_inv, (Rabs_pos_eq PI) by lra.
    pose proof (SIN_bound (getShotProgressToPi it)) as Hsin.
    assert (Rabs (sin (getShotProgressToPi it)) <= 1) by (apply Rabs_le; lra).
    pose proof (Rabs_pos c). pose proof (Rabs_pos (shotDistance it)).
    assert (0 < / PI) by (by apply Rinv_0_lt_compat).
    assert (0 <= Rabs c * / PI * Rabs (shotDistance it)).
    { apply Rmult_le_pos; [apply Rmult_le_pos|]; lra. }
    nra.
  - intros Hhalf. unfold curveRealY. rewrite Hy.
    unfold getShotProgressToPi. fold along. rewrite Hhalf.
    replace (shotDistance it / 2 / shotDistance it * PI) with (PI / 2) by (field; done).
    rewrite sin_PI2. field. lra.
  - intros Hend.
    assert (Hx : getShotProgressToPi it = PI).
    { unfold getShotProgressToPi. fold along. rewrite Hend. field. done. }
    assert (Hy0 : curveY it = 0) by (rewrite Hy, Hx, sin_PI; ring).
    assert (Hr : curveRealY it = 0).
    { unfold curveRealY. rewrite Hy0. unfold Rdiv. ring. }
    split; [done|]. subst q. unfold computeNextCurvePos.
    assert (Ha : curveAlpha it = 0).
    { unfold curveAlpha. rewrite Hy0. unfold Rdiv. rewrite Rmult_0_l. apply atan_0. }
    assert (Hstep : curveStepDistance it = Rabs (shotDistance it)).
    { unfold curveStepDistance. fold along. rewrite Hr, Hend, abcSquare_sqrt.
      replace (shotDistance it ^ 2 + 0 ^ 2) with (Rsqr (shotDistance it))
        by (unfold Rsqr; ring).
      apply sqrt_Rsqr_abs. }
    by rewrite Ha, Hstep, Rminus_0_r.
Qed.

Lemma curved_shot_geometry_witness :
  curveRealY curvedShot = 1 * 100 / PI.
Proof.
  destruct (curved_shot_geometry curvedShot 1) as (_ & _ & H & _);
    [done | simpl; lra |].
  apply H; simpl; lra.
Defined.

(** ** What [collisionCheck] changes *)

Lemma modify_set_course_lookup (c : R) (i k : nat) (w : list Item) :
  exists c', modify (set_course c) i w !!! k = set_course c' (w !!! k).
Proof.
  unfold modify. rewrite list_lookup_total_insert. case_decide as H.
  - destruct H as [-> _]. by eexists.
  - exists (course (w !!! k)). by destruct (w !!! k).
Qed.

Lemma collisionCheckInner_found (w : list Item) (A : nat) (js : list nat) :
  let r := collisionCheckInner w A js in
  (r.1 = false /\ r.2 = w /\ Forall (fun B => phased (w !!! A) (w !!! B) = false) js) \/
  (r.1 = true /\ exists B, B ∈ js /\ phased (w !!! A) (w !!! B) = true /\
                           r.2 = turnApart w A B).
Proof.
  induction js as [|B js IH]; [by left|].
  cbn [collisionCheckInner]. destruct (phased (w !!! A) (w !!! B)) eqn:Hp.
  - right. cbv zeta. cbn [fst snd]. split; [done|]. exists B.
    split; [apply list_elem_of_here|]. split; [done|].
    unfold turnApart. cbv zeta. by case_decide.
  - destruct IH as [(H1 & H2 & H3)|(H1 & B' & HB' & Hp' & H2)].
    + left. split; [done|]. split; [done|]. by constructor.
    + right. split; [done|]. exists B'. split; [by apply list_elem_of_further|]. done.
Qed.

Lemma collisionCheckFrom_found (todo : list nat) (w : list Item) :
  (collisionCheckFrom w todo = w /\
   Forall (fun A => disabled (w !!! A) = false ->
                    Forall (fun B => phased (w !!! A) (w !!! B) = false)
                           (seq (S A) (length w - S A))) todo) \/
  (exists A B, A ∈ todo /\ B ∈ seq (S A) (length w - S A) /\
               disabled (w !!! A) = false /\
               phased (w !!! A) (w !!! B) = true /\
               collisionCheckFrom w todo = turnApart w A B).
Proof.
  induction todo as [|i todo IH]; [by left|].
  cbn [collisionCheckFrom]. destruct (disabled (w !!! i)) eqn:Hd.
  - destruct IH as [[H1 H2]|(A & B & HA & HB & H3 & H4 & H5)].
    + left. split; [done|]. constructor; [|done]. by rewrite Hd.
    + right. exists A, B. split; [by apply list_elem_of_further|]. done.
  - pose proof (collisionCheckInner_found w i (seq (S i) (length w - S i))) as Hin.
    destruct (collisionCheckInner w i _) as [found w1]. cbn [fst snd] in Hin.
    destruct Hin as [(-> & -> & Hall)|(-> & B & HB & Hp & ->)].
    + destruct IH as [[H1 H2]|(A & B & HA & HB & H3 & H4 & H5)].
      * left. split; [done|]. by constructor.
      * right. exists A, B. split; [by apply list_elem_of_further|]. done.
    + right. exists i, B. split; [apply list_elem_of_here|]. done.
Qed.

(** [collisionCheck] either changes nothing, when no item that is not
    disabled is nearer to an item registered after it than the sum of their
    radii (the distance taken between their positions), or it turns the
    courses of one such pair, as a collision would, and changes nothing
    else: no item is moved. *)
Theorem collisionCheck_turns_one_pair (w : list Item) :
  (collisionCheck w = w /\
   forall A B, (A < B < length w)%nat -> disabled (w !!! A) = false ->
               phased (w !!! A) (w !!! B) = false) \/
  (exists A B, (A < B < length w)%nat /\ disabled (w !!! A) = false /\
               phased (w !!! A) (w !!! B) = true /\
               collisionCheck w = turnApart w A B /\
               forall k, set_course (course (w !!! k)) (collisionCheck w !!! k) = w !!! k).
Proof.
  unfold collisionCheck.
  destruct (collisionCheckFrom_found (seq 0 (length w)) w)
    as [[H1 H2]|(A & B & HA & HB & H3 & H4 & H5)].
  - left. split; [done|]. intros A B HAB Hd.
    rewrite Forall_forall in H2.
    assert (HA : A ∈ seq 0 (length w)) by (apply elem_of_seq; lia).
    specialize (H2 A HA Hd). rewrite Forall_forall in H2.
    apply H2. apply elem_of_seq. lia.
  - right. exists A, B. apply elem_of_seq in HA, HB.
    split; [lia|]. split; [done|]. split; [done|]. split; [done|].
    intros k. rewrite H5. unfold turnApart. cbv zeta.
    do 2 match goal with
         | |- context [modify (set_course ?c) ?i ?w0 !!! k] =>
             destruct (modify_set_course_lookup c i k w0) as [? ->]
         end.
    by destruct (w !!! k).
Qed.

Lemma collisionCheck_turns_one_pair_witness :
  collisionCheck (items restingWorld) = items restingWorld.
Proof.
  destruct (collisionCheck_turns_one_pair (items restingWorld))
    as [[H _]|(A & B & HAB & _ & Hp & _)]; [done|].
  exfalso. simpl in HAB.
  assert (A = 0%nat) as -> by lia. assert (B = 1%nat) as -> by lia.
  unfold phased in Hp. simpl in Hp. apply bool_decide_eq_true in Hp.
  pose proof (abcSquare_ge (0 - 100) (0 - 0) 40 ltac:(lra) ltac:(lra)). lra.
Defined.

(** ** The cached step distance *)

Lemma getStepDistance_hit (it : Item) (s : R) :
  stepDistance (cache it) = Some s -> s <> 0 -> getStepDistance it = (s, it).
Proof. intros Hc Hs. unfold getStepDistance. by rewrite Hc, truthy_true. Qed.

(** [getStepDistance] keeps its result in the cache of the item.  A second
    call returns the same number and changes nothing.  A result that is
    not [0] is returned again after the speed, the course or [unused] of the
    item have changed; [setPos] is what makes the next call compute, and for
    an item on a straight course the number computed is [speed * unused]. *)
Theorem getStepDistance_cache (it : Item) :
  let r := getStepDistance it in
  getStepDistance r.2 = r /\
  (r.1 <> 0 ->
   forall v, (getStepDistance (set_speed v r.2)).1 = r.1 /\
             (getStepDistance (set_unused v r.2)).1 = r.1 /\
             (getStepDistance (set_course v r.2)).1 = r.1) /\
  (shotCurve it = None ->
   forall x y, (getStepDistance (setPos x y r.2)).1 = speed it * unused it).
Proof.
  cbv zeta. split; [apply getStepDistance_again|]. split.
  - intros Hr v.
    assert (Hc : stepDistance (cache (getStepDistance it).2) = Some (getStepDistance it).1).
    { unfold getStepDistance in *.
      destruct (stepDistance (cache it)) as [s|] eqn:Hs.
      - destruct (truthy s) eqn:Ht; [done|].
        destruct (computeStepDistance_body it) as (c & H1 & H2). by rewrite H1.
      - destruct (computeStepDistance_body it) as (c & H1 & H2). by rewrite H1. }
    rewrite (getStepDistance_hit (set_speed v _) (getStepDistance it).1) by done.
    rewrite (getStepDistance_hit (set_unused v _) (getStepDistance it).1) by done.
    by rewrite (getStepDistance_hit (set_course v _) (getStepDistance it).1).
  - intros Hcv x y.
    destruct (getStepDistance_fields it) as (_ & _ & _ & _ & Hs & _ & Hu & Hc).
    cbv zeta in *. unfold getStepDistance at 1. cbn [cache setPos stepDistance emptyCache].
    unfold computeStepDistance. cbn [shotCurve setPos]. rewrite Hc, Hcv.
    cbn [fst speed unused setPos]. by rewrite Hs, Hu.
Qed.

Lemma getStepDistance_cache_witness :
  (getStepDistance
     (set_speed 3 (getStepDistance (gliding 0 0 1 5 0)).2)).1 = 5 * 1.
Proof.
  destruct (getStepDistance_cache (gliding 0 0 1 5 0)) as (_ & H & _).
  apply H. simpl. lra.
Defined.

(** ** The lookahead *)





(** ** Two items of the same radius *)

(** The sweep test clears a step: when it reports no collision for two
    items that are apart, and the item called [A] does not stand still while
    the other one moves, the two items are not overlapping at the end of
    their steps. *)
Lemma sweepDistance_miss_clear (A B : Item) (sA sB : R) :
  let q := sweepQuadratic A B sA sB in
  0 <= sA -> (sA = 0 -> q.1.1 = 0) -> 0 < q.2 ->
  sweepDistance q.1.1 q.1.2 q.2 sA <= 0 ->
  0 <= sweepGap A B sA sB 1.
Proof.
  intros q HsA Hstill Hc Hd.
  rewrite <- sweepQuadratic_gap. fold q.
  replace (q.1.1 * 1 ^ 2 + q.1.2 * 1 + q.2) with (q.1.1 + q.1.2 + q.2) by ring.
  pose proof (sweepQuadratic_a_nonneg A B sA sB) as Ha0. fold q in Ha0.
  pose proof (sweepQuadratic_a_pos A B sA sB) as Ha. fold q in Ha.
  destruct (Rle_lt_dec (sweepDiscriminant q.1.1 q.1.2 q.2) 0) as [Hdisc|Hdisc].
  - unfold sweepDiscriminant in Hdisc.
    destruct Ha0 as [Hpos|Hzero].
    + assert (0 <= 4 * q.1.1 * (q.1.1 + q.1.2 + q.2)); [|nra].
      assert (0 <= (2 * q.1.1 + q.1.2) * (2 * q.1.1 + q.1.2)) by apply Rle_0_sqr.
      nra.
    + rewrite <- Hzero in *. assert (q.1.2 = 0) by nra. lra.
  - specialize (Ha Hdisc).
    pose proof (sweepT_order q.1.1 q.1.2 q.2 Ha) as Hord.
    set (t1 := sweepT1 q.1.1 q.1.2 q.2) in *.
    set (t2 := sweepT2 q.1.1 q.1.2 q.2) in *.
    assert (Hsum : q.1.1 * (t1 + t2) = - q.1.2).
    { unfold t1, t2, sweepT1, sweepT2. field. lra. }
    assert (Hprod : q.1.1 * (t1 * t2) = q.2).
    { unfold t1, t2, sweepT1, sweepT2.
      pose proof (sqrt_sqrt (sweepDiscriminant q.1.1 q.1.2 q.2) ltac:(lra)) as Hs.
      set (s := sqrt _) in *.
      replace (q.1.1 * ((- q.1.2 + s) / (2 * q.1.1) * ((- q.1.2 - s) / (2 * q.1.1))))
        with ((q.1.2 * q.1.2 - s * s) / (4 * q.1.1)) by (field; lra).
      rewrite Hs. unfold sweepDiscriminant. field. lra. }
    assert (Hgap : q.1.1 + q.1.2 + q.2 = q.1.1 * ((1 - t1) * (1 - t2))) by nra.
    assert (Hpp : 0 < t1 * t2) by nra.
    assert (Hsigns : (t1 < 0 /\ t2 < 0) \/ (0 < t1 /\ 0 < t2)) by nra.
    assert (HsA' : 0 < sA).
    { destruct HsA as [|<-]; [done|]. specialize (Hstill eq_refl). lra. }
    unfold sweepDistance in Hd. fold t1 t2 in Hd.
    rewrite decide_False in Hd by lra.
    revert Hd. case_decide as Hout.
    + intros _. rewrite Hgap. apply Rmult_le_pos; [lra|]. nra.
    + rewrite decide_False by lra. intros Hd. exfalso. apply Hout. nra.
Qed.

Lemma getStepDistance_straight (it : Item) :
  shotCurve it = None -> coherent it ->
  (getStepDistance it).1 = speed it * unused it /\ coherent (getStepDistance it).2.
Proof.
  intros Hc Hcoh. unfold getStepDistance.
  assert (Hcomp : (computeStepDistance it).1 = speed it * unused it /\
                  coherent (computeStepDistance it).2).
  { unfold computeStepDistance. rewrite Hc. cbn [fst snd]. split; [done|].
    intros v. cbn [cache set_cache stepDistance speed unused]. intros [= <-]. by right. }
  destruct (stepDistance (cache it)) as [v|] eqn:Hv; [|done].
  unfold truthy. case_bool_decide as Hnz; [|done]. cbn [fst snd].
  split; [|done]. destruct (Hcoh v Hv); [done|done].
Qed.

Lemma straightItem_getStepDistance (it : Item) :
  straightItem it -> straightItem (getStepDistance it).2.
Proof.
  intros (Hok & Hc & Hcoh). split; [by apply getStepDistance_ok|]. split.
  - by destruct (getStepDistance_fields it) as (_ & _ & _ & _ & _ & _ & _ & ->).
  - by apply getStepDistance_straight.
Qed.

(** The sweep test on two items on straight courses. *)
Lemma getDistanceToIntersection_straight (w : list Item) (A B : nat) :
  A <> B -> (A < length w)%nat -> (B < length w)%nat -> Forall straightItem w ->
  let sA := speed (w !!! A) * unused (w !!! A) in
  let sB := speed (w !!! B) * unused (w !!! B) in
  let q := sweepQuadratic (w !!! A) (w !!! B) sA sB in
  let r := getDistanceToIntersection w A B in
  r.1 = sweepDistance q.1.1 q.1.2 q.2 sA /\
  Forall straightItem r.2 /\ sameBodies w r.2 /\ length r.2 = length w.
Proof.
  intros HAB HA HB Hw. cbv zeta.
  pose proof (Forall_lookup_total_1 _ _ A Hw HA) as (HokA & HcA & HcohA).
  pose proof (Forall_lookup_total_1 _ _ B Hw HB) as (HokB & HcB & HcohB).
  split; [|split; [|split]].
  - rewrite getDistanceToIntersection_value by done.
    destruct (getStepDistance_straight (w !!! A) HcA HcohA) as [-> _].
    by destruct (getStepDistance_straight (w !!! B) HcB HcohB) as [-> _].
  - destruct (getDistanceToIntersection_pair w A B HAB HA HB) as (_ & _ & ->).
    cbn [snd]. unfold put2.
    apply Forall_insert; [apply Forall_insert; [done|]|];
      apply straightItem_getStepDistance; by apply Forall_lookup_total_1.
  - apply getDistanceToIntersection_bodies.
  - apply length_getDistanceToIntersection.
Qed.

(** In a world of two items the lookahead finds no third one. *)
Lemma getClosestItemAfterMove_two (w : list Item) (A B : nat) (d : R) :
  length w = 2%nat -> A <> B -> (A < 2)%nat -> (B < 2)%nat ->
  getClosestItemAfterMove w A B d = B.
Proof.
  intros Hlen HAB HA HB. unfold getClosestItemAfterMove. cbv zeta. rewrite Hlen.
  cbn [seq find].
  destruct A as [|[|A]], B as [|[|B]]; try lia; done.
Qed.

(** One collision test in a world of two items: it reports no collision and
    writes caches only, or it resolves the contact the sweep test found. *)
Lemma updateIfColliding_two (w : list Item) (item1 item2 : nat) :
  length w = 2%nat -> item1 <> item2 -> (item1 < 2)%nat -> (item2 < 2)%nat ->
  exists A B, A <> B /\ (A < 2)%nat /\ (B < 2)%nat /\
    speed (w !!! A) >= speed (w !!! B) /\
    let r := getDistanceToIntersection w A B in
    updateIfColliding 20 w item1 item2 0
    = if decide (r.1 > 0) then Some (true, updateForCollision r.2 A B r.1)
      else Some (false, r.2).
Proof.
  intros Hlen Hne H1 H2. rewrite updateIfColliding_step. cbv zeta.
  set (A := if decide (speed (w !!! item1) >= speed (w !!! item2)) then item1 else item2).
  set (B := if (A =? item1)%nat then item2 else item1).
  assert (Hcases : (A = item1 /\ B = item2 /\ speed (w !!! item1) >= speed (w !!! item2)) \/
                   (A = item2 /\ B = item1 /\ speed (w !!! item2) >= speed (w !!! item1))).
  { subst B A. case_decide as Hs.
    - left. by rewrite Nat.eqb_refl.
    - right. destruct (Nat.eqb_spec item2 item1); [done|]. split; [done|]. split; [done|]. lra. }
  exists A, B.
  assert (HAB : A <> B /\ (A < 2)%nat /\ (B < 2)%nat /\ speed (w !!! A) >= speed (w !!! B)).
  { destruct Hcases as [(-> & -> & ?)|(-> & -> & ?)]; done. }
  destruct HAB as (HAB & HA & HB & Hs).
  do 4 (split; [done|]).
  case_decide; [|done].
  rewrite getClosestItemAfterMove_two; [|by rewrite length_getDistanceToIntersection|done..].
  by rewrite Nat.eqb_refl.
Qed.

Lemma sameBodies_fields (w w' : list Item) (k : nat) :
  sameBodies w w' ->
  pos_x (w' !!! k) = pos_x (w !!! k) /\ pos_y (w' !!! k) = pos_y (w !!! k) /\
  radius (w' !!! k) = radius (w !!! k) /\ course (w' !!! k) = course (w !!! k) /\
  speed (w' !!! k) = speed (w !!! k) /\ unused (w' !!! k) = unused (w !!! k) /\
  shotCurve (w' !!! k) = shotCurve (w !!! k).
Proof.
  intros Hs. pose proof (Forall2_length _ _ _ Hs) as Hlen.
  destruct (w !! k) as [it|] eqn:Hk.
  - destruct (sameBodies_lookup w w' k it Hs Hk) as [c ->].
    by rewrite (list_lookup_total_correct w k it Hk).
  - rewrite !list_lookup_total_alt, Hk.
    apply lookup_ge_None in Hk.
    by rewrite (proj2 (lookup_ge_None w' k)) by lia.
Qed.

(** In a world where every two items touch or overlap, a pass finds no
    collision. *)
Lemma testOrdered_touching (rest : list nat) (w : list Item) (item : nat) :
  (item < length w)%nat -> Forall (fun j => (j < length w)%nat) rest ->
  Forall itemOK w ->
  (forall i j, (i < length w)%nat -> (j < length w)%nat ->
     distanceBetween (w !!! i) (w !!! j) <= radius (w !!! i) + radius (w !!! j)) ->
  exists w', testOrdered w item rest = Some (false, w') /\ sameBodies w w' /\
             Forall itemOK w'.
Proof.
  revert w. induction rest as [|other rest IH]; intros w Hi Hrest Hok Htouch.
  { exists w. split; [done|]. split; [apply sameBodies_refl | done]. }
  apply Forall_cons in Hrest as [Ho Hrest]. cbn [testOrdered].
  destruct (updateIfColliding_pass 19 w item other 0 Hi Ho Hok) as (w1 & Hu & Hb).
  { left. specialize (Htouch item other Hi Ho).
    apply abcSquare_le_square in Htouch. unfold sweepQuadratic. cbn [snd]. nra. }
  rewrite Hu.
  destruct (updateIfColliding_ok 20 w w1 item other 0 false Hi Ho Hok Hu) as [Hok1 Hlen1].
  destruct (IH w1) as (w2 & Ht & Hb2 & Hok2).
  - by rewrite Hlen1.
  - by rewrite Hlen1.
  - done.
  - intros i j Hi' Hj'. unfold distanceBetween.
    destruct (sameBodies_fields w w1 i Hb) as (-> & -> & -> & _).
    destruct (sameBodies_fields w w1 j Hb) as (-> & -> & -> & _).
    apply Htouch; by rewrite <- Hlen1.
  - exists w2. split; [done|]. split; [|done]. by eapply sameBodies_trans.
Qed.

Lemma collisionStepFrom_touching (todo : list nat) (w : list Item) :
  Forall (fun j => (j < length w)%nat) todo ->
  Forall itemOK w ->
  (forall i j, (i < length w)%nat -> (j < length w)%nat ->
     distanceBetween (w !!! i) (w !!! j) <= radius (w !!! i) + radius (w !!! j)) ->
  exists w', collisionStepFrom w todo = Some (false, w') /\ sameBodies w w'.
Proof.
  revert w. induction todo as [|item todo IH]; intros w Htodo Hok Htouch.
  { exists w. split; [done|]. apply sameBodies_refl. }
  apply Forall_cons in Htodo as [Hi Htodo]. cbn [collisionStepFrom].
  destruct (truthy _ && truthy _); [|by apply IH].
  destruct (testOrdered_touching (drop 1 (orderByDistance w (seq 0 (length w)) item)) w item)
    as (w1 & Ht & Hb & Hok1); try done.
  { apply Forall_forall. intros j Hj.
    assert (Hj' : j ∈ orderByDistance w (seq 0 (length w)) item).
    { eapply elem_of_sublist; [exact Hj | apply sublist_drop]. }
    rewrite orderByDistance_Permutation in Hj'. apply elem_of_seq in Hj'. lia. }
  rewrite Ht.
  pose proof (Forall2_length _ _ _ Hb) as Hlen.
  destruct (IH w1) as (w2 & Hs & Hb2).
  - by rewrite <- Hlen.
  - done.
  - intros i j Hi' Hj'. unfold distanceBetween.
    destruct (sameBodies_fields w w1 i Hb) as (-> & -> & -> & _).
    destruct (sameBodies_fields w w1 j Hb) as (-> & -> & -> & _).
    apply Htouch; by rewrite Hlen.
  - exists w2. split; [done|]. by eapply sameBodies_trans.
Qed.

(** The order of the tests in a world of two items at different places. *)
Lemma orderByDistance_two (w : list Item) (item : nat) :
  length w = 2%nat -> (item < 2)%nat ->
  0 < distanceBetween (w !!! 0%nat) (w !!! 1%nat) ->
  drop 1 (orderByDistance w (seq 0 (length w)) item) = [(1 - item)%nat].
Proof.
  intros Hlen Hi Hd.
  destruct (orderByDistance_head w item) as [Hhead Hnot].
  { lia. }
  { intros j Hj Hne.
    assert (Hsym : distanceBetween (w !!! 1%nat) (w !!! 0%nat)
                   = distanceBetween (w !!! 0%nat) (w !!! 1%nat)).
    { unfold distanceBetween. rewrite !abcSquare_sqrt. f_equal. ring. }
    destruct item as [|[|?]], j as [|[|?]]; try lia; [done | by rewrite Hsym]. }
  pose proof (orderByDistance_Permutation w (seq 0 (length w)) item) as Hperm.
  cbv zeta in Hhead, Hnot. rewrite Hhead in Hperm.
  set (tail := drop 1 (orderByDistance w (seq 0 (length w)) item)) in *. clearbody tail.
  rewrite Hlen in Hperm. cbn [seq] in Hperm.
  destruct tail as [|x [|y rest]].
  - apply Permutation_length in Hperm. simpl in Hperm. lia.
  - f_equal.
    assert (Hx : x ∈ [0%nat; 1%nat]).
    { rewrite <- Hperm. apply list_elem_of_further, list_elem_of_here. }
    assert (Hxi : x <> item).
    { intros ->. apply Hnot. apply list_elem_of_here. }
    apply elem_of_cons in Hx as [->|Hx]; [lia|].
    apply list_elem_of_singleton in Hx as ->. lia.
  - apply Permutation_length in Hperm. simpl in Hperm. lia.
Qed.

(** A pass in a world of two items on straight courses, at different places:
    it finds no collision, after a sweep test of the two that reports none
    when one of them moves, or it resolves the contact a sweep test found. *)
Lemma collisionStep_two (w : list Item) :
  length w = 2%nat -> Forall straightItem w ->
  0 < distanceBetween (w !!! 0%nat) (w !!! 1%nat) ->
  (exists w', collisionStep w = Some (false, w') /\ sameBodies w w' /\
     ((forall k, (k < 2)%nat ->
                 truthy (speed (w !!! k)) && truthy (unused (w !!! k)) = false) \/
      exists A B, A <> B /\ (A < 2)%nat /\ (B < 2)%nat /\
                  speed (w !!! A) >= speed (w !!! B) /\
                  (getDistanceToIntersection w A B).1 <= 0)) \/
  (exists wx A B,
     sameBodies w wx /\ Forall straightItem wx /\ length wx = 2%nat /\
     A <> B /\ (A < 2)%nat /\ (B < 2)%nat /\
     (getDistanceToIntersection wx A B).1 > 0 /\
     collisionStep w
     = Some (true, updateForCollision (getDistanceToIntersection wx A B).2 A B
                     (getDistanceToIntersection wx A B).1)).
Proof.
  intros Hlen Hw Hd.
  (* the test of the item [i] against the other one, from a world [wx] *)
  assert (Htest : forall wx i,
    sameBodies w wx -> Forall straightItem wx -> (i < 2)%nat ->
    (exists w', testOrdered wx i (drop 1 (orderByDistance wx (seq 0 (length wx)) i))
                = Some (false, w') /\
                sameBodies wx w' /\ Forall straightItem w' /\
                exists A B, A <> B /\ (A < 2)%nat /\ (B < 2)%nat /\
                            speed (wx !!! A) >= speed (wx !!! B) /\
                            (getDistanceToIntersection wx A B).1 <= 0) \/
    (exists A B, A <> B /\ (A < 2)%nat /\ (B < 2)%nat /\
                 (getDistanceToIntersection wx A B).1 > 0 /\
                 testOrdered wx i (drop 1 (orderByDistance wx (seq 0 (length wx)) i))
                 = Some (true, updateForCollision (getDistanceToIntersection wx A B).2 A B
                                 (getDistanceToIntersection wx A B).1))).
  { intros wx i Hb Hwx Hi.
    pose proof (Forall2_length _ _ _ Hb) as Hlenx. rewrite Hlen in Hlenx.
    rewrite orderByDistance_two; [|done|lia|].
    2:{ unfold distanceBetween.
        destruct (sameBodies_fields w wx 0 Hb) as (-> & -> & -> & _).
        destruct (sameBodies_fields w wx 1 Hb) as (-> & -> & -> & _). done. }
    cbn [testOrdered].
    destruct (updateIfColliding_two wx i (1 - i)) as (A & B & HAB & HA & HB & Hs & ->);
      [done | lia | done | lia |].
    destruct (getDistanceToIntersection_straight wx A B) as (_ & Hst & Hbod & _);
      [done | lia | lia | done |].
    case_decide as Hpos.
    - right. by exists A, B.
    - left. eexists. split; [done|]. split; [done|]. split; [done|].
      exists A, B. repeat split; try done. lra. }
  unfold collisionStep. rewrite Hlen. cbn [seq collisionStepFrom].
  destruct (truthy (speed (w !!! 0%nat)) && truthy (unused (w !!! 0%nat))) eqn:Hact0.
  - destruct (Htest w 0%nat (sameBodies_refl w) Hw ltac:(lia))
      as [(w1 & -> & Hb1 & Hw1 & Hmiss)|(A & B & HAB & HA & HB & Hpos & ->)].
    2:{ right. exists w, A, B. repeat split; try done. apply sameBodies_refl. }
    destruct (truthy (speed (w1 !!! 1%nat)) && truthy (unused (w1 !!! 1%nat))).
    2:{ left. exists w1. split; [done|]. split; [done|]. by right. }
    destruct (Htest w1 1%nat Hb1 Hw1 ltac:(lia))
      as [(w2 & -> & Hb2 & Hw2 & _)|(A & B & HAB & HA & HB & Hpos & ->)].
    + left. exists w2. split; [done|]. split; [by eapply sameBodies_trans|]. by right.
    + right. exists w1, A, B. repeat split; try done.
      rewrite <- Hlen. symmetry. eapply Forall2_length. exact Hb1.
  - destruct (truthy (speed (w !!! 1%nat)) && truthy (unused (w !!! 1%nat))) eqn:Hact1.
    + destruct (Htest w 1%nat (sameBodies_refl w) Hw ltac:(lia))
        as [(w1 & -> & Hb1 & Hw1 & Hmiss)|(A & B & HAB & HA & HB & Hpos & ->)].
      * left. exists w1. split; [done|]. split; [done|]. by right.
      * right. exists w, A, B. repeat split; try done. apply sameBodies_refl.
    + left. exists w. split; [done|]. split; [apply sameBodies_refl|]. left.
      intros [|[|k]] Hk; [done | done | lia].
Qed.

Lemma overlapping_sym (a b : Item) : overlapping a b -> overlapping b a.
Proof.
  unfold overlapping, distanceBetween. rewrite !abcSquare_sqrt. intros H.
  replace (sqrt ((pos_x b + radius b - (pos_x a + radius a)) ^ 2
                 + (pos_y b + radius b - (pos_y a + radius a)) ^ 2))
    with (sqrt ((pos_x a + radius a - (pos_x b + radius b)) ^ 2
                + (pos_y a + radius a - (pos_y b + radius b)) ^ 2)) by (f_equal; ring).
  lra.
Qed.

(** Where [applyPhysics] leaves an item on a straight course: an item that
    is not moved has the step [0]. *)
Lemma applyPhysicsItem_move (it : Item) :
  shotCurve it = None ->
  pos_x (applyPhysicsItem it) = pos_x it + cos (course it) * (speed it * unused it) /\
  pos_y (applyPhysicsItem it) = pos_y it + sin (course it) * (speed it * unused it) /\
  radius (applyPhysicsItem it) = radius it.
Proof.
  intros Hc.
  destruct (decide (speed it = 0)) as [Hs|Hs]; [|destruct (decide (unused it = 0)) as [Hu|Hu]].
  - unfold applyPhysicsItem. rewrite (truthy_false (speed it)) by done. cbn [andb].
    rewrite Hs. split; [lra|]. split; [lra|done].
  - unfold applyPhysicsItem. rewrite (truthy_false (unused it)) by done.
    rewrite andb_false_r. rewrite Hu. split; [lra|]. split; [lra|done].
  - rewrite applyPhysicsItem_straight by done.
    unfold set_unused, set_speed, set_shotTraveled, setPos. simpl.
    split; [lra|]. split; [lra|done].
Qed.

(** Two items whose steps end apart are apart after [applyPhysics]. *)
Lemma miss_then_apart (a b : Item) :
  shotCurve a = None -> shotCurve b = None -> 0 <= radius a + radius b ->
  0 <= sweepGap a b (speed a * unused a) (speed b * unused b) 1 ->
  ~ overlapping (applyPhysicsItem a) (applyPhysicsItem b).
Proof.
  intros Ha Hb HR Hgap.
  destruct (applyPhysicsItem_move a Ha) as (Hxa & Hya & Hra).
  destruct (applyPhysicsItem_move b Hb) as (Hxb & Hyb & Hrb).
  unfold overlapping, distanceBetween. rewrite Hxa, Hya, Hra, Hxb, Hyb, Hrb.
  apply Rle_not_lt, abcSquare_ge; [done|].
  unfold sweepGap in Hgap. lra.
Qed.

(** Two items of the same radius in contact, the second on the course of
    the line between them and the first at a right angle to it, are not
    overlapping after [applyPhysics]. *)
Lemma contact_then_apart (a b : Item) :
  shotCurve a = None -> shotCurve b = None ->
  radius a = radius b -> 0 <= radius a ->
  0 <= speed a * unused a -> 0 <= speed b * unused b ->
  distanceBetween a b = radius a + radius b ->
  course b = getCourse (pos_x a) (pos_y a) (pos_x b) (pos_y b) ->
  cos (course a - course b) = 0 ->
  ~ overlapping (applyPhysicsItem a) (applyPhysicsItem b).
Proof.
  intros Ha Hb Hr HR HsA HsB Hd Hcb Hperp.
  destruct (applyPhysicsItem_move a Ha) as (Hxa & Hya & Hra).
  destruct (applyPhysicsItem_move b Hb) as (Hxb & Hyb & Hrb).
  unfold overlapping, distanceBetween. rewrite Hxa, Hya, Hra, Hxb, Hyb, Hrb.
  apply Rle_not_lt, abcSquare_ge; [lra|].
  set (sA := speed a * unused a) in *. set (sB := speed b * unused b) in *.
  set (dx := pos_x b - pos_x a) in *. set (dy := pos_y b - pos_y a) in *.
  assert (HD : abcSquare dx dy = radius a + radius b).
  { rewrite <- Hd. unfold distanceBetween, dx, dy. rewrite !abcSquare_sqrt.
    f_equal. rewrite Hr. ring. }
  destruct (atan2_decode dy dx) as [Hcx Hsy].
  unfold getCourse in Hcb. fold dx dy in Hcb. rewrite <- Hcb, HD in Hcx, Hsy.
  rewrite cos_minus in Hperp.
  pose proof (sin2_cos2 (course a)) as H1. pose proof (sin2_cos2 (course b)) as H2.
  unfold Rsqr in H1, H2.
  set (Ca := cos (course a)) in *. set (Sa := sin (course a)) in *.
  set (Cb := cos (course b)) in *. set (Sb := sin (course b)) in *.
  set (R2 := radius a + radius b) in *.
  assert (HR2 : 0 <= R2) by (unfold R2; lra).
  replace ((pos_x a + Ca * sA + radius a - (pos_x b + Cb * sB + radius b)) ^ 2
           + (pos_y a + Sa * sA + radius a - (pos_y b + Sb * sB + radius b)) ^ 2)
    with ((Ca * sA - (dx + Cb * sB)) ^ 2 + (Sa * sA - (dy + Sb * sB)) ^ 2)
    by (unfold dx, dy; rewrite Hr; ring).
  rewrite <- Hcx, <- Hsy.
  replace ((Ca * sA - (Cb * R2 + Cb * sB)) ^ 2 + (Sa * sA - (Sb * R2 + Sb * sB)) ^ 2)
    with (sA ^ 2 * (Sa * Sa + Ca * Ca) + (R2 + sB) ^ 2 * (Sb * Sb + Cb * Cb)
          - 2 * sA * (R2 + sB) * (Ca * Cb + Sa * Sb)) by ring.
  rewrite H1, H2, Hperp.
  pose proof (pow2_ge_0 sA). nra.
Qed.

Lemma straightItem_ok (w : list Item) : Forall straightItem w -> Forall itemOK w.
Proof. intros H. eapply Forall_impl; [exact H|]. by intros it (? & _). Qed.

(** The world after the resolution of a contact of two items on straight
    courses. *)
Lemma resolved_two (wx : list Item) (A B : nat) :
  A <> B -> (A < length wx)%nat -> (B < length wx)%nat ->
  Forall straightItem wx ->
  0 <= radius (wx !!! A) + radius (wx !!! B) ->
  let r := getDistanceToIntersection wx A B in
  r.1 > 0 ->
  let w' := updateForCollision r.2 A B r.1 in
  Forall itemOK w' /\ length w' = length wx /\
  shotCurve (w' !!! A) = None /\ shotCurve (w' !!! B) = None /\
  radius (w' !!! A) = radius (wx !!! A) /\ radius (w' !!! B) = radius (wx !!! B) /\
  distanceBetween (w' !!! A) (w' !!! B) = radius (wx !!! A) + radius (wx !!! B) /\
  course (w' !!! B) = getCourse (pos_x (w' !!! A)) (pos_y (w' !!! A))
                                (pos_x (w' !!! B)) (pos_y (w' !!! B)) /\
  cos (course (w' !!! A) - course (w' !!! B)) = 0.
Proof.
  intros HAB HA HB Hw HR r Hd.
  pose proof (straightItem_ok wx Hw) as Hok.
  pose proof (collision_resolution_ok wx A B HAB HA HB Hok Hd) as Hok'.
  pose proof (Forall_lookup_total_1 _ _ A Hw HA) as (HokA & HcA & HcohA).
  destruct (getStepDistance_straight (wx !!! A) HcA HcohA) as [HsA _].
  destruct (getDistanceToIntersection_pair wx A B HAB HA HB) as (Ha & Hb & Hr).
  subst r. rewrite Hr in *. cbn [fst snd] in *.
  set (a1 := (getStepDistance (wx !!! A)).2) in *.
  set (b1 := (getStepDistance (wx !!! B)).2) in *.
  set (sA := (getStepDistance (wx !!! A)).1) in *.
  set (sB := (getStepDistance (wx !!! B)).1) in *.
  cbv zeta. split; [done|].
  split; [by rewrite length_updateForCollision, length_put2|].
  rewrite updateForCollision_put2 by done.
  rewrite !lookup_put2_A, !lookup_put2_B by done.
  destruct (getStepDistance_fields (wx !!! A)) as (_ & _ & Hra & _).
  destruct (getStepDistance_fields (wx !!! B)) as (_ & _ & Hrb & _).
  fold a1 in Hra. fold b1 in Hrb.
  assert (HsA0 : 0 <= sA).
  { rewrite HsA. destruct HokA as [(Hs & _) Hu]. unfold budgeted in Hu. nra. }
  assert (HR' : 0 <= radius a1 + radius b1) by (rewrite Hra, Hrb; done).
  destruct (collidePair_contact a1 b1 sA sB Ha Hb HsA0 HR' Hd) as (Hc & Hr1 & Hr2 & _).
  destruct (collidePair_courses a1 b1 (sweepDistance (sweepQuadratic a1 b1 sA sB).1.1
              (sweepQuadratic a1 b1 sA sB).1.2 (sweepQuadratic a1 b1 sA sB).2 sA))
    as (HcB & HcA' & HvA & HvB & _).
  split; [done|]. split; [done|].
  split; [by rewrite Hr1|]. split; [by rewrite Hr2|].
  split; [by rewrite Hc, Hra, Hrb|]. split; [done|].
  rewrite HcA', HcB. case_decide.
  - match goal with |- cos ?x = 0 => replace x with (- (PI / 2)) by ring end.
    rewrite cos_neg. apply cos_PI2.
  - match goal with |- cos ?x = 0 => replace x with (- (PI / 2 + PI)) by ring end.
    rewrite cos_neg, neg_cos, cos_PI2. ring.
Qed.

Lemma distanceBetween_sym (a b : Item) : distanceBetween a b = distanceBetween b a.
Proof. unfold distanceBetween. rewrite !abcSquare_sqrt. f_equal. ring. Qed.

Lemma apart_gap (a b : Item) (t : R) :
  0 <= radius a + radius b -> radius a + radius b <= distanceBetween a b ->
  0 <= sweepGap a b 0 0 t.
Proof.
  intros HR Hd. unfold distanceBetween in Hd. rewrite abcSquare_sqrt in Hd.
  set (s := (pos_x a + radius a - (pos_x b + radius b)) ^ 2
            + (pos_y a + radius a - (pos_y b + radius b)) ^ 2) in *.
  assert (Hs : 0 <= s).
  { unfold s. apply Rplus_le_le_0_compat; apply pow2_ge_0. }
  pose proof (sqrt_sqrt s Hs) as Hss. pose proof (sqrt_pos s) as Hp.
  unfold sweepGap.
  replace ((pos_x a + radius a + t * (cos (course a) * 0)
            - (pos_x b + radius b + t * (cos (course b) * 0))) ^ 2
           + (pos_y a + radius a + t * (sin (course a) * 0)
              - (pos_y b + radius b + t * (sin (course b) * 0))) ^ 2)
    with s by (unfold s; ring).
  assert (Hm : (radius a + radius b) * (radius a + radius b) <= sqrt s * sqrt s)
    by (apply Rmult_le_compat; lra).
  rewrite Hss in Hm. lra.
Qed.

Lemma apart_quadratic (a b : Item) (sA sB : R) :
  0 <= radius a + radius b -> radius a + radius b < distanceBetween a b ->
  0 < (sweepQuadratic a b sA sB).2.
Proof.
  intros HR Hd. unfold distanceBetween in Hd. rewrite abcSquare_sqrt in Hd.
  set (s := (pos_x a + radius a - (pos_x b + radius b)) ^ 2
            + (pos_y a + radius a - (pos_y b + radius b)) ^ 2) in *.
  assert (Hs : 0 <= s).
  { unfold s. apply Rplus_le_le_0_compat; apply pow2_ge_0. }
  pose proof (sqrt_sqrt s Hs) as Hss.
  assert (Hm : (radius a + radius b) * (radius a + radius b) < sqrt s * sqrt s)
    by (apply Rmult_le_0_lt_compat; lra).
  rewrite Hss in Hm. unfold sweepQuadratic. cbn [snd]. unfold s in Hm. lra.
Qed.

(** The passes of a tick in a world of two items of the same radius on
    straight courses that are apart, with their budgets reset: the loop
    ends, and the steps [applyPhysics] makes afterwards leave no overlap. *)
Lemma collisionPasses_two (w0 : list Item) :
  length w0 = 2%nat -> Forall straightItem w0 ->
  (forall k, (k < 2)%nat -> unused (w0 !!! k) = 1) ->
  radius (w0 !!! 1%nat) = radius (w0 !!! 0%nat) -> 0 <= radius (w0 !!! 0%nat) ->
  radius (w0 !!! 0%nat) + radius (w0 !!! 1%nat)
  < distanceBetween (w0 !!! 0%nat) (w0 !!! 1%nat) ->
  exists w1 loopBreaker collisions,
    collisionPasses 10 w0 0 0 = Some (Finished w1 loopBreaker collisions) /\
    length w1 = 2%nat /\
    ~ overlapping (applyPhysicsItem (w1 !!! 0%nat)) (applyPhysicsItem (w1 !!! 1%nat)).
Proof.
  intros Hlen Hw Hun Hr HR Hapart.
  set (R0 := radius (w0 !!! 0%nat)) in *.
  assert (Hrad : forall k, (k < 2)%nat -> radius (w0 !!! k) = R0).
  { intros [|[|k]] Hk; [done | done | lia]. }
  assert (Hdist : forall A B, A <> B -> (A < 2)%nat -> (B < 2)%nat ->
            R0 + R0 < distanceBetween (w0 !!! A) (w0 !!! B)).
  { intros [|[|A]] [|[|B]] HAB HA HB; try lia; try done.
    - by rewrite Hr in Hapart.
    - rewrite distanceBetween_sym. by rewrite Hr in Hapart. }
  assert (Hitem : forall k, (k < 2)%nat -> straightItem (w0 !!! k)).
  { intros k Hk. apply Forall_lookup_total_1; [done | lia]. }
  (* both orders of the two items *)
  assert (Hboth : forall (w1 : list Item) (A B : nat), A <> B -> (A < 2)%nat -> (B < 2)%nat ->
            ~ overlapping (applyPhysicsItem (w1 !!! A)) (applyPhysicsItem (w1 !!! B)) ->
            ~ overlapping (applyPhysicsItem (w1 !!! 0%nat)) (applyPhysicsItem (w1 !!! 1%nat))).
  { intros w1 [|[|A]] [|[|B]] HAB HA HB H; try lia; try done.
    intros Ho. apply H. by apply overlapping_sym. }
  destruct (collisionStep_two w0 Hlen Hw)
    as [(w1 & Hstep & Hb & Hcase)|(wx & A & B & Hbx & Hwx & Hlenx & HAB & HA & HB & Hpos & Hstep)].
  { pose proof (Hdist 0%nat 1%nat ltac:(lia) ltac:(lia) ltac:(lia)). lra. }
  - (* no collision in the first pass *)
    exists w1, 0%nat, 0%nat. split; [by apply collisionPasses_last|].
    pose proof (Forall2_length _ _ _ Hb) as Hlen1. split; [lia|].
    assert (Hgap : exists A B, A <> B /\ (A < 2)%nat /\ (B < 2)%nat /\
              0 <= sweepGap (w0 !!! A) (w0 !!! B)
                     (speed (w0 !!! A) * unused (w0 !!! A))
                     (speed (w0 !!! B) * unused (w0 !!! B)) 1).
    { destruct Hcase as [Hidle|(A & B & HAB & HA & HB & Hs & Hle)].
      - exists 0%nat, 1%nat. do 3 (split; [lia|]).
        assert (Hz : forall k, (k < 2)%nat -> speed (w0 !!! k) = 0).
        { intros k Hk. specialize (Hidle k Hk). rewrite (Hun k Hk) in Hidle.
          rewrite (truthy_true 1), andb_true_r in Hidle by lra.
          unfold truthy in Hidle. apply bool_decide_eq_false in Hidle.
          destruct (decide (speed (w0 !!! k) = 0)); [done | by exfalso]. }
        rewrite !Hz, !Rmult_0_l by lia.
        apply apart_gap; rewrite !Hrad by lia; [lra|].
        pose proof (Hdist 0%nat 1%nat ltac:(lia) ltac:(lia) ltac:(lia)). lra.
      - exists A, B. do 3 (split; [done|]).
        destruct (getDistanceToIntersection_straight w0 A B) as (Hval & _);
          [done | lia | lia | done |].
        cbv zeta in Hval. rewrite Hval in Hle.
        destruct (Hitem A HA) as ([(HsA & _) _] & _).
        destruct (Hitem B HB) as ([(HsB & _) _] & _).
        apply sweepDistance_miss_clear; [| | |done].
        + rewrite (Hun A HA). lra.
        + rewrite (Hun A HA), (Hun B HB). intros H0.
          assert (speed (w0 !!! A) = 0) as -> by lra.
          assert (speed (w0 !!! B) = 0) as -> by lra.
          unfold sweepQuadratic. simpl. ring.
        + apply apart_quadratic; rewrite !Hrad by done; [lra|].
          by apply Hdist. }
    destruct Hgap as (A & B & HAB & HA & HB & Hgap).
    apply (Hboth w1 A B HAB HA HB).
    destruct (sameBodies_fields w0 w1 A Hb) as (HxA & HyA & HrA & HcA & HsA & HuA & HvA).
    destruct (sameBodies_fields w0 w1 B Hb) as (HxB & HyB & HrB & HcB & HsB & HuB & HvB).
    destruct (Hitem A HA) as (_ & HcurveA & _). destruct (Hitem B HB) as (_ & HcurveB & _).
    apply miss_then_apart.
    + by rewrite HvA.
    + by rewrite HvB.
    + rewrite HrA, HrB, !Hrad by done. lra.
    + unfold sweepGap in *.
      by rewrite HxA, HyA, HrA, HcA, HsA, HuA, HxB, HyB, HrB, HcB, HsB, HuB.
  - (* a contact resolved in the first pass *)
    destruct (sameBodies_fields w0 wx A Hbx) as (_ & _ & HrA & _).
    destruct (sameBodies_fields w0 wx B Hbx) as (_ & _ & HrB & _).
    destruct (resolved_two wx A B) as (Hok' & Hlen' & HvA & HvB & HrA' & HrB' & Hc & HcB & Hperp);
      [done | lia | lia | done | | done |].
    { rewrite HrA, HrB, !Hrad by done. lra. }
    set (w' := updateForCollision (getDistanceToIntersection wx A B).2 A B
                 (getDistanceToIntersection wx A B).1) in *.
    rewrite HrA, HrB, !Hrad in * by done.
    destruct (collisionStepFrom_touching (seq 0 (length w')) w') as (w2 & Hstep2 & Hb2).
    { apply Forall_forall. intros j Hj. apply elem_of_seq in Hj. lia. }
    { done. }
    { rewrite Hlen', Hlenx. intros i j Hi Hj.
      assert (Hri : forall k, (k < 2)%nat -> radius (w' !!! k) = R0).
      { intros k Hk. destruct (decide (k = A)) as [->|HkA]; [done|].
        assert (k = B) as -> by lia. done. }
      rewrite !Hri by done.
      destruct (decide (i = j)) as [->|Hij].
      - rewrite distanceBetween_self. lra.
      - destruct (decide (i = A)) as [->|HiA].
        + assert (j = B) as -> by lia. lra.
        + assert (i = B) as -> by lia. assert (j = A) as -> by lia.
          rewrite distanceBetween_sym. lra. }
    exists w2, 1%nat, 1%nat.
    pose proof (Forall2_length _ _ _ Hb2) as Hlen2.
    split; [|split; [lia|]].
    + rewrite (collisionPasses_next 9 w0 w' 0 0 Hstep).
      change (1 <? 10)%nat with true. cbv iota.
      by apply collisionPasses_last.
    + apply (Hboth w2 A B HAB HA HB).
      destruct (sameBodies_fields w' w2 A Hb2) as (HxA2 & HyA2 & HrA2 & HcA2 & HsA2 & HuA2 & HvA2).
      destruct (sameBodies_fields w' w2 B Hb2) as (HxB2 & HyB2 & HrB2 & HcB2 & HsB2 & HuB2 & HvB2).
      pose proof (Forall_lookup_total_1 _ _ A Hok' ltac:(lia)) as [(HsA' & _) HuA'].
      pose proof (Forall_lookup_total_1 _ _ B Hok' ltac:(lia)) as [(HsB' & _) HuB'].
      unfold budgeted in HuA', HuB'.
      apply contact_then_apart.
      * by rewrite HvA2.
      * by rewrite HvB2.
      * by rewrite HrA2, HrB2, HrA', HrB'.
      * rewrite HrA2, HrA'. done.
      * rewrite HsA2, HuA2. nra.
      * rewrite HsB2, HuB2. nra.
      * unfold distanceBetween. rewrite HxA2, HyA2, HrA2, HxB2, HyB2, HrB2.
        fold (distanceBetween (w' !!! A) (w' !!! B)). rewrite Hc. by rewrite HrA', HrB'.
      * by rewrite HcB2, HxA2, HyA2, HxB2, HyB2.
      * by rewrite HcA2, HcB2.
Qed.

(** Two items of the same radius on straight courses that are apart when a
    tick starts are not overlapping when it ends, whatever their speeds and
    courses: the tick returns, and either its first pass finds no collision
    and the whole steps end apart, or it resolves the contact and the two
    items leave it along the line between them and along the tangent.  The
    items have speeds that are not negative and positive powers, and a step
    distance left in a cache is [0]. *)
Theorem two_items_stay_apart (a b : Item) (finished : bool) :
  shotCurve a = None -> shotCurve b = None ->
  0 <= speed a -> 0 <= speed b -> 0 < power a -> 0 < power b ->
  (forall v, stepDistance (cache a) = Some v -> v = 0) ->
  (forall v, stepDistance (cache b) = Some v -> v = 0) ->
  radius b = radius a -> 0 <= radius a ->
  radius a + radius b < distanceBetween a b ->
  exists moving a' b',
    tick (mkPhysics [a; b] finished) = Some (moving, mkPhysics [a'; b'] true) /\
    ~ overlapping a' b'.
Proof.
  intros Hca Hcb Hsa Hsb Hpa Hpb Hka Hkb Hr HR Hapart.
  destruct (collisionPasses_two (resetItems [a; b])) as (w1 & lb & c & Hpass & Hlen & Hfree).
  - done.
  - unfold resetItems. cbn [map].
    repeat first [apply Forall_nil_2 | apply Forall_cons_2].
    + split; [split; [split; [done|split; [done|]]|]|split; [done|]].
      * intros v Hv. rewrite (Hka v Hv). lra.
      * unfold budgeted. simpl. lra.
      * intros v Hv. left. by apply Hka.
    + split; [split; [split; [done|split; [done|]]|]|split; [done|]].
      * intros v Hv. rewrite (Hkb v Hv). lra.
      * unfold budgeted. simpl. lra.
      * intros v Hv. left. by apply Hkb.
  - intros [|[|k]] Hk; [done | done | lia].
  - done.
  - done.
  - done.
  - unfold tick. cbn [stepCollisions config negb orb items]. rewrite Hpass.
    destruct w1 as [|x [|y [|z w1]]]; try done.
    pose proof (applyPhysics_snd [x; y]) as Hsnd.
    destruct (applyPhysics [x; y]) as [moving w2]. cbn [snd map] in Hsnd. subst w2.
    by exists moving, (applyPhysicsItem x), (applyPhysicsItem y).
Qed.

Lemma two_items_stay_apart_witness :
  exists moving a' b',
    tick (mkPhysics crossingWorld true) = Some (moving, mkPhysics [a'; b'] true) /\
    ~ overlapping a' b'.
Proof.
  apply (two_items_stay_apart (gliding (-1) (-1) 1 40 0) (gliding 9 (-1) 1 0 0) true);
    try done; simpl; try lra.
  unfold distanceBetween. simpl. rewrite (abcSquare_eq _ _ 10); lra.
Defined.

(** ** What a tick leaves alone *)

(** A view of the items that no assignment of the engine changes is the same
    after every operation of a tick. *)
Section Frame.
Context {T : Type} (view : Item -> T).
Hypothesis view_cache : forall c i, view (set_cache c i) = view i.
Hypothesis view_shotCurve : forall v i, view (set_shotCurve v i) = view i.
Hypothesis view_shotTraveled : forall v i, view (set_shotTraveled v i) = view i.
Hypothesis view_speed : forall v i, view (set_speed v i) = view i.
Hypothesis view_course : forall v i, view (set_course v i) = view i.
Hypothesis view_unused : forall v i, view (set_unused v i) = view i.
Hypothesis view_setPos : forall x y i, view (setPos x y i) = view i.

Lemma view_insert (w : list Item) (i : nat) (it : Item) :
  view it = view (w !!! i) -> map view (<[i := it]> w) = map view w.
Proof.
  intros H. rewrite list_fmap_insert.
  destruct (decide (i < length w)%nat) as [Hi|Hi].
  - apply list_insert_id. rewrite list_lookup_fmap.
    rewrite (list_lookup_lookup_total_lt w i Hi). simpl. by rewrite H.
  - apply list_insert_ge. rewrite length_map. lia.
Qed.

Lemma view_modify (f : Item -> Item) (i : nat) (w : list Item) :
  (forall it, view (f it) = view it) -> map view (modify f i w) = map view w.
Proof. intros Hf. unfold modify. by apply view_insert. Qed.

Lemma view_withItem {U : Type} (f : Item -> U * Item) (i : nat) (w : list Item) :
  (forall it, view (f it).2 = view it) -> map view (withItem f i w).2 = map view w.
Proof.
  intros Hf. unfold withItem. specialize (Hf (w !!! i)).
  destruct (f (w !!! i)) as [r it]. by apply view_insert.
Qed.

Lemma view_getStepDistance (it : Item) : view (getStepDistance it).2 = view it.
Proof. destruct (getStepDistance_body it) as [c ->]. apply view_cache. Qed.

Lemma view_getDistanceToIntersection (w : list Item) (A B : nat) :
  map view (getDistanceToIntersection w A B).2 = map view w.
Proof.
  unfold getDistanceToIntersection.
  pose proof (view_withItem getStepDistance A w view_getStepDistance) as H1.
  destruct (withItem getStepDistance A w) as [sA w1].
  pose proof (view_withItem getStepDistance B w1 view_getStepDistance) as H2.
  destruct (withItem getStepDistance B w1) as [sB w2].
  destruct (sweepQuadratic _ _ _ _) as [[qa qb] qc]. cbn [snd] in *. congruence.
Qed.

Lemma view_moveToContact (w : list Item) (A B : nat) (dA dB : R) :
  map view (moveToContact w A B dA dB) = map view w.
Proof.
  unfold moveToContact. cbv zeta. case_decide; rewrite !view_modify; done.
Qed.

Lemma view_consumeStep (w : list Item) (A B : nat) (dA sA dB sB : R) :
  map view (consumeStep w A B dA sA dB sB) = map view w.
Proof.
  unfold consumeStep. cbv zeta. destruct (truthy sB); rewrite !view_modify; done.
Qed.

Lemma view_deflect (w : list Item) (A B : nat) : map view (deflect w A B) = map view w.
Proof. unfold deflect. cbv zeta. case_decide; rewrite !view_modify; done. Qed.

Lemma view_updateForCollision (w : list Item) (A B : nat) (d : R) :
  map view (updateForCollision w A B d) = map view w.
Proof.
  unfold updateForCollision.
  pose proof (view_withItem getStepDistance A w view_getStepDistance) as H1.
  destruct (withItem getStepDistance A w) as [sA w1].
  pose proof (view_withItem getStepDistance B w1 view_getStepDistance) as H2.
  destruct (withItem getStepDistance B w1) as [sB w2].
  pose proof (view_getDistanceToIntersection w2 B A) as H3.
  destruct (getDistanceToIntersection w2 B A) as [dB w3]. cbn [snd] in *.
  rewrite view_deflect, view_consumeStep, view_moveToContact. congruence.
Qed.

Lemma view_updateIfColliding (fuel : nat) :
  forall (w w' : list Item) (item1 item2 _attempt : nat) (hit : bool),
    updateIfColliding fuel w item1 item2 _attempt = Some (hit, w') ->
    map view w' = map view w.
Proof.
  induction fuel as [|fuel IH]; intros w w' item1 item2 att hit; [done|].
  rewrite updateIfColliding_step. cbv zeta.
  set (A := if decide _ then item1 else item2).
  set (B := if (A =? item1)%nat then item2 else item1).
  pose proof (view_getDistanceToIntersection w A B) as H1.
  destruct (getDistanceToIntersection w A B) as [d w1]. cbn [fst snd] in *.
  case_decide; [|intros [= _ <-]; done].
  destruct (negb _ && _).
  - destruct (updateIfColliding fuel w1 _ _ _) as [[hit' w2]|] eqn:Hu; [|done].
    intros [= _ <-]. apply IH in Hu. congruence.
  - intros [= _ <-]. rewrite view_updateForCollision. done.
Qed.

Lemma view_testOrdered (w w' : list Item) (item : nat) (rest : list nat) (hit : bool) :
  testOrdered w item rest = Some (hit, w') -> map view w' = map view w.
Proof.
  revert w. induction rest as [|other rest IH]; intros w.
  - by intros [= _ <-].
  - cbn [testOrdered].
    destruct (updateIfColliding 20 w item other 0) as [[[] w1]|] eqn:Hu; [| |done].
    + intros [= _ <-]. by eapply view_updateIfColliding.
    + intros Ht. apply IH in Ht. apply view_updateIfColliding in Hu. congruence.
Qed.

Lemma view_collisionStepFrom (w w' : list Item) (todo : list nat) (hit : bool) :
  collisionStepFrom w todo = Some (hit, w') -> map view w' = map view w.
Proof.
  revert w. induction todo as [|item todo IH]; intros w.
  - by intros [= _ <-].
  - cbn [collisionStepFrom]. destruct (truthy _ && truthy _); [|apply IH].
    destruct (testOrdered w item _) as [[[] w1]|] eqn:Ht; [| |done].
    + intros [= _ <-]. by eapply view_testOrdered.
    + intros Hs. apply IH in Hs. apply view_testOrdered in Ht. congruence.
Qed.

Lemma view_collisionPasses (fuel : nat) :
  forall (w w' : list Item) (lb c lb' c' : nat),
    collisionPasses fuel w lb c = Some (Finished w' lb' c') ->
    map view w' = map view w.
Proof.
  induction fuel as [|fuel IH]; intros w w' lb c lb' c'; [done|].
  cbn [collisionPasses].
  destruct (collisionStep w) as [[thisTime w1]|] eqn:Hs; [|done].
  apply view_collisionStepFrom in Hs.
  cbn [stepCollisions config andb].
  destruct thisTime.
  - destruct (S lb <? 10)%nat.
    + intros H. apply IH in H. congruence.
    + by intros [= <- _ _].
  - by intros [= <- _ _].
Qed.

Lemma view_applyPhysicsItem (it : Item) : view (applyPhysicsItem it) = view it.
Proof.
  unfold applyPhysicsItem. destruct (truthy _ && truthy _); [|done]. cbv zeta.
  set (item1 := match shotCurve it with Some _ => _ | None => _ end).
  assert (H1 : view item1 = view it).
  { subst item1. destruct (shotCurve it); [|apply view_setPos].
    destruct (getNextCurvePos_body it) as [c Hc].
    destruct (getNextCurvePos it) as [obj i1]. simpl in Hc. subst i1.
    by rewrite view_setPos, view_cache. }
  set (item2 := set_shotTraveled _ item1).
  assert (H2 : view item2 = view it) by (subst item2; by rewrite view_shotTraveled).
  set (item3 := match shotCurve item2 with Some _ => _ | None => _ end).
  assert (H3 : view item3 = view it).
  { subst item3. destruct (shotCurve item2); [|done].
    destruct (getCourseToNextPositionOnCurve_keeps item2) as (c & Hc & _).
    destruct (getCourseToNextPositionOnCurve item2) as [nc i3]. simpl in Hc. subst i3.
    by rewrite view_course, view_cache. }
  rewrite view_unused. case_decide; by rewrite ?view_speed.
Qed.

Lemma view_tick (p : Physics) :
  exists moving p', tick p = Some (moving, p') /\
                    map view (items p') = map view (items p).
Proof.
  unfold tick. cbn [stepCollisions config negb orb].
  destruct (collisionPasses_total 10 (resetItems (items p)) 0 0)
    as (r & Hr & Hshape); [lia..|].
  rewrite Hr. destruct r as [|w1 lb c]; [done|].
  apply view_collisionPasses in Hr.
  pose proof (applyPhysics_snd w1) as Ha.
  destruct (applyPhysics w1) as [m w2]. cbn [snd] in Ha. subst w2.
  exists m, (mkPhysics (map applyPhysicsItem w1) true). split; [done|].
  cbn [items]. transitivity (map view w1).
  - rewrite map_map. apply map_ext. intros. apply view_applyPhysicsItem.
  - rewrite Hr. unfold resetItems. rewrite map_map. apply map_ext.
    intros. apply view_unused.
Qed.

End Frame.

(** A tick changes only what moves: it adds and drops no item, and every
    item keeps its radius, its power, its friction, its [disabled] flag, and
    the course, the origin and the distance of its shot. *)
Theorem tick_keeps_static (p : Physics) :
  exists moving p',
    tick p = Some (moving, p') /\
    length (items p') = length (items p) /\
    map static (items p') = map static (items p).
Proof.
  destruct (view_tick static) with (p := p) as (m & p' & Ht & Hv); try done.
  exists m, p'. split; [done|]. split; [|done].
  apply (f_equal length) in Hv. by rewrite !length_map in Hv.
Qed.

(** ** The registry *)

Lemma indexOf_spec (l : list Ref) (item : Ref) :
  ((item ∉ l) /\ indexOf l item = (-1)%Z) \/
  (exists i : nat, indexOf l item = Z.of_nat i /\ l !! i = Some item /\
                   item ∉ take i l).
Proof.
  induction l as [|x l IH].
  - left. split; [apply not_elem_of_nil | done].
  - cbn [indexOf]. case_decide as Hx.
    + right. exists 0%nat. subst x. split; [done|]. split; [done|].
      apply not_elem_of_nil.
    + destruct IH as [[Hni ->]|(i & -> & Hi & Hti)].
      * left. rewrite decide_True by lia. split; [|done].
        apply not_elem_of_cons. done.
      * right. rewrite decide_False by lia. exists (S i).
        split; [lia|]. split; [done|]. cbn [take].
        apply not_elem_of_cons. done.
Qed.

Lemma indexOf_absent (l : list Ref) (item : Ref) :
  item ∉ l -> indexOf l item = (-1)%Z.
Proof.
  intros H. destruct (indexOf_spec l item) as [[_ ?]|(i & _ & Hi & _)]; [done|].
  exfalso. apply H. by eapply list_elem_of_lookup_2.
Qed.

Lemma indexOf_present (l : list Ref) (item : Ref) :
  item ∈ l ->
  exists i : nat, indexOf l item = Z.of_nat i /\ l !! i = Some item /\ item ∉ take i l.
Proof.
  intros H. by destruct (indexOf_spec l item) as [[? _]|?].
Qed.

(** [addItem] keeps the array free of duplicates.  An item that is in the
    array is not added again; one that is not is put at the end; either way
    it is in the array afterwards, no other array of the store is touched,
    and adding it once more changes nothing. *)
Theorem addItem_adds_once (s : gmap Addr (list Ref)) (e : Engine) (a : Addr) (l : list Ref) (item : Ref) :
  itemsArray s e = Some (a, l) ->
  exists s' l',
    addItem s e item = Some s' /\ itemsArray s' e = Some (a, l') /\
    item ∈ l' /\
    (item ∈ l -> s' = s) /\
    (item ∉ l -> l' = l ++ [item]) /\
    (NoDup l -> NoDup l') /\
    (forall a', a' <> a -> s' !! a' = s !! a') /\
    addItem s' e item = Some s'.
Proof.
  intros Hs. unfold addItem. rewrite Hs.
  assert (Ha : itemsOf e = Some a /\ s !! a = Some l).
  { unfold itemsArray in Hs. destruct (itemsOf e) as [a0|]; [|done].
    destruct (s !! a0) as [l0|] eqn:Hl; [|done]. injection Hs as -> ->. done. }
  destruct Ha as [Ha Hl].
  destruct (decide (item ∈ l)) as [Hin|Hni].
  - destruct (indexOf_present l item Hin) as (i & Hi & _).
    rewrite decide_True by lia. exists s, l. rewrite Hs.
    rewrite decide_True by lia. done.
  - rewrite (indexOf_absent l item Hni). rewrite decide_False by lia.
    exists (<[a := l ++ [item]]> s), (l ++ [item]).
    assert (Hs' : itemsArray (<[a := l ++ [item]]> s) e = Some (a, l ++ [item])).
    { unfold itemsArray. by rewrite Ha, lookup_insert_eq. }
    rewrite Hs'.
    assert (Hin' : item ∈ l ++ [item]).
    { apply elem_of_app. right. apply list_elem_of_here. }
    split; [done|]. split; [done|]. split; [done|]. split; [done|]. split; [done|].
    split; [|split].
    + intros Hnd. apply NoDup_app. split; [done|]. split.
      * intros x Hx ->%list_elem_of_singleton. done.
      * apply NoDup_singleton.
    + intros a' Ha'. by rewrite lookup_insert_ne.
    + destruct (indexOf_present _ item Hin') as (i & Hi & _).
      by rewrite decide_True by lia.
Qed.

Lemma addItem_adds_once_witness :
  exists s' l', addItem freshStore newEngine 7%nat = Some s' /\
                itemsArray s' newEngine = Some (protoItems, l') /\ 7%nat ∈ l'.
Proof.
  destruct (addItem_adds_once freshStore newEngine protoItems [] 7%nat)
    as (s' & l' & H1 & H2 & H3 & _); [done|].
  by exists s', l'.
Defined.

(** [removeItem] takes out the first occurrence of the item and leaves an
    array that does not hold the item alone.  After [addItem] of an item
    that was not in the array it gives back the store as it was. *)
Theorem removeItem_undoes_addItem (s : gmap Addr (list Ref)) (e : Engine) (a : Addr) (l : list Ref)
    (item : Ref) :
  itemsArray s e = Some (a, l) ->
  (item ∉ l -> removeItem s e item = Some s) /\
  (item ∉ l ->
   exists s1, addItem s e item = Some s1 /\ removeItem s1 e item = Some s) /\
  (item ∈ l ->
   exists s' l1 l2,
     removeItem s e item = Some s' /\ itemsArray s' e = Some (a, l1 ++ l2) /\
     l = l1 ++ item :: l2 /\ (item ∉ l1) /\
     (NoDup l -> item ∉ l1 ++ l2)).
Proof.
  intros Hs.
  assert (Ha : itemsOf e = Some a /\ s !! a = Some l).
  { unfold itemsArray in Hs. destruct (itemsOf e) as [a0|]; [|done].
    destruct (s !! a0) as [l0|] eqn:Hl; [|done]. injection Hs as -> ->. done. }
  destruct Ha as [Ha Hl].
  split; [|split].
  - intros Hni. unfold removeItem. rewrite Hs. cbv zeta.
    rewrite (indexOf_absent l item Hni). by rewrite decide_True by lia.
  - intros Hni. unfold addItem. rewrite Hs.
    rewrite (indexOf_absent l item Hni). rewrite decide_False by lia.
    eexists. split; [done|]. unfold removeItem, itemsArray.
    rewrite Ha, lookup_insert_eq. cbv zeta.
    assert (Hin' : item ∈ l ++ [item]).
    { apply elem_of_app. right. apply list_elem_of_here. }
    destruct (indexOf_present _ item Hin') as (i & Hi & Hli & Hti).
    rewrite Hi. rewrite decide_False by lia. rewrite Nat2Z.id.
    assert (i = length l) as ->.
    { destruct (decide (i < length l)%nat) as [Hlt|Hge].
      - rewrite lookup_app_l in Hli by done. exfalso. apply Hni.
        by eapply list_elem_of_lookup_2.
      - apply lookup_lt_Some in Hli. rewrite length_app in Hli. simpl in Hli. lia. }
    f_equal. rewrite insert_insert_eq.
    replace (delete (length l) (l ++ [item])) with l.
    + by apply insert_id.
    + clear. induction l as [|x l IH]; [done|]. simpl. by rewrite <- IH.
  - intros Hin. destruct (indexOf_present l item Hin) as (i & Hi & Hli & Hti).
    unfold removeItem. rewrite Hs. cbv zeta. rewrite Hi.
    rewrite decide_False by lia. rewrite Nat2Z.id.
    exists (<[a := delete i l]> s), (take i l), (drop (S i) l).
    split; [done|]. split.
    { unfold itemsArray. rewrite Ha, lookup_insert_eq. by rewrite delete_take_drop. }
    split. { by rewrite <- (take_drop_middle l i item Hli) at 1. }
    split; [done|].
    intros Hnd. rewrite <- (take_drop_middle l i item Hli) in Hnd.
    apply NoDup_app in Hnd as (_ & Hdis & Hnd2).
    apply NoDup_cons in Hnd2 as [Hni2 _].
    intros [H|H]%elem_of_app; done.
Qed.

Lemma removeItem_undoes_addItem_witness :
  exists s1, addItem freshStore newEngine 7%nat = Some s1 /\
             removeItem s1 newEngine 7%nat = Some freshStore.
Proof.
  destruct (removeItem_undoes_addItem freshStore newEngine protoItems [] 7%nat) as (_ & H & _).
  - done.
  - apply H, not_elem_of_nil.
Defined.

Lemma itemsArray_Some (s : gmap Addr (list Ref)) (e : Engine) (a : Addr) (l : list Ref) :
  itemsArray s e = Some (a, l) <-> itemsOf e = Some a /\ s !! a = Some l.
Proof.
  unfold itemsArray. destruct (itemsOf e) as [a0|].
  - destruct (s !! a0) as [l0|] eqn:Hl.
    + split.
      * by intros [= -> ->].
      * intros [[= ->] H]. rewrite Hl in H. by injection H as ->.
    + split; [done|]. intros [[= ->] H]. by rewrite Hl in H.
  - split; [done|]. by intros [? _].
Qed.

(** The array of the prototype is shared.  Two engines that have not been
    given items of their own hold the same array: an item added through the
    one is an item of the other, and [replaceItems] on the one empties the
    items of the other. *)
Theorem engines_share_items (s : gmap Addr (list Ref)) (e1 e2 : Engine) (l : list Ref) :
  ownItems e1 = None -> ownItems e2 = None -> s !! protoItems = Some l ->
  (forall item, exists s' l',
      addItem s e1 item = Some s' /\
      itemsArray s' e2 = Some (protoItems, l') /\ item ∈ l') /\
  (forall arr, exists s' e1',
      replaceItems s e1 arr = Some (s', e1') /\
      itemsArray s' e2 = Some (protoItems, []) /\
      itemsOf e1' = Some arr).
Proof.
  intros H1 H2 Hl.
  assert (Hs1 : itemsArray s e1 = Some (protoItems, l)).
  { apply itemsArray_Some. unfold itemsOf. by rewrite H1. }
  split.
  - intros item. unfold addItem. rewrite Hs1.
    destruct (decide (item ∈ l)) as [Hin|Hni].
    + destruct (indexOf_present l item Hin) as (i & Hi & _).
      rewrite decide_True by lia. exists s, l. split; [done|]. split; [|done].
      apply itemsArray_Some. unfold itemsOf. by rewrite H2.
    + rewrite (indexOf_absent l item Hni). rewrite decide_False by lia.
      eexists _, (l ++ [item]). split; [done|]. split.
      * apply itemsArray_Some. unfold itemsOf. by rewrite H2, lookup_insert_eq.
      * apply elem_of_app. right. apply list_elem_of_here.
  - intros arr. unfold replaceItems. rewrite Hs1. eexists _, _. split; [done|].
    split; [|done]. apply itemsArray_Some. unfold itemsOf.
    by rewrite H2, lookup_insert_eq.
Qed.

Lemma engines_share_items_witness :
  exists s' l', addItem freshStore newEngine 7%nat = Some s' /\
                itemsArray s' newEngine = Some (protoItems, l') /\ 7%nat ∈ l'.
Proof.
  destruct (engines_share_items freshStore newEngine newEngine [] eq_refl eq_refl eq_refl)
    as [H _].
  apply H.
Defined.

(** [replaceItems] empties the array the engine held before it installs the
    new one, and it installs the array itself, not a copy.  So an engine
    that is given the array it already holds ends with no item, and an
    engine that is given another array adds its next items to that array. *)
Theorem replaceItems_aliases (s : gmap Addr (list Ref)) (e : Engine) (a arr : Addr)
    (l l2 : list Ref) (item : Ref) :
  itemsArray s e = Some (a, l) ->
  (exists s' e', replaceItems s e a = Some (s', e') /\
                 itemsArray s' e' = Some (a, [])) /\
  (arr <> a -> s !! arr = Some l2 -> item ∉ l2 ->
   exists s' e' s'',
     replaceItems s e arr = Some (s', e') /\
     s' !! a = Some [] /\
     itemsArray s' e' = Some (arr, l2) /\
     addItem s' e' item = Some s'' /\
     s'' !! arr = Some (l2 ++ [item])).
Proof.
  intros Hs. split.
  - unfold replaceItems. rewrite Hs. eexists _, _. split; [done|].
    apply itemsArray_Some. by rewrite lookup_insert_eq.
  - intros Hne Harr Hni. unfold replaceItems. rewrite Hs.
    eexists _, _, _. split; [done|]. split; [by rewrite lookup_insert_eq|].
    assert (H' : itemsArray (<[a := []]> s) (mkEngine (Some (Some arr))) = Some (arr, l2)).
    { apply itemsArray_Some. by rewrite lookup_insert_ne. }
    split; [done|]. unfold addItem. rewrite H'.
    rewrite (indexOf_absent l2 item Hni). rewrite decide_False by lia.
    split; [done|]. by rewrite lookup_insert_eq.
Qed.

Lemma replaceItems_aliases_witness :
  exists s' e', replaceItems freshStore newEngine protoItems = Some (s', e') /\
                itemsArray s' e' = Some (protoItems, []).
Proof.
  destruct (replaceItems_aliases freshStore newEngine protoItems protoItems [] [] 7%nat)
    as [H _]; done.
Defined.

(** [destroy] empties the array of the engine, for whoever else holds it
    too, and leaves the engine with [null] for its items: every function of
    the registry then throws.  An engine made afterwards still reads the
    array of the prototype. *)
Theorem destroy_ends_engine (s : gmap Addr (list Ref)) (e : Engine) (a : Addr)
    (l : list Ref) :
  itemsArray s e = Some (a, l) ->
  exists s' e',
    destroy s e = Some (s', e') /\
    s' !! a = Some [] /\
    (forall a', a' <> a -> s' !! a' = s !! a') /\
    itemsArray s' e' = None /\
    (forall item, addItem s' e' item = None /\ removeItem s' e' item = None) /\
    (forall arr, replaceItems s' e' arr = None) /\
    destroy s' e' = None /\
    itemsOf newEngine = Some protoItems.
Proof.
  intros Hs. unfold destroy. rewrite Hs. eexists _, _. split; [done|].
  split; [by rewrite lookup_insert_eq|]. split.
  { intros a' Ha'. by rewrite lookup_insert_ne. }
  done.
Qed.

Lemma destroy_ends_engine_witness :
  exists s' e', destroy freshStore newEngine = Some (s', e') /\
                s' !! protoItems = Some [].
Proof.
  destruct (destroy_ends_engine freshStore newEngine protoItems [])
    as (s' & e' & H1 & H2 & _); [done|].
  by exists s', e'.
Defined.
